(** * Emergency dispatch core: rating ledger, route finding, hospital selection

    A shallow embedding of
    - [hospital_rating_system.py]   (module [HospitalPerformance], [HospitalRatingSystem]),
    - [emergency_route_finder.py]   (module [BidirectionalDijkstra], [EmergencyRouteFinder]),
    - [emergency_response_system.py] (module [EmergencyResponseSystem], [EmergencyContacts]),
    - [t_nagar_emergency_service.py] (module [TNagarEmergencyService]),
    - [post_stabilization_rating.py] (module [PostStabilizationRating]),
    together with the properties the specification states about them.

    Conventions of the embedding.
    - Python floats are modelled by exact rationals [Q]; edge lengths of the
      road graph by integers [Z] (metres).  Floating-point rounding error is
      outside the model.
    - SQLite tables are lists of rows in rowid order; a connection's open
      transaction is a working copy of the database that [commit] publishes
      and [rollback] discards.
    - [None] of an [option] is Python's [None] or SQL's [NULL]. *)

From Stdlib Require Import ZArith QArith Qround Qminmax Qabs Lia Lqa.
From Stdlib Require Import Permutation Sorted.
From stdpp Require Import gmap strings list.

Local Open Scope Z_scope.

(** ** Python and SQL primitives *)

(** Python's built-in [round(x)]: nearest integer, ties to the even one. *)
Definition py_round (x : Q) : Z :=
  let f := Qfloor x in
  match Qcompare (x - inject_Z f) (1 # 2) with
  | Lt => f
  | Gt => f + 1
  | Eq => if Z.even f then f else f + 1
  end.

(** [round(x, 2)]. *)
Definition py_round2 (x : Q) : Q :=
  (inject_Z (py_round (x * 100)) / 100)%Q.

(** [v if v else d] on an optional float: [None] and [0.0] are both falsy. *)
Definition if_truthy_else (v : option Q) (d : Q) : Q :=
  match v with
  | Some x => if Qeq_bool x 0 then d else x
  | None => d
  end.

(** SQL [AVG]: [NULL] over no rows, otherwise sum over count. *)
Definition sql_avg (xs : list Q) : option Q :=
  match xs with
  | [] => None
  | _ => Some (foldr Qplus 0%Q xs / inject_Z (Z.of_nat (length xs)))%Q
  end.

(** SQL [LIMIT n]: a negative [n] means no limit. *)
Definition sql_limit {A} (n : Z) (rows : list A) : list A :=
  if n <? 0 then rows else take (Z.to_nat n) rows.

(** A stable sort by a "comes no later than" test: Python's [list.sort] and
    the row order of an [ORDER BY]. *)
Section StableSort.
Context {A : Type} (leb : A -> A -> bool).

Fixpoint insert_sorted (x : A) (l : list A) : list A :=
  match l with
  | [] => [x]
  | y :: l' => if leb x y then x :: l else y :: insert_sorted x l'
  end.

Definition stable_sort (l : list A) : list A := foldr insert_sorted [] l.
End StableSort.

(** ** hospital_rating_system.py *)

Module HospitalPerformance.

Record t := mk {
  hospital_name : string;
  total_cases : Z;
  successful_outcomes : Z;
  average_response_time_minutes : Q;
  quality_score : Q;
  current_rating : Q
}.

Definition success_rate (p : t) : Q :=
  (inject_Z (successful_outcomes p) / inject_Z (total_cases p))%Q.

Definition response_score (p : t) : Q :=
  Qmax 0 (Qmin 100 (100 - (average_response_time_minutes p / 60) * 50))%Q.

Definition overall_score (p : t) : Q :=
  (success_rate p * 0.40 + (quality_score p / 100) * 0.35
   + (response_score p / 100) * 0.25)%Q.

Definition calculate_new_rating (p : t) : Q :=
  if total_cases p =? 0 then 2.5%Q
  else
    let new_rating := (overall_score p * 5)%Q in
    (inject_Z (py_round (new_rating * 2)) / 2)%Q.

End HospitalPerformance.

Module HospitalRatingSystem.

(** Row of table [hospitals]. *)
Record hospital := mkHospital {
  id : Z;
  name : string;
  address : string;
  latitude : option Q;
  longitude : option Q;
  phone : string;
  current_rating : Q;
  total_cases : Z;
  successful_outcomes : Z;
  total_response_time_minutes : Q
}.

(** Row of table [case_history]. *)
Record case := mkCase {
  hospital_id : Z;
  accident_id : string;
  patient_outcome : string;
  quality_score : Q;
  response_time_minutes : Q;
  treatment_quality_notes : string
}.

(** The [reason] text of a [rating_history] row, kept as its arguments. *)
Inductive reason :=
| UpdatedBasedOn (cases successful : Z) (avg_quality avg_response : Q)
| ReasonText (s : string).

(** Row of table [rating_history]. *)
Record rating_change := mkRatingChange {
  rc_hospital_id : Z;
  old_rating : Q;
  new_rating : Q;
  rc_reason : reason
}.

(** The database file.  [hospitals_seq] is the AUTOINCREMENT counter of
    [hospitals] (the largest id ever handed out). *)
Record db := mkDb {
  hospitals : list hospital;
  hospitals_seq : Z;
  case_history : list case;
  rating_history : list rating_change
}.

(** [init_database] on a fresh file: three empty tables. *)
Definition init_database : db := mkDb [] 0 [] [].

Definition has_name (n : string) (h : hospital) : bool := String.eqb (name h) n.
Definition has_id (i : Z) (h : hospital) : bool := id h =? i.

(** [SELECT id FROM hospitals WHERE name = ?] followed by [fetchone]. *)
Definition select_id (d : db) (n : string) : option Z :=
  id <$> List.find (has_name n) (hospitals d).

(** An insert that the UNIQUE constraint makes SQLite ignore: no row is
    written, but the rowid the AUTOINCREMENT counter had handed out for it
    is used up. *)
Definition skip_rowid (d : db) : db :=
  mkDb (hospitals d) (hospitals_seq d + 1) (case_history d) (rating_history d).

(** [INSERT OR IGNORE INTO hospitals (name, address, latitude, longitude, phone)]:
    ignored when the UNIQUE name is taken; the other columns take their
    declared defaults. *)
Definition insert_or_ignore (d : db) (n a : string) (lat lon : option Q) (p : string) : db :=
  if existsb (has_name n) (hospitals d) then skip_rowid d
  else
    let i := hospitals_seq d + 1 in
    mkDb (hospitals d ++ [mkHospital i n a lat lon p 2.5%Q 0 0 0%Q])
         i (case_history d) (rating_history d).

Definition register_hospital (d : db) (n a : string) (lat lon : option Q) (p : string)
  : option Z * db :=
  let d' := insert_or_ignore d n a lat lon p in
  (select_id d' n, d').

Definition get_hospital_id (d : db) (n : string) : option Z := select_id d n.

(** Python truthiness of an optional id: [None] and [0] are falsy. *)
Definition truthy_id (i : option Z) : bool :=
  match i with Some v => negb (v =? 0) | None => false end.

(** *** Transactions with injected persistence failures *)

(** The statements of the [record_case_outcome] transaction. *)
Inductive statement :=
| InsertCase | UpdateStatistics | SelectStatistics | SelectAverages
| UpdateRating | InsertRatingHistory | Commit.

(** A fault plan says which statements raise. *)
Definition faults := statement -> bool.
Definition no_faults : faults := fun _ => false.

(** Running a statement: [None] is the raised exception. *)
Definition exec (f : faults) (s : statement) (result : db) : option db :=
  if f s then None else Some result.

Definition update_where_id (i : Z) (upd : hospital -> hospital) (d : db) : db :=
  mkDb (map (fun h => if has_id i h then upd h else h) (hospitals d))
       (hospitals_seq d) (case_history d) (rating_history d).

Definition insert_case (c : case) (d : db) : db :=
  mkDb (hospitals d) (hospitals_seq d) (case_history d ++ [c]) (rating_history d).

Definition insert_rating_history (r : rating_change) (d : db) : db :=
  mkDb (hospitals d) (hospitals_seq d) (case_history d) (rating_history d ++ [r]).

Definition add_statistics (is_successful : Z) (minutes : Q) (h : hospital) : hospital :=
  mkHospital (id h) (name h) (address h) (latitude h) (longitude h) (phone h)
    (current_rating h) (total_cases h + 1) (successful_outcomes h + is_successful)
    (total_response_time_minutes h + minutes)%Q.

Definition set_rating (r : Q) (h : hospital) : hospital :=
  mkHospital (id h) (name h) (address h) (latitude h) (longitude h) (phone h)
    r (total_cases h) (successful_outcomes h) (total_response_time_minutes h).

Definition cases_of (d : db) (i : Z) : list case :=
  List.filter (fun c => hospital_id c =? i) (case_history d).

(** The performance object built by [_update_hospital_rating]. *)
Definition performance_of (d : db) (h : hospital) : HospitalPerformance.t :=
  let avg_quality :=
    if_truthy_else (sql_avg (map quality_score (cases_of d (id h)))) 50.0 in
  let avg_response_time :=
    if_truthy_else (sql_avg (map response_time_minutes (cases_of d (id h)))) 60.0 in
  HospitalPerformance.mk (name h) (total_cases h) (successful_outcomes h)
    avg_response_time avg_quality
    (if Qeq_bool (current_rating h) 0 then 2.5%Q else current_rating h).

(** [abs(new_rating - old_rating) >= 0.1] *)
Definition significant_change (new old : Q) : bool := Qle_bool 0.1 (Qabs (new - old)).

Definition _update_hospital_rating (f : faults) (i : Z) (d : db) : option db :=
  _ ← exec f SelectStatistics d;
  match List.find (has_id i) (hospitals d) with
  | None => Some d
  | Some h =>
    _ ← exec f SelectAverages d;
    let performance := performance_of d h in
    let new := HospitalPerformance.calculate_new_rating performance in
    let old := current_rating h in
    d1 ← exec f UpdateRating (update_where_id i (set_rating new) d);
    if significant_change new old then
      exec f InsertRatingHistory
        (insert_rating_history
           (mkRatingChange i old new
              (UpdatedBasedOn (total_cases h) (successful_outcomes h)
                 (HospitalPerformance.quality_score performance)
                 (HospitalPerformance.average_response_time_minutes performance)))
           d1)
    else Some d1
  end.

(** The body of the [try] block of [record_case_outcome]. *)
Definition record_transaction (f : faults) (i : Z) (acc outcome : string)
    (quality minutes : Q) (notes : string) (d : db) : option db :=
  d1 ← exec f InsertCase (insert_case (mkCase i acc outcome quality minutes notes) d);
  let is_successful := if String.eqb outcome "successful" then 1 else 0 in
  d2 ← exec f UpdateStatistics
         (update_where_id i (add_statistics is_successful minutes) d1);
  d3 ← _update_hospital_rating f i d2;
  exec f Commit d3.

(** The lookup-or-register prelude of [record_case_outcome]; the
    registration commits on its own connection. *)
Definition ensure_registered (d : db) (n : string) : option Z * db :=
  let i := get_hospital_id d n in
  if truthy_id i then (i, d) else register_hospital d n "" None None "".

Definition record_case_outcome (f : faults) (d : db) (n acc outcome : string)
    (quality minutes : Q) (notes : string) : bool * db :=
  let '(i, d0) := ensure_registered d n in
  match i with
  | Some hid =>
    if truthy_id i then
      match record_transaction f hid acc outcome quality minutes notes d0 with
      | Some d' => (true, d')
      | None => (false, d0)
      end
    else (false, d0)
  | None => (false, d0)
  end.

(** The dictionary returned by [get_hospital_rating]. *)
Record rating_info := mkRatingInfo {
  ri_hospital_name : string;
  ri_address : string;
  ri_phone : string;
  ri_current_rating : Q;
  ri_total_cases : Z;
  ri_successful_outcomes : Z;
  ri_success_rate_percent : Q;
  ri_average_quality_score : Q;
  ri_average_response_time_minutes : Q
}.

Definition get_hospital_rating (d : db) (n : string) : option rating_info :=
  h ← List.find (has_name n) (hospitals d);
  let avg_quality := if_truthy_else (sql_avg (map quality_score (cases_of d (id h)))) 50.0 in
  let cases := total_cases h in
  let avg_response_time :=
    if 0 <? cases then (total_response_time_minutes h / inject_Z cases)%Q else 0%Q in
  let success_rate :=
    if 0 <? cases then (inject_Z (successful_outcomes h) / inject_Z cases * 100)%Q else 0%Q in
  Some (mkRatingInfo (name h) (address h) (phone h) (current_rating h) cases
          (successful_outcomes h) (py_round2 success_rate) (py_round2 avg_quality)
          (py_round2 avg_response_time)).

(** [ORDER BY current_rating DESC, total_cases DESC]. *)
Definition top_order (a b : hospital) : bool :=
  match Qcompare (current_rating a) (current_rating b) with
  | Gt => true
  | Lt => false
  | Eq => total_cases b <=? total_cases a
  end.

(** The rows selected by the query of [get_top_hospitals]. *)
Definition select_top (d : db) (limit : Z) : list hospital :=
  sql_limit limit
    (stable_sort top_order (List.filter (fun h => 0 <? total_cases h) (hospitals d))).

(** An entry of the list returned by [get_top_hospitals]. *)
Record top_entry := mkTopEntry {
  te_hospital_name : string;
  te_address : string;
  te_phone : string;
  te_current_rating : Q;
  te_total_cases : Z;
  te_success_rate_percent : Q;
  te_average_response_time_minutes : Q
}.

Definition top_entry_of (h : hospital) : top_entry :=
  let cases := total_cases h in
  let avg_response_time :=
    if 0 <? cases then (total_response_time_minutes h / inject_Z cases)%Q else 0%Q in
  let success_rate :=
    if 0 <? cases then (inject_Z (successful_outcomes h) / inject_Z cases * 100)%Q else 0%Q in
  mkTopEntry (name h) (address h) (phone h) (current_rating h) cases
    (py_round2 success_rate) (py_round2 avg_response_time).

Definition get_top_hospitals (d : db) (limit : Z) : list top_entry :=
  map top_entry_of (select_top d limit).

(** *** [update_rating_manually] *)

(** The statements of its transaction. *)
Inductive manual_statement :=
| ManualSelectRating | ManualUpdateRating | ManualInsertHistory | ManualCommit.

Definition manual_faults := manual_statement -> bool.
Definition no_manual_faults : manual_faults := fun _ => false.

(** The body of the [try] block; [fetchone()[0]] on a missing row raises. *)
Definition manual_transaction (f : manual_faults) (i : Z) (new : Q) (reason : string)
    (d : db) : option db :=
  if f ManualSelectRating then None
  else
    h ← List.find (has_id i) (hospitals d);
    let old := current_rating h in
    if f ManualUpdateRating then None
    else
      let d1 := update_where_id i (set_rating new) d in
      if f ManualInsertHistory then None
      else
        let d2 :=
          insert_rating_history
            (mkRatingChange i old new
               (ReasonText (if String.eqb reason "" then "Manual update" else reason)))
            d1 in
        if f ManualCommit then None else Some d2.

Definition update_rating_manually (f : manual_faults) (d : db) (n : string)
    (new : Q) (reason : string) : bool * db :=
  let i := get_hospital_id d n in
  match i with
  | Some hid =>
    if truthy_id i then
      match manual_transaction f hid new reason d with
      | Some d' => (true, d')
      | None => (false, d)
      end
    else (false, d)
  | None => (false, d)
  end.

End HospitalRatingSystem.

(** ** emergency_route_finder.py *)

(** The part of a [networkx.MultiDiGraph] the route finder reads: node
    attributes and the edges in insertion order.  An edge without a
    [length] attribute has [edge_length = None]. *)
Module Graph.

Record edge := mkEdge { src : Z; dst : Z; edge_length : option Z }.

Record t := mk {
  node_data : list (Z * (Q * Q));   (* node id, (y, x) = (lat, lon) *)
  edges : list edge
}.

(** Adding an edge adds its end points, so a node is one that was added
    explicitly or one that an edge touches. *)
Definition has_node (g : t) (n : Z) : bool :=
  existsb (fun nd => nd.1 =? n) (node_data g)
  || existsb (fun e => (src e =? n) || (dst e =? n)) (edges g).

(** [edge_data[0].get('length', 1.0)] *)
Definition weight (e : edge) : Z := default 1 (edge_length e).

(** An adjacency view keeps one entry per neighbour, in the order the
    neighbours first appeared; key [0] is the first parallel edge. *)
Fixpoint first_per_neighbor (seen : list Z) (l : list (Z * Z)) : list (Z * Z) :=
  match l with
  | [] => []
  | (v, w) :: r =>
    if existsb (Z.eqb v) seen then first_per_neighbor seen r
    else (v, w) :: first_per_neighbor (v :: seen) r
  end.

(** [graph[u].items()] with the weight of edge key [0]. *)
Definition successors (g : t) (u : Z) : list (Z * Z) :=
  first_per_neighbor []
    (map (fun e => (dst e, weight e)) (List.filter (fun e => src e =? u) (edges g))).

(** [graph.predecessors(v)], each with the weight of [graph[p][v][0]]. *)
Definition predecessors (g : t) (v : Z) : list (Z * Z) :=
  first_per_neighbor []
    (map (fun e => (src e, weight e)) (List.filter (fun e => dst e =? v) (edges g))).

(** [G.nodes[n]] read as [(lat, lon)]: [None] is the KeyError for a node
    that is not in the graph; the attributes of a node that has none
    default to [0]. *)
Definition coordinates (g : t) (n : Z) : option (Q * Q) :=
  match List.find (fun nd => nd.1 =? n) (node_data g) with
  | Some nd => Some nd.2
  | None => if has_node g n then Some (0%Q, 0%Q) else None
  end.

End Graph.

(** [heapq] on a list of [(distance, node)] tuples.  Only the multiset of
    entries is observable through [heappush] and [heappop], so the heap is
    kept as a plain list and [heappop] extracts the least tuple. *)
Module Heap.

Definition t := list (Z * Z).

Definition tuple_ltb (a b : Z * Z) : bool :=
  (a.1 <? b.1) || ((a.1 =? b.1) && (a.2 <? b.2)).

Definition least (x : Z * Z) (l : t) : Z * Z :=
  foldl (fun m y => if tuple_ltb y m then y else m) x l.

Fixpoint remove_first (x : Z * Z) (l : t) : t :=
  match l with
  | [] => []
  | y :: r => if (y.1 =? x.1) && (y.2 =? x.2) then r else y :: remove_first x r
  end.

Definition heappush (h : t) (x : Z * Z) : t := x :: h.

Definition heappop (h : t) : option ((Z * Z) * t) :=
  match h with
  | [] => None
  | x :: r => let m := least x r in Some (m, remove_first m h)
  end.

End Heap.

Module BidirectionalDijkstra.

(** The four containers of one search direction. *)
Record side := mkSide {
  dist : gmap Z Z;
  prev : gmap Z (option Z);
  heap : Heap.t;
  visited : gset Z
}.

(** [meeting_point] and [min_total_dist]; [None] is [None] resp. [inf]. *)
Record meeting := mkMeeting {
  meeting_point : option Z;
  min_total_dist : option Z
}.

Definition lt_min_total (total : Z) (m : meeting) : bool :=
  match min_total_dist m with
  | Some t => total <? t
  | None => true
  end.

(** [if total_dist < min_total_dist: min_total_dist = ...; meeting_point = n] *)
Definition meet_at (n total : Z) (m : meeting) : meeting :=
  if lt_min_total total m then mkMeeting (Some n) (Some total) else m.

Definition check_meeting (other_dist : gmap Z Z) (n d : Z) (m : meeting) : meeting :=
  match other_dist !! n with
  | Some od => meet_at n (d + od) m
  | None => m
  end.

(** One round of the [for neighbor ...] loop. *)
Definition relax (node d : Z) (other_dist : gmap Z Z)
    (acc : side * meeting) (nb : Z * Z) : side * meeting :=
  let '(s, m) := acc in
  let '(neighbor, edge_weight) := nb in
  if bool_decide (neighbor ∈ visited s) then acc
  else
    let new_dist := d + edge_weight in
    let improved :=
      match dist s !! neighbor with
      | Some old => new_dist <? old
      | None => true
      end in
    let s' :=
      if improved then
        mkSide (<[neighbor := new_dist]> (dist s))
               (<[neighbor := Some node]> (prev s))
               (Heap.heappush (heap s) (new_dist, neighbor))
               (visited s)
      else s in
    (s', check_meeting other_dist neighbor new_dist m).

Inductive step :=
| Idle                                (* the heap was empty: block not entered *)
| Skipped (s : side)                  (* popped a visited node: [continue] *)
| Expanded (s : side) (m : meeting)
| KeyError.                           (* the popped node is not in the graph *)

(** The forward step, or the backward step with the roles swapped. *)
Definition search_step (g : Graph.t) (neighbors : Graph.t -> Z -> list (Z * Z))
    (s : side) (other_dist : gmap Z Z) (m : meeting) : step :=
  match Heap.heappop (heap s) with
  | None => Idle
  | Some ((d, node), h) =>
    if bool_decide (node ∈ visited s) then
      Skipped (mkSide (dist s) (prev s) h (visited s))
    else
      let s1 := mkSide (dist s) (prev s) h ({[node]} ∪ visited s) in
      let m1 := check_meeting other_dist node d m in
      if Graph.has_node g node then
        let '(s2, m2) := foldl (relax node d other_dist) (s1, m1) (neighbors g node) in
        Expanded s2 m2
      else KeyError
  end.

(** [while node is not None: path.append(node); node = prev.get(node)] *)
Fixpoint walk (prev : gmap Z (option Z)) (fuel : nat) (node : option Z) : list Z :=
  match fuel, node with
  | S k, Some n => n :: walk prev k (mjoin (prev !! n))
  | _, _ => []
  end.

Definition reconstruct (f b : side) (mp : Z) : list Z :=
  let forward_path := rev (walk (prev f) (S (size (prev f))) (Some mp)) in
  let backward_path := walk (prev b) (S (size (prev b))) (mjoin (prev b !! mp)) in
  forward_path ++ backward_path.

Inductive result :=
| Path (path : list Z) (distance : Z)
| NoPath                               (* (None, inf) *)
| Raised
| OutOfFuel.

Record state := mkState { fwd : side; bwd : side; meet : meeting }.

(** [if meeting_point and min_total_dist < inf]: node [0] is falsy. *)
Definition early_termination (st : state) : option result :=
  match meeting_point (meet st), min_total_dist (meet st) with
  | Some mp, Some total =>
    if mp =? 0 then None else Some (Path (reconstruct (fwd st) (bwd st) mp) total)
  | _, _ => None
  end.

(** One pass through the body of the [while] loop: the next state, or the
    value returned. *)
Definition iteration (g : Graph.t) (st : state) : state + result :=
  let after_forward :=
    match search_step g Graph.successors (fwd st) (dist (bwd st)) (meet st) with
    | Idle => inl (inl st)
    | Skipped f => inl (inr (mkState f (bwd st) (meet st)))
    | Expanded f m => inl (inl (mkState f (bwd st) m))
    | KeyError => inr Raised
    end in
  match after_forward with
  | inr r => inr r
  | inl (inr st') => inl st'                       (* continue *)
  | inl (inl st1) =>
    match search_step g Graph.predecessors (bwd st1) (dist (fwd st1)) (meet st1) with
    | Skipped b => inl (mkState (fwd st1) b (meet st1))
    | KeyError => inr Raised
    | Idle =>
      match early_termination st1 with Some r => inr r | None => inl st1 end
    | Expanded b m =>
      let st2 := mkState (fwd st1) b m in
      match early_termination st2 with Some r => inr r | None => inl st2 end
    end
  end.

Fixpoint while_loop (fuel : nat) (g : Graph.t) (st : state) : result :=
  match fuel with
  | O => OutOfFuel
  | S k =>
    match heap (fwd st), heap (bwd st) with
    | [], [] => NoPath
    | _, _ =>
      match iteration g st with
      | inl st' => while_loop k g st'
      | inr r => r
      end
    end
  end.

Definition initial (n : Z) : side :=
  mkSide {[n := 0]} {[n := None]} [(0, n)] ∅.

(** Every pass pops a heap entry, and each direction pushes at most one
    entry per edge besides its start entry. *)
Definition enough_fuel (g : Graph.t) : nat := S (2 * S (length (Graph.edges g))).

Definition find_shortest_path (g : Graph.t) (source target : Z) : result :=
  if source =? target then Path [source] 0
  else while_loop (enough_fuel g) g
         (mkState (initial source) (initial target) (mkMeeting None None)).

End BidirectionalDijkstra.

(** The reference the specification compares against: a textbook
    single-source Dijkstra from [source], stopped when [target] is settled.
    [None] means that [target] is unreachable. *)
Module ReferenceDijkstra.

Definition relax (d : Z) (acc : gmap Z Z * Heap.t) (nb : Z * Z) : gmap Z Z * Heap.t :=
  let '(dist, heap) := acc in
  let '(v, w) := nb in
  match dist !! v with
  | Some old => if d + w <? old then (<[v := d + w]> dist, Heap.heappush heap (d + w, v)) else acc
  | None => (<[v := d + w]> dist, Heap.heappush heap (d + w, v))
  end.

Fixpoint run (fuel : nat) (g : Graph.t) (target : Z)
    (dist : gmap Z Z) (heap : Heap.t) (settled : gset Z) : option Z :=
  match fuel with
  | O => None
  | S k =>
    match Heap.heappop heap with
    | None => None
    | Some ((d, u), h) =>
      if bool_decide (u ∈ settled) then run k g target dist h settled
      else if u =? target then Some d
      else
        let '(dist', h') := foldl (relax d) (dist, h) (Graph.successors g u) in
        run k g target dist' h' ({[u]} ∪ settled)
    end
  end.

Definition shortest_distance (g : Graph.t) (source target : Z) : option Z :=
  run (S (S (length (Graph.edges g)))) g target {[source := 0]} [(0, source)] ∅.

(** The length of a given walk through the graph, if all its edges exist
    (the lightest parallel edge is not needed here: key [0] is used). *)
Fixpoint walk_length (g : Graph.t) (p : list Z) : option Z :=
  match p with
  | u :: ((v :: _) as r) =>
    w ← snd <$> List.find (fun nb => nb.1 =? v) (Graph.successors g u);
    l ← walk_length g r;
    Some (w + l)
  | _ => Some 0
  end.

End ReferenceDijkstra.

Module EmergencyRouteFinder.

(** The dictionary returned by [find_optimal_hospital_route]. *)
Inductive route_info :=
| RouteFound (path_nodes : list Z) (path_coordinates : list (Q * Q))
             (distance_km distance_m : Q) (fast_mode : bool)
| RouteError (error : string).

Definition success (r : route_info) : bool :=
  match r with RouteFound _ _ _ _ _ => true | RouteError _ => false end.

(** What [ox.graph_from_point] answers for a centre and a radius; [None]
    is any exception it raises. *)
Definition provider := Q -> Q -> Z -> option Graph.t.

Section WithCollaborators.
(** [haversine_distance]: great-circle distance in km (trigonometry on
    floats, kept abstract). *)
Variable haversine_distance : Q -> Q -> Q -> Q -> Q.
(** [ox.distance.nearest_nodes(G, X=lon, Y=lat)]; [None] when it raises. *)
Variable nearest_nodes : Graph.t -> Q -> Q -> option Z.
(** The f-string [f"{center_lat:.4f}_{center_lon:.4f}_{radius_m}"]. *)
Variable cache_key : Q -> Q -> Z -> string.

Definition get_road_network (graph_from_point : provider)
    (graph_cache : gmap string Graph.t) (center_lat center_lon : Q) (radius_m : Z)
  : option Graph.t * gmap string Graph.t :=
  let key := cache_key center_lat center_lon radius_m in
  match graph_cache !! key with
  | Some G => (Some G, graph_cache)
  | None =>
    match graph_from_point center_lat center_lon radius_m with
    | Some G => (Some G, <[key := G]> graph_cache)
    | None => (None, graph_cache)
    end
  end.

(** The [if fast_mode:] branch. *)
Definition straight_line_route (accident_lat accident_lon hospital_lat hospital_lon : Q)
  : route_info :=
  let straight_distance :=
    haversine_distance accident_lat accident_lon hospital_lat hospital_lon in
  RouteFound [] [(hospital_lat, hospital_lon); (accident_lat, accident_lon)]
    straight_distance (straight_distance * 1000)%Q true.

(** [None] as result: an exception leaves the function ([KeyError] or
    [NetworkXError] of the path finder on a node that is not in the
    graph, [KeyError] of [G.nodes[node]]); nothing in the function or in
    its callers catches it.  (The path finder never runs out of fuel,
    so that case is only there to make the match complete.) *)
Definition find_optimal_hospital_route (graph_from_point : provider)
    (graph_cache : gmap string Graph.t)
    (accident_lat accident_lon hospital_lat hospital_lon : Q)
    (radius_m : Z) (fast_mode : bool)
  : option route_info * gmap string Graph.t :=
  if fast_mode then
    (Some (straight_line_route accident_lat accident_lon hospital_lat hospital_lon),
     graph_cache)
  else
    let center_lat := ((accident_lat + hospital_lat) / 2)%Q in
    let center_lon := ((accident_lon + hospital_lon) / 2)%Q in
    let '(G, cache') :=
      get_road_network graph_from_point graph_cache center_lat center_lon radius_m in
    match G with
    | None =>
      (Some (straight_line_route accident_lat accident_lon hospital_lat hospital_lon),
       cache')
    | Some G =>
      match nearest_nodes G accident_lon accident_lat,
            nearest_nodes G hospital_lon hospital_lat with
      | Some accident_node, Some hospital_node =>
        match BidirectionalDijkstra.find_shortest_path G hospital_node accident_node with
        | BidirectionalDijkstra.Path path distance_m =>
          match mapM (Graph.coordinates G) path with
          | Some path_coordinates =>
            (Some (RouteFound path path_coordinates
                     (inject_Z distance_m / 1000)%Q (inject_Z distance_m) false),
             cache')
          | None => (None, cache')
          end
        | BidirectionalDijkstra.NoPath =>
          (Some (RouteError "No route found between hospital and accident location"),
           cache')
        | BidirectionalDijkstra.Raised | BidirectionalDijkstra.OutOfFuel => (None, cache')
        end
      | _, _ => (Some (RouteError "Could not find nodes"), cache')
      end
    end.

(** A row of the hospital frame after the radius filter, with its
    straight-line distance. *)
Record dataset_row := mkRow {
  Name : string;
  Address : string;
  Phone : string;
  Latitude : Q;
  Longitude : Q;
  Distance_km : Q
}.

(** An entry of the list returned by [find_nearest_hospitals_with_routes]. *)
Record routed := mkRouted {
  hospital_name : string;
  hospital_address : string;
  hospital_phone : string;
  hospital_lat : Q;
  hospital_lon : Q;
  straight_distance_km : Q;
  route_distance_km : Q;
  route_distance_m : Q;
  route_coordinates : list (Q * Q)
}.

Inductive entry :=
| RouteSuccess (h : routed)
| RouteFailure (row : dataset_row) (route_error : string).

Definition entry_of (row : dataset_row) (r : route_info) : entry :=
  match r with
  | RouteFound _ coords km m _ =>
    RouteSuccess (mkRouted (Name row) (Address row) (Phone row) (Latitude row)
                    (Longitude row) (Distance_km row) km m coords)
  | RouteError e => RouteFailure row e
  end.

(** The [for _, hospital in hospitals_df.iterrows()] loop of
    [find_nearest_hospitals_with_routes], over the rows the frame
    selection kept; the default [radius_m = 5000] applies.  An exception
    of a route ends the loop and no list is returned ([None]); the cache
    keeps what was stored until then. *)
Fixpoint route_each (graph_from_point : provider) (graph_cache : gmap string Graph.t)
    (accident_lat accident_lon : Q) (fast_mode : bool) (rows : list dataset_row)
  : option (list entry) * gmap string Graph.t :=
  match rows with
  | [] => (Some [], graph_cache)
  | row :: rest =>
    let '(r, cache1) :=
      find_optimal_hospital_route graph_from_point graph_cache accident_lat accident_lon
        (Latitude row) (Longitude row) 5000 fast_mode in
    match r with
    | None => (None, cache1)
    | Some route_info =>
      let '(es, cache2) :=
        route_each graph_from_point cache1 accident_lat accident_lon fast_mode rest in
      (cons (entry_of row route_info) <$> es, cache2)
    end
  end.

End WithCollaborators.

End EmergencyRouteFinder.

(** ** emergency_response_system.py *)

Module EmergencyResponseSystem.
Import EmergencyRouteFinder.

(** An element of [alternative_hospitals]. *)
Record alternative := mkAlternative {
  alt_name : string;
  alt_distance_km : Q;
  alt_rating : Q
}.

(** The successful response of [handle_accident] (map file, report file
    and time stamp left out). *)
Record response := mkResponse {
  selected_hospital : routed;
  star_rating : Q;
  total_cases : Z;
  alternative_hospitals : list alternative
}.

Section WithDataset.
Variable use_t_nagar_24x7 : bool.
(** The lookup of a hospital name in the richer dataset: the
    upper-cased [ICU_availability] and lower-cased [Response_readiness]
    of the first matching row; [None] when no row matches or the lookup
    raises. *)
Variable dataset_flags : string -> option (string * string).

Definition extra_of (hospital_name : string) : Q :=
  if use_t_nagar_24x7 then
    match dataset_flags hospital_name with
    | Some (icu, readiness) =>
      ((if String.eqb icu "Y" then 0.1 else 0)
       + (if String.eqb readiness "high" then 0.05 else 0))%Q
    | None => 0%Q
    end
  else 0%Q.

(** [hospitals_with_routes]: the successful entries, sorted by route
    distance. *)
Definition hospitals_with_routes (hospitals : list entry) : list routed :=
  stable_sort (fun a b => Qle_bool (route_distance_km a) (route_distance_km b))
    (omap (fun e => match e with RouteSuccess h => Some h | RouteFailure _ _ => None end)
          hospitals).

(** The rating looked up for a candidate, registering it when unknown. *)
Definition rating_info_for (d : HospitalRatingSystem.db) (h : routed)
  : option HospitalRatingSystem.rating_info * HospitalRatingSystem.db :=
  match HospitalRatingSystem.get_hospital_rating d (hospital_name h) with
  | Some ri => (Some ri, d)
  | None =>
    let d' := snd (HospitalRatingSystem.register_hospital d (hospital_name h)
                     (hospital_address h) (Some (hospital_lat h))
                     (Some (hospital_lon h)) (hospital_phone h)) in
    (HospitalRatingSystem.get_hospital_rating d' (hospital_name h), d')
  end.

Definition combined_score (h : routed) (ri : option HospitalRatingSystem.rating_info) : Q :=
  let route_score := (1 / (route_distance_km h + 0.1))%Q in
  let rating_score :=
    match ri with
    | Some i => (HospitalRatingSystem.ri_current_rating i / 5)%Q
    | None => 0.5%Q
    end in
  (route_score * 0.55 + rating_score * 0.35 + extra_of (hospital_name h))%Q.

(** The variables the selection loop updates. *)
Record selection := mkSelection {
  ratings : HospitalRatingSystem.db;
  best_hospital : option (routed * option HospitalRatingSystem.rating_info);
  best_score : Q
}.

(** The body of [for hospital in hospitals_with_routes[:5]]. *)
Definition consider (s : selection) (h : routed) : selection :=
  let '(ri, d) := rating_info_for (ratings s) h in
  let score := combined_score h ri in
  if negb (Qle_bool score (best_score s))        (* combined_score > best_score *)
  then mkSelection d (Some (h, ri)) score
  else mkSelection d (best_hospital s) (best_score s).

Definition select_best (d : HospitalRatingSystem.db) (candidates : list routed) : selection :=
  foldl consider (mkSelection d None (-1)%Q) (take 5 candidates).

Definition alternative_of (d : HospitalRatingSystem.db) (h : routed) : alternative :=
  mkAlternative (hospital_name h) (route_distance_km h)
    match HospitalRatingSystem.get_hospital_rating d (hospital_name h) with
    | Some ri => HospitalRatingSystem.ri_current_rating ri
    | None => 2.5%Q
    end.

(** [handle_accident] from the list of routed hospitals on; [None] is
    the "No hospitals with valid routes found" answer. *)
Definition handle_accident (d : HospitalRatingSystem.db) (hospitals : list entry)
  : option response * HospitalRatingSystem.db :=
  match hospitals_with_routes hospitals with
  | [] => (None, d)
  | (first :: _) as candidates =>
    let s := select_best d candidates in
    let '(best, ri) := default (first, None) (best_hospital s) in
    (Some (mkResponse best
             match ri with Some i => HospitalRatingSystem.ri_current_rating i | None => 2.5%Q end
             match ri with Some i => HospitalRatingSystem.ri_total_cases i | None => 0 end
             (map (alternative_of (ratings s)) (take 2 (drop 1 candidates)))),
     ratings s)
  end.

End WithDataset.

End EmergencyResponseSystem.

(** ** t_nagar_emergency_service.py *)

(** Python's [max(a, b)]: the first argument unless the second is greater. *)
Definition py_max (a b : Q) : Q := if Qle_bool b a then a else b.

(** Python's [max(first :: rest, key=key)]: the first of the items with the
    greatest key. *)
Definition py_max_by {A} (key : A -> Q) (first : A) (rest : list A) : A :=
  foldl (fun best x => if Qle_bool (key x) (key best) then best else x) first rest.

(** Python's slice [l[:n]]: a negative [n] counts from the end. *)
Definition py_slice_to {A} (n : Z) (l : list A) : list A :=
  if 0 <=? n then take (Z.to_nat n) l else take (length l - Z.to_nat (- n)) l.

Module TNagarEmergencyService.

(** The dictionary [to_dict] builds for a row of the dataset. *)
Record place := mkPlace {
  name : string;
  category : string;
  lat : Q;
  lon : Q;
  phone : string;
  distance_km : Q;
  emergency_24x7 : bool;
  icu_availability : bool;
  response_readiness : string
}.

(** An element of the emergency call list. *)
Record contact := mkContact {
  contact_name : string;
  contact_phone : string;
  contact_category : string
}.

(** [{"high": 15, "medium": 10, "low": 5}.get(readiness, 10)] *)
Definition readiness_score (readiness : string) : Q :=
  if String.eqb readiness "high" then 15%Q
  else if String.eqb readiness "medium" then 10%Q
  else if String.eqb readiness "low" then 5%Q
  else 10%Q.

(** The rating read under [try: ... except Exception: pass]:
    [lookup_raises] tells for which names the lookup raises. *)
Definition past_rating (rating_system : option HospitalRatingSystem.db)
    (lookup_raises : string -> bool) (n : string) : Q :=
  match rating_system with
  | Some d =>
    if lookup_raises n then 2.5%Q
    else
      match HospitalRatingSystem.get_hospital_rating d n with
      | Some info => HospitalRatingSystem.ri_current_rating info
      | None => 2.5%Q
      end
  | None => 2.5%Q
  end.

(** The local function [score] of [assign_best_hospital]. *)
Definition score (rating_system : option HospitalRatingSystem.db)
    (lookup_raises : string -> bool) (h : place) : Q :=
  let dist := distance_km h in
  let proximity_score := py_max 0 (40 - dist * 4)%Q in
  let icu_score := if icu_availability h then 20%Q else 0%Q in
  let rating := past_rating rating_system lookup_raises (name h) in
  let rating_score := (rating / 5 * 25)%Q in
  (proximity_score + icu_score + readiness_score (response_readiness h) + rating_score)%Q.

(** [assign_best_hospital] over the hospitals that
    [get_24x7_hospitals_and_police] read from the dataset. *)
Definition assign_best_hospital (rating_system : option HospitalRatingSystem.db)
    (lookup_raises : string -> bool) (hospitals : list place) : option place :=
  match hospitals with
  | [] => None
  | first :: rest => Some (py_max_by (score rating_system lookup_raises) first rest)
  end.

(** Truthiness of a string: not empty. *)
Definition truthy (s : string) : bool := negb (String.eqb s "").

(** [get_emergency_call_list] over the hospitals and police stations read
    from the dataset (both calls of [get_24x7_hospitals_and_police] use the
    default radius, and are taken to read the same rows). *)
Definition get_emergency_call_list (include_best_hospital include_nearest_police : bool)
    (max_police : Z) (rating_system : option HospitalRatingSystem.db)
    (lookup_raises : string -> bool) (hospitals police : list place) : list contact :=
  let out :=
    if include_best_hospital && match hospitals with [] => false | _ => true end then
      match assign_best_hospital rating_system lookup_raises hospitals with
      | Some best =>
        if truthy (phone best) then [mkContact (name best) (phone best) "Hospital"] else []
      | None => []
      end
    else [] in
  out ++ map (fun p => mkContact (name p) (phone p) "Police Station")
             (List.filter (fun p => truthy (phone p)) (py_slice_to max_police police)).

End TNagarEmergencyService.

(** ** emergency_response_system.py: the call list *)

Module EmergencyContacts.
Import TNagarEmergencyService.

(** [get_emergency_call_contacts]; [dataset] is what the service reads,
    [None] when importing or reading raises. *)
Definition get_emergency_call_contacts (use_t_nagar_24x7 : bool)
    (rating_system : HospitalRatingSystem.db) (lookup_raises : string -> bool)
    (dataset : option (list place * list place)) : list contact :=
  if use_t_nagar_24x7 then
    match dataset with
    | Some (hospitals, police) =>
      get_emergency_call_list true true 2 (Some rating_system) lookup_raises hospitals police
    | None => []
    end
  else [].

End EmergencyContacts.

(** ** post_stabilization_rating.py *)

Module PostStabilizationRating.
Import HospitalRatingSystem.

(** The three values printed after a recorded outcome. *)
Record printed := mkPrinted {
  star_rating : Q;
  success_rate : Q;
  avg_response_time : Q
}.

(** The value returned with what was printed, or the [AttributeError] of
    [report.get] on a missing report. *)
Inductive outcome :=
| Returned (ok : bool) (out : option printed)
| AttributeError.

Definition record_outcome_and_update_rating (f : faults) (d : db)
    (accident_id hospital_name patient_outcome : string)
    (quality_score response_time_minutes : Q) (treatment_notes : string)
  : outcome * db :=
  let '(ok, d') :=
    record_case_outcome f d hospital_name accident_id patient_outcome quality_score
      response_time_minutes treatment_notes in
  if ok then
    match get_hospital_rating d' hospital_name with
    | Some report =>
      (Returned true
         (Some (mkPrinted (ri_current_rating report) (ri_success_rate_percent report)
                  (ri_average_response_time_minutes report))),
       d')
    | None => (AttributeError, d')
    end
  else (Returned false None, d').

End PostStabilizationRating.

(** ** Specification vocabulary *)

(** The order a boolean test decides. *)
Definition holds {A : Type} (leb : A -> A -> bool) (a b : A) : Prop := leb a b = true.

Module RatingSpec.
Import HospitalRatingSystem.

(** A star rating on the half-star grid [0, 0.5, ..., 5.0]. *)
Definition half_star (r : Q) : Prop :=
  exists k : Z, 0 <= k <= 10 /\ (r == k # 2)%Q.

(** What the schema of table [hospitals] enforces: ids are handed out by
    the AUTOINCREMENT counter, ids and names are unique. *)
Record schema_ok (d : db) : Prop := mkSchemaOk {
  ok_seq : 0 <= hospitals_seq d;
  ok_ids : Forall (fun h => 0 < id h <= hospitals_seq d) (hospitals d);
  ok_ids_unique : NoDup (map id (hospitals d));
  ok_names : NoDup (map name (hospitals d))
}.

(** The schema together with what calls within the documented argument
    ranges keep. *)
Record well_formed (d : db) : Prop := mkWellFormed {
  wf_schema : schema_ok d;
  wf_counters : Forall (fun h => 0 <= successful_outcomes h <= total_cases h) (hospitals d);
  wf_ratings : Forall (fun h => half_star (current_rating h)) (hospitals d);
  wf_cases :
    Forall (fun c => (0 <= quality_score c <= 100)%Q /\ (0 <= response_time_minutes c)%Q)
           (case_history d)
}.

(** The counters of a row after the [UPDATE] for case [c]. *)
Definition add_outcome (c : case) (h : hospital) : hospital :=
  add_statistics (if String.eqb (patient_outcome c) "successful" then 1 else 0)
    (response_time_minutes c) h.

(** The rating recomputed for row [h0] once case [c] is on record. *)
Definition recomputed_rating (d0 : db) (h0 : hospital) (c : case) : Q :=
  HospitalPerformance.calculate_new_rating
    (performance_of (insert_case c d0) (add_outcome c h0)).

(** The store a fault-free transaction for case [c] of row [h0] commits. *)
Definition committed (d0 : db) (h0 : hospital) (c : case) : db :=
  let new := recomputed_rating d0 h0 c in
  let p := performance_of (insert_case c d0) (add_outcome c h0) in
  let d3 :=
    update_where_id (id h0) (set_rating new)
      (update_where_id (id h0) (add_outcome c) (insert_case c d0)) in
  if significant_change new (current_rating h0) then
    insert_rating_history
      (mkRatingChange (id h0) (current_rating h0) new
         (UpdatedBasedOn (total_cases h0 + 1)
            (successful_outcomes h0
             + (if String.eqb (patient_outcome c) "successful" then 1 else 0))
            (HospitalPerformance.quality_score p)
            (HospitalPerformance.average_response_time_minutes p)))
      d3
  else d3.

(** The statements a transaction for case [c] of row [h0] runs and the
    fault plan makes raise. *)
Definition raises (f : faults) (d0 : db) (h0 : hospital) (c : case) : bool :=
  f InsertCase || f UpdateStatistics || f SelectStatistics || f SelectAverages
  || f UpdateRating
  || (significant_change (recomputed_rating d0 h0 c) (current_rating h0)
      && f InsertRatingHistory)
  || f Commit.

(** One [record_case_outcome] call: the fault plan of its transaction and
    its arguments. *)
Record call := mkCall {
  call_faults : faults;
  call_hospital_name : string;
  call_accident_id : string;
  call_patient_outcome : string;
  call_quality_score : Q;
  call_response_time_minutes : Q;
  call_treatment_notes : string
}.

(** The documented preconditions: quality in [0,100], time not negative. *)
Definition valid_call (c : call) : Prop :=
  (0 <= call_quality_score c <= 100)%Q /\ (0 <= call_response_time_minutes c)%Q.

Definition run_call (d : db) (c : call) : db :=
  snd (record_case_outcome (call_faults c) d (call_hospital_name c) (call_accident_id c)
         (call_patient_outcome c) (call_quality_score c) (call_response_time_minutes c)
         (call_treatment_notes c)).

Definition run_calls (d : db) (cs : list call) : db := foldl run_call d cs.

Definition perfect_call : call :=
  mkCall no_faults "Apollo" "case-1" "successful" 100 0 "".

(** A fault plan under which only the commit fails. *)
Definition commit_fails : faults :=
  fun s => match s with Commit => true | _ => false end.

(** [ORDER BY current_rating DESC, total_cases DESC] in words: [a] may
    stand before [b]. *)
Definition ranks_before (a b : hospital) : Prop :=
  (current_rating b < current_rating a)%Q
  \/ ((current_rating a == current_rating b)%Q /\ total_cases b <= total_cases a).

(** The store after registering one facility and reporting one perfect
    outcome for it: successful, quality 100, response time 0 minutes. *)
Definition registered_once : db :=
  (register_hospital init_database "Apollo" "" None None "").2.

Definition perfect_outcome : bool * db :=
  record_case_outcome no_faults registered_once "Apollo" "case-1" "successful" 100 0 "".

Definition perfect_row : hospital :=
  Eval vm_compute in
    default (mkHospital 0 "" "" None None "" 0 0 0 0) (head (hospitals perfect_outcome.2)).

(** The scenario of the specification: A (4.5, 10 cases), B (4.5, 3 cases),
    C (3.0, 50 cases). *)
Definition scenario_top : db :=
  mkDb [ mkHospital 1 "A" "" None None "" 4.5%Q 10 8 120%Q;
         mkHospital 2 "B" "" None None "" 4.5%Q 3 3 30%Q;
         mkHospital 3 "C" "" None None "" 3.0%Q 50 20 900%Q ]
       3 [] [].

End RatingSpec.

Module RouteSpec.
Import Graph.

(** A direct road of 10 m from node 1 to node 4 and a detour 1-2-3-4 of
    three roads of 1 m each. *)
Definition detour_graph : Graph.t :=
  Graph.mk []
    [ mkEdge 1 4 (Some 10); mkEdge 1 2 (Some 1); mkEdge 2 3 (Some 1); mkEdge 3 4 (Some 1) ].

(** Two roads 5 -> 0 -> 6: the only meeting node has id 0. *)
Definition through_zero_graph : Graph.t :=
  Graph.mk [] [ mkEdge 5 0 (Some 1); mkEdge 0 6 (Some 1) ].

(** Stand-ins for the collaborators of the route finder. *)
Definition flat_distance (lat1 lon1 lat2 lon2 : Q) : Q :=
  (Qabs (lat2 - lat1) + Qabs (lon2 - lon1))%Q.
Definition no_nearest_node (_ : Graph.t) (_ _ : Q) : option Z := None.
Definition one_key (_ _ : Q) (_ : Z) : string := "0.0000_0.0000_5000".
Definition provider_down : EmergencyRouteFinder.provider := fun _ _ _ => None.
Definition provider_up : EmergencyRouteFinder.provider := fun _ _ _ => Some detour_graph.

End RouteSpec.

Module ResponseSpec.
Import EmergencyRouteFinder EmergencyResponseSystem.

Section WithDataset.
Variable use_t_nagar_24x7 : bool.
Variable dataset_flags : string -> option (string * string).

(** The stored rating behind a name, 2.5 for an unknown one. *)
Definition stored (d : HospitalRatingSystem.db) (n : string) : Q :=
  match List.find (HospitalRatingSystem.has_name n) (HospitalRatingSystem.hospitals d) with
  | Some row => HospitalRatingSystem.current_rating row
  | None => 2.5%Q
  end.


(** The score the selection loop computes for a candidate. *)
Definition score (d : HospitalRatingSystem.db) (h : routed) : Q :=
  combined_score use_t_nagar_24x7 dataset_flags h (rating_info_for d h).1.
End WithDataset.

Definition candidate (n : string) (km : Q) : routed :=
  mkRouted n "" "" 0 0 km km (km * 1000) [].

(** A store in which hospital "A" has one unsuccessful case on record
    (quality 1, response time 120 minutes), hence rating 0. *)
Definition a_rated_down : HospitalRatingSystem.db :=
  (HospitalRatingSystem.record_case_outcome HospitalRatingSystem.no_faults
     HospitalRatingSystem.init_database "A" "case-1" "unsuccessful" 1 120 "").2.

(** Three routed hospitals at 1.0, 1.1 and 2.0 km. *)
Definition three_candidates : list entry :=
  [ RouteSuccess (candidate "A" 1.0); RouteSuccess (candidate "B" 1.1);
    RouteSuccess (candidate "C" 2.0) ].



Definition no_flags (_ : string) : option (string * string) := None.

End ResponseSpec.

(** ** Vocabulary for the further properties *)

Module LedgerSpec.
Import HospitalRatingSystem RatingSpec.

Definition is_successful (c : case) : bool := String.eqb (patient_outcome c) "successful".

Definition total_minutes (cs : list case) : Q :=
  foldr Qplus 0%Q (map response_time_minutes cs).

(** The aggregate columns of a hospital row agree with its case rows. *)
Definition row_consistent (d : db) (h : hospital) : Prop :=
  total_cases h = Z.of_nat (length (cases_of d (id h)))
  /\ successful_outcomes h = Z.of_nat (length (List.filter is_successful (cases_of d (id h))))
  /\ (total_response_time_minutes h == total_minutes (cases_of d (id h)))%Q.

(** Every case row and every rating-history row belongs to a stored
    hospital, and every row's aggregates agree with the case rows. *)
Record ledger_consistent (d : db) : Prop := mkLedgerConsistent {
  lc_cases : Forall (fun c => hospital_id c ∈ map id (hospitals d)) (case_history d);
  lc_history : Forall (fun r => rc_hospital_id r ∈ map id (hospitals d)) (rating_history d);
  lc_rows : Forall (row_consistent d) (hospitals d)
}.

(** The operations of the rating system that write. *)
Inductive operation :=
| Register (n a : string) (lat lon : option Q) (p : string)
| RecordOutcome (c : call)
| ManualUpdate (f : manual_faults) (n : string) (new : Q) (reason : string).

Definition run_operation (d : db) (op : operation) : db :=
  match op with
  | Register n a lat lon p => (register_hospital d n a lat lon p).2
  | RecordOutcome c => run_call d c
  | ManualUpdate f n new reason => (update_rating_manually f d n new reason).2
  end.

Definition run_operations (d : db) (ops : list operation) : db := foldl run_operation d ops.

(** The identity of a row: what never changes once it is stored. *)
Definition identity (h : hospital) : Z * string := (id h, name h).

Definition manual_commit_fails : manual_faults :=
  fun s => match s with ManualCommit => true | _ => false end.

(** The store after one perfect outcome for "Apollo" (rating 4.5). *)
Definition apollo_db : db := perfect_outcome.2.

End LedgerSpec.

Module PathSpec.
Import BidirectionalDijkstra.

(** The length read for the road from [u] to [v]: that of the first edge
    between them. *)
Definition edge_weight (g : Graph.t) (u v : Z) : option Z :=
  snd <$> List.find (fun nb => nb.1 =? v) (Graph.successors g u).

(** [arc p n w]: the search that settled [p] reaches [n] over a road of
    length [w]. *)
Definition forward_arc (g : Graph.t) (p n w : Z) : Prop := edge_weight g p n = Some w.
Definition backward_arc (g : Graph.t) (p n w : Z) : Prop := edge_weight g n p = Some w.

(** [chain arc prev s n l d]: following [prev] from [n] visits exactly the
    nodes [l] (from [n] to the start [s]) over roads of total length [d]. *)
Inductive chain (arc : Z -> Z -> Z -> Prop) (prev : gmap Z (option Z)) (s : Z)
  : Z -> list Z -> Z -> Prop :=
| chain_start : prev !! s = Some None -> chain arc prev s s [s] 0
| chain_step (n p : Z) (l : list Z) (d w : Z) :
    prev !! n = Some (Some p) -> chain arc prev s p l d -> arc p n w ->
    chain arc prev s n (n :: l) (d + w).

(** What one direction of the search keeps true. *)
Record side_inv (arc : Z -> Z -> Z -> Prop) (s : Z) (S : side) : Prop := mkSideInv {
  si_start : dist S !! s = Some 0 /\ prev S !! s = Some None;
  si_chain : forall n d, dist S !! n = Some d ->
             exists l, chain arc (prev S) s n l d /\ NoDup l
                       /\ forall x, x ∈ tail l -> x ∈ visited S;
  si_visited : forall n, n ∈ visited S -> is_Some (dist S !! n);
  si_queued : forall n d, n ∉ visited S -> dist S !! n = Some d -> (d, n) ∈ heap S;
  si_heap : forall d n, (d, n) ∈ heap S -> exists d', dist S !! n = Some d' /\ d' <= d;
  si_begun : s ∈ visited S \/ dist S = {[s := 0]}
}.

(** What the meeting point keeps true: its total is the sum of the two
    tentative distances of the meeting node, and no node known to both
    directions has a smaller sum. *)
Record meet_inv (own other : gmap Z Z) (m : meeting) : Prop := mkMeetInv {
  mi_total : forall mp t, meeting_point m = Some mp -> min_total_dist m = Some t ->
             exists a b, own !! mp = Some a /\ other !! mp = Some b /\ t = a + b;
  mi_both : meeting_point m = None <-> min_total_dist m = None;
  mi_least : forall x a b, own !! x = Some a -> other !! x = Some b ->
             lt_min_total (a + b) m = false
}.

Record state_inv (g : Graph.t) (s t : Z) (st : state) : Prop := mkStateInv {
  st_fwd : side_inv (forward_arc g) s (fwd st);
  st_bwd : side_inv (backward_arc g) t (bwd st);
  st_meet : meet_inv (dist (fwd st)) (dist (bwd st)) (meet st)
}.

(** What is left to do for one direction: the queued entries, and the
    edges whose end on this side ([key]) is not settled yet. *)
Definition side_budget (key : Graph.edge -> Z) (g : Graph.t) (S : side) : nat :=
  length (heap S)
  + length (List.filter (fun e => negb (bool_decide (key e ∈ visited S))) (Graph.edges g)).

Definition budget (g : Graph.t) (st : state) : nat :=
  side_budget Graph.src g (fwd st) + side_budget Graph.dst g (bwd st).

(** Every queued node is a node of the graph. *)
Definition heap_known (g : Graph.t) (S : side) : Prop :=
  forall x, x ∈ heap S -> Graph.has_node g x.2 = true.

(** A returned path is a walk in the graph from [s] to [t] whose road
    lengths add up to the returned distance. *)
Definition path_ok (g : Graph.t) (s t : Z) (r : result) : Prop :=
  match r with
  | Path p d =>
    ReferenceDijkstra.walk_length g p = Some d /\ head p = Some s /\ last p = Some t
  | _ => True
  end.

End PathSpec.

Module RoutingSpec.
Import Graph EmergencyRouteFinder.

(** No road of the graph has a negative length. *)
Definition nonneg_lengths (g : Graph.t) : Prop :=
  Forall (fun e => 0 <= weight e) (edges g).

(** The name an entry of the routed list is reported under. *)
Definition entry_name (e : entry) : string :=
  match e with
  | RouteSuccess h => hospital_name h
  | RouteFailure row _ => Name row
  end.

(** The routed-mode answers of [find_optimal_hospital_route] that come from
    its own [return] statements. *)
Definition returned (r : route_info) : Prop :=
  success r = true
  \/ r = RouteError "Could not find nodes"
  \/ r = RouteError "No route found between hospital and accident location".

(** A stand-in for [nearest_nodes] that answers with an end of the first
    road: its head for points up to latitude 1, its tail for the others. *)
Definition end_of_first_road (g : Graph.t) (lon lat : Q) : option Z :=
  match edges g with
  | [] => None
  | e :: _ => Some (if Qle_bool lat 1 then dst e else src e)
  end.

End RoutingSpec.

Module DispatchSpec.
Import EmergencyRouteFinder EmergencyResponseSystem HospitalRatingSystem.

(** The candidates the selection loop scans: [hospitals_with_routes[:5]]. *)
Definition scanned (hospitals : list entry) : list routed :=
  take 5 (hospitals_with_routes hospitals).

(** At least one hospital has a route. *)
Definition routable (hospitals : list entry) : Prop :=
  exists h, RouteSuccess h ∈ hospitals.

Definition nonneg_distances (l : list routed) : Prop :=
  Forall (fun h => (0 <= route_distance_km h)%Q) l.

Definition nonneg_ratings (d : db) : Prop :=
  Forall (fun h => (0 <= current_rating h)%Q) (hospitals d).

(** A row as [register_hospital] inserts it, for one of [names]. *)
Definition fresh_row (names : list string) (r : hospital) : Prop :=
  name r ∈ names /\ current_rating r = 2.5%Q
  /\ total_cases r = 0 /\ successful_outcomes r = 0.

(** [d'] is [d] with fresh rows added for some of [names], and nothing
    else changed. *)
Record grown (names : list string) (d d' : db) : Prop := mkGrown {
  gr_cases : case_history d' = case_history d;
  gr_history : rating_history d' = rating_history d;
  gr_rows : exists new, hospitals d' = hospitals d ++ new /\ Forall (fresh_row names) new
}.

End DispatchSpec.

Module CallSpec.
Import TNagarEmergencyService.

(** Every rating the hospital score may read lies on the scale 0 to 5. *)
Definition rated_on_scale (rating_system : option HospitalRatingSystem.db) : Prop :=
  forall d, rating_system = Some d ->
    Forall (fun h => (0 <= HospitalRatingSystem.current_rating h <= 5)%Q)
           (HospitalRatingSystem.hospitals d).

Definition is_hospital (c : contact) : Prop := contact_category c = "Hospital".
Definition is_police (c : contact) : Prop := contact_category c = "Police Station".

(** Two hospitals and a police station of the neighbourhood. *)
Definition near_clinic : place :=
  mkPlace "Clinic" "Hospital" 13 80 "" 1 true false "low".
Definition far_hospital : place :=
  mkPlace "General" "Hospital" 13 80 "044-1" 6 true true "high".
Definition station : place :=
  mkPlace "R1" "Police Station" 13 80 "100" 2 true false "high".

Definition never_raises (_ : string) : bool := false.

End CallSpec.

(** * Properties *)

(** ** Lists, rounding and averages *)

Section ListFacts.
Context {A : Type}.

Lemma find_snoc (f : A -> bool) (l : list A) (x : A) :
  List.find f (l ++ [x]) =
  match List.find f l with
  | Some y => Some y
  | None => if f x then Some x else None
  end.
Proof.
  induction l as [|y l IH]; simpl; [reflexivity|].
  destruct (f y); [reflexivity | exact IH].
Qed.

Lemma find_none_existsb (f : A -> bool) (l : list A) :
  List.find f l = None <-> existsb f l = false.
Proof.
  induction l as [|y l IH]; simpl; [tauto|].
  destruct (f y); simpl; [split; discriminate | exact IH].
Qed.

Lemma filter_none (f : A -> bool) (l : list A) :
  existsb f l = false -> List.filter f l = [].
Proof.
  induction l as [|y l IH]; simpl; [reflexivity|].
  destruct (f y); simpl; [discriminate | exact IH].
Qed.
End ListFacts.

(** ** The stable sort *)

Section StableSortFacts.
Context {A : Type} (leb : A -> A -> bool).
Hypothesis leb_total : forall a b, leb a b = true \/ leb b a = true.

#[local] Abbreviation R := (holds leb).

Lemma insert_sorted_perm (x : A) (l : list A) :
  Permutation (insert_sorted leb x l) (x :: l).
Proof.
  induction l as [|y l IH]; simpl; [reflexivity|].
  destruct (leb x y); [reflexivity|].
  rewrite IH. apply perm_swap.
Qed.

Lemma stable_sort_perm (l : list A) : Permutation (stable_sort leb l) l.
Proof.
  induction l as [|x l IH]; simpl; [reflexivity|].
  rewrite insert_sorted_perm. by constructor.
Qed.

Lemma insert_sorted_hd (x y : A) (l : list A) :
  R y x -> HdRel R y l -> HdRel R y (insert_sorted leb x l).
Proof.
  unfold holds. intros Hyx Hhd. destruct l as [|z l]; simpl; [by constructor|].
  destruct (leb x z); constructor; [exact Hyx|].
  by inversion Hhd.
Qed.

Lemma insert_sorted_sorted (x : A) (l : list A) :
  Sorted R l -> Sorted R (insert_sorted leb x l).
Proof.
  unfold holds in *. induction 1 as [|y l Hs IH Hhd]; simpl; [by repeat constructor|].
  destruct (leb x y) eqn:E.
  - constructor; [by constructor | by constructor].
  - constructor; [exact IH|]. apply insert_sorted_hd; [|exact Hhd].
    destruct (leb_total x y) as [H|H]; [congruence | exact H].
Qed.

Lemma stable_sort_sorted (l : list A) : Sorted R (stable_sort leb l).
Proof.
  induction l as [|x l IH]; simpl; [constructor|].
  by apply insert_sorted_sorted.
Qed.
End StableSortFacts.

Lemma Sorted_weaken {A} (R1 R2 : A -> A -> Prop) (l : list A) :
  (forall a b, R1 a b -> R2 a b) -> Sorted R1 l -> Sorted R2 l.
Proof.
  intros Himp. induction 1 as [|x l Hs IH Hhd]; constructor; [exact IH|].
  destruct Hhd; constructor. by apply Himp.
Qed.

Lemma StronglySorted_take {A} (R : A -> A -> Prop) (n : nat) (l : list A) :
  StronglySorted R l -> StronglySorted R (take n l).
Proof.
  intros Hs. revert n. induction Hs as [|x l Hs IH Hall]; intros [|n]; simpl;
    try constructor.
  - apply IH.
  - apply Forall_take. exact Hall.
Qed.

Section Numbers.

Lemma py_round_bounds (x : Q) (lo hi : Z) :
  (inject_Z lo <= x <= inject_Z hi)%Q -> lo <= py_round x <= hi.
Proof.
  intros [Hlo Hhi]. unfold py_round.
  pose proof (Qfloor_le x) as Hf.
  assert (Hlo' : lo <= Qfloor x).
  { rewrite <- (Qfloor_Z lo). by apply Qfloor_resp_le. }
  assert (Hhi' : Qfloor x <= hi).
  { rewrite <- (Qfloor_Z hi). by apply Qfloor_resp_le. }
  assert (Hstep : (1 # 2 <= x - inject_Z (Qfloor x))%Q -> Qfloor x + 1 <= hi).
  { intros Hhalf. destruct (Z.eq_dec (Qfloor x) hi) as [E|]; [|lia].
    rewrite E in Hhalf. lra. }
  destruct (Qcompare_spec (x - inject_Z (Qfloor x)) (1 # 2)) as [E|E|E].
  - destruct (Z.even (Qfloor x)); [lia|]. split; [lia|]. apply Hstep. rewrite E. lra.
  - lia.
  - split; [lia|]. apply Hstep. lra.
Qed.

Lemma sum_bounds (lo hi : Q) (xs : list Q) :
  Forall (fun x => lo <= x <= hi)%Q xs ->
  (lo * inject_Z (Z.of_nat (length xs)) <= foldr Qplus 0 xs
   <= hi * inject_Z (Z.of_nat (length xs)))%Q.
Proof.
  induction 1 as [|x xs [Hl Hh] _ IH].
  - cbn [length foldr]. change (inject_Z (Z.of_nat 0)) with 0%Q. lra.
  - cbn [length foldr]. rewrite Nat2Z.inj_succ. unfold Z.succ.
    rewrite inject_Z_plus. change (inject_Z 1) with 1%Q. lra.
Qed.

Lemma sql_avg_bounds (lo hi : Q) (xs : list Q) (a : Q) :
  Forall (fun x => lo <= x <= hi)%Q xs -> sql_avg xs = Some a -> (lo <= a <= hi)%Q.
Proof.
  intros Hb. pose proof (sum_bounds lo hi xs Hb) as [Hl Hh].
  destruct xs as [|x xs]; [discriminate|]. unfold sql_avg. intros [= <-].
  assert (Hn : (0 < inject_Z (Z.of_nat (length (x :: xs))))%Q).
  { change 0%Q with (inject_Z 0). rewrite <- Zlt_Qlt. simpl. lia. }
  split.
  - by apply Qle_shift_div_l.
  - by apply Qle_shift_div_r.
Qed.

Lemma sum_nonneg (xs : list Q) :
  Forall (fun x => 0 <= x)%Q xs -> (0 <= foldr Qplus 0 xs)%Q.
Proof. induction 1 as [|x xs Hx _ IH]; simpl; lra. Qed.

Lemma if_truthy_else_bounds (lo hi : Q) (v : option Q) (dflt : Q) :
  (lo <= dflt <= hi)%Q -> (forall a, v = Some a -> (lo <= a <= hi)%Q) ->
  (lo <= if_truthy_else v dflt <= hi)%Q.
Proof.
  intros Hd Hv. destruct v as [a|]; simpl; [|exact Hd].
  destruct (Qeq_bool a 0); [exact Hd | by apply Hv].
Qed.

End Numbers.

(** ** The rating ledger *)

Module RatingLedger.
Import HospitalRatingSystem RatingSpec.

Lemma has_name_spec n h : has_name n h = true <-> name h = n.
Proof. unfold has_name. apply String.eqb_eq. Qed.

Lemma existsb_has_name n l :
  existsb (has_name n) l = true <-> n ∈ map name l.
Proof.
  rewrite existsb_exists, list_elem_of_fmap. split.
  - intros (h & Hin & Hn). apply has_name_spec in Hn. exists h. split; [done|].
    by apply list_elem_of_In.
  - intros (h & -> & Hin). exists h. split; [by apply list_elem_of_In|].
    by apply has_name_spec.
Qed.

Lemma one_row_per_name n l :
  NoDup (map name l) -> existsb (has_name n) l = true ->
  length (List.filter (has_name n) l) = 1%nat.
Proof.
  induction l as [|h l IH]; simpl; [discriminate|].
  rewrite NoDup_cons. intros [Hnotin Hnd] Hex.
  destruct (has_name n h) eqn:Hh; simpl.
  - apply has_name_spec in Hh. subst n.
    rewrite filter_none; [reflexivity|].
    destruct (existsb (has_name (name h)) l) eqn:E; [|reflexivity].
    apply existsb_has_name in E. contradiction.
  - simpl in Hex. by apply IH.
Qed.

Lemma insert_or_ignore_known d n a lat lon p :
  existsb (has_name n) (hospitals d) = true ->
  insert_or_ignore d n a lat lon p = skip_rowid d.
Proof. unfold insert_or_ignore. by intros ->. Qed.

Lemma register_known d n a lat lon p i :
  select_id d n = Some i -> register_hospital d n a lat lon p = (Some i, skip_rowid d).
Proof.
  intros Hsel. unfold register_hospital.
  rewrite insert_or_ignore_known;
    [change (select_id (skip_rowid d) n) with (select_id d n); by rewrite Hsel|].
  unfold select_id in Hsel.
  destruct (existsb (has_name n) (hospitals d)) eqn:E; [reflexivity|].
  apply find_none_existsb in E. by rewrite E in Hsel.
Qed.

Lemma register_new d n a lat lon p :
  select_id d n = None ->
  register_hospital d n a lat lon p =
  (Some (hospitals_seq d + 1),
   mkDb (hospitals d ++ [mkHospital (hospitals_seq d + 1) n a lat lon p 2.5%Q 0 0 0%Q])
        (hospitals_seq d + 1) (case_history d) (rating_history d)).
Proof.
  intros Hsel. unfold select_id in Hsel.
  destruct (List.find (has_name n) (hospitals d)) eqn:Hfind; [discriminate|].
  unfold register_hospital, insert_or_ignore.
  pose proof Hfind as E. apply find_none_existsb in E. rewrite E.
  unfold select_id. simpl. rewrite find_snoc, Hfind.
  unfold has_name at 1. simpl. by rewrite String.eqb_refl.
Qed.

Lemma names_after_register d n a lat lon p :
  NoDup (map name (hospitals d)) ->
  NoDup (map name (hospitals (register_hospital d n a lat lon p).2)).
Proof.
  intros Hnd. unfold register_hospital, insert_or_ignore. simpl.
  destruct (existsb (has_name n) (hospitals d)) eqn:E; [done|]. simpl.
  rewrite map_app. simpl. apply NoDup_app. split; [done|]. split.
  - intros x Hx Hx'. apply list_elem_of_singleton in Hx'. subst x.
    apply existsb_has_name in Hx. congruence.
  - apply NoDup_singleton.
Qed.

(** C6. [register_hospital] is idempotent: a second call with the same
    name returns the id of the first and writes no row (the ignored insert
    only uses up a rowid of the AUTOINCREMENT counter), the store then
    holds exactly one row of that name; a first call for an unknown name
    creates the row with rating 2.5 and all counters zero, and a call for
    a known name returns the existing id and leaves every table as it
    was. *)
Theorem register_hospital_idempotent
    (d : db) (n a a' : string) (lat lon lat' lon' : option Q) (p p' : string) :
  NoDup (map name (hospitals d)) ->
  let first := register_hospital d n a lat lon p in
  let second := register_hospital first.2 n a' lat' lon' p' in
  is_Some first.1
  /\ second.1 = first.1
  /\ second.2 = skip_rowid first.2
  /\ hospitals second.2 = hospitals first.2
  /\ case_history second.2 = case_history first.2
  /\ rating_history second.2 = rating_history first.2
  /\ length (List.filter (has_name n) (hospitals first.2)) = 1%nat
  /\ length (List.filter (has_name n) (hospitals second.2)) = 1%nat
  /\ (select_id d n = None ->
      first.1 = Some (hospitals_seq d + 1)
      /\ List.find (has_name n) (hospitals first.2)
         = Some (mkHospital (hospitals_seq d + 1) n a lat lon p 2.5%Q 0 0 0%Q))
  /\ (forall i, select_id d n = Some i -> first = (Some i, skip_rowid d)).
Proof.
  intros Hnd first second.
  assert (Hsel : exists i, select_id first.2 n = Some i /\ first.1 = Some i).
  { subst first. destruct (select_id d n) as [i|] eqn:Hsel.
    - rewrite (register_known _ _ _ _ _ _ _ Hsel). simpl. eauto.
    - rewrite (register_new _ _ _ _ _ _ Hsel). simpl. eexists. split; [|reflexivity].
      unfold select_id in *. simpl. rewrite find_snoc.
      destruct (List.find (has_name n) (hospitals d)); [discriminate|].
      unfold has_name at 1. simpl. by rewrite String.eqb_refl. }
  destruct Hsel as (i & Hsel & Hfirst).
  assert (Hsecond : second = (Some i, skip_rowid first.2))
    by (subst second; by apply register_known).
  assert (Hone : length (List.filter (has_name n) (hospitals first.2)) = 1%nat).
  { apply one_row_per_name; [by apply names_after_register|].
    unfold select_id in Hsel.
    destruct (existsb (has_name n) (hospitals first.2)) eqn:E; [reflexivity|].
    apply find_none_existsb in E. by rewrite E in Hsel. }
  split; [rewrite Hfirst; by eexists|].
  split; [by rewrite Hsecond, Hfirst|].
  split; [by rewrite Hsecond|].
  split; [by rewrite Hsecond|].
  split; [by rewrite Hsecond|].
  split; [by rewrite Hsecond|].
  split; [exact Hone|].
  split; [by rewrite Hsecond|].
  split.
  - intros H. split.
    + subst first. by rewrite (register_new _ _ _ _ _ _ H).
    + subst first. rewrite (register_new _ _ _ _ _ _ H). simpl.
      rewrite find_snoc. unfold select_id in H.
      destruct (List.find (has_name n) (hospitals d)); [discriminate|].
      unfold has_name at 1. simpl. by rewrite String.eqb_refl.
  - intros j Hj. subst first. by apply register_known.
Qed.

Lemma register_hospital_idempotent_witness :
  let first := register_hospital init_database "Apollo" "" None None "" in
  let second := register_hospital first.2 "Apollo" "Greams Road" None None "" in
  second.1 = first.1
  /\ hospitals second.2 = hospitals first.2
  /\ length (List.filter (has_name "Apollo") (hospitals second.2)) = 1%nat.
Proof.
  destruct (register_hospital_idempotent init_database "Apollo" "" "Greams Road"
              None None None None "" "")
    as (_ & Hid & _ & Hrows & _ & _ & _ & Hone & _).
  - simpl. apply NoDup_nil_2.
  - split; [exact Hid|]. split; [exact Hrows | exact Hone].
Defined.

(** *** Zero averages *)

Lemma sum_of_zeros (xs : list Q) :
  Forall (fun x => x == 0)%Q xs -> (foldr Qplus 0 xs == 0)%Q.
Proof.
  induction 1 as [|x xs Hx _ IH]; simpl; [reflexivity|].
  rewrite Hx, IH. reflexivity.
Qed.

Lemma if_truthy_else_zero (v : option Q) (dflt : Q) :
  (forall x, v = Some x -> (x == 0)%Q) -> if_truthy_else v dflt = dflt.
Proof.
  intros Hz. destruct v as [x|]; simpl; [|reflexivity].
  destruct (Qeq_bool x 0) eqn:E; [reflexivity|].
  apply Qeq_bool_neq in E. destruct E. by apply Hz.
Qed.

Lemma sql_avg_zeros (xs : list Q) (a : Q) :
  Forall (fun x => x == 0)%Q xs -> sql_avg xs = Some a -> (a == 0)%Q.
Proof.
  intros Hz. destruct xs as [|x xs]; [discriminate|].
  unfold sql_avg. intros [= <-].
  rewrite (sum_of_zeros _ Hz). unfold Qdiv. apply Qmult_0_l.
Qed.

Lemma find_update (P : hospital -> bool) (i : Z) (upd : hospital -> hospital)
    (l : list hospital) :
  (forall h, P (upd h) = P h) ->
  List.find P (map (fun h => if has_id i h then upd h else h) l)
  = (fun h => if has_id i h then upd h else h) <$> List.find P l.
Proof.
  intros HP. induction l as [|y l IH]; simpl; [reflexivity|].
  replace (P (if has_id i y then upd y else y)) with (P y)
    by (destruct (has_id i y); [by rewrite HP | reflexivity]).
  destruct (P y); [reflexivity | exact IH].
Qed.

Lemma performance_of_update (i : Z) (upd : hospital -> hospital) (d : db) (h : hospital) :
  performance_of (update_where_id i upd d) h = performance_of d h.
Proof. reflexivity. Qed.

Lemma update_rating_unfold (f : faults) (i : Z) (d : db) (h : hospital) :
  List.find (has_id i) (hospitals d) = Some h ->
  _update_hospital_rating f i d =
  if f SelectStatistics then None
  else if f SelectAverages then None
  else if f UpdateRating then None
  else
    let p := performance_of d h in
    let new := HospitalPerformance.calculate_new_rating p in
    let d1 := update_where_id i (set_rating new) d in
    if significant_change new (current_rating h) then
      if f InsertRatingHistory then None
      else Some (insert_rating_history
                   (mkRatingChange i (current_rating h) new
                      (UpdatedBasedOn (total_cases h) (successful_outcomes h)
                         (HospitalPerformance.quality_score p)
                         (HospitalPerformance.average_response_time_minutes p)))
                   d1)
    else Some d1.
Proof.
  intros Hfind. unfold _update_hospital_rating, exec.
  destruct (f SelectStatistics); [reflexivity|]. simpl. rewrite Hfind.
  destruct (f SelectAverages); [reflexivity|]. simpl.
  destruct (f UpdateRating); [reflexivity|]. simpl.
  reflexivity.
Qed.

(** C10. The recomputation replaces a zero average by a default: a mean
    quality of zero counts as 50, a mean response time of zero as 60
    minutes; so a facility whose records all have response time zero is
    rated with an average response time of 60 minutes, and that is the
    rating [_update_hospital_rating] stores. *)
Theorem zero_average_replaced_by_default (f : faults) (d d' : db) (h : hospital) (a : Q) :
  let p := performance_of d h in
  (sql_avg (map quality_score (cases_of d (id h))) = Some a -> (a == 0)%Q ->
     HospitalPerformance.quality_score p = 50.0%Q)
  /\ (sql_avg (map response_time_minutes (cases_of d (id h))) = Some a -> (a == 0)%Q ->
     HospitalPerformance.average_response_time_minutes p = 60.0%Q)
  /\ (Forall (fun c => response_time_minutes c == 0)%Q (cases_of d (id h)) ->
     HospitalPerformance.average_response_time_minutes p = 60.0%Q
     /\ (List.find (has_id (id h)) (hospitals d) = Some h ->
         _update_hospital_rating f (id h) d = Some d' ->
         current_rating <$> List.find (has_id (id h)) (hospitals d')
         = Some (HospitalPerformance.calculate_new_rating
                   (HospitalPerformance.mk (name h) (total_cases h) (successful_outcomes h)
                      60.0%Q (HospitalPerformance.quality_score p)
                      (HospitalPerformance.current_rating p))))).
Proof.
  intros p. split; [|split].
  - intros Hs Ha. subst p. unfold performance_of. simpl. rewrite Hs. simpl.
    apply Qeq_bool_iff in Ha. by rewrite Ha.
  - intros Hs Ha. subst p. unfold performance_of. simpl. rewrite Hs. simpl.
    apply Qeq_bool_iff in Ha. by rewrite Ha.
  - intros Hz.
    assert (Hr : HospitalPerformance.average_response_time_minutes p = 60.0%Q).
    { subst p. unfold performance_of. simpl. apply if_truthy_else_zero.
      intros x Hx. eapply sql_avg_zeros; [|exact Hx].
      apply Forall_fmap. exact Hz. }
    split; [exact Hr|].
    intros Hfind Hupd. rewrite (update_rating_unfold _ _ _ _ Hfind) in Hupd.
    fold p in Hupd.
    assert (Hrow : current_rating <$> List.find (has_id (id h))
              (hospitals (update_where_id (id h)
                 (set_rating (HospitalPerformance.calculate_new_rating p)) d))
            = Some (HospitalPerformance.calculate_new_rating p)).
    { simpl. rewrite find_update by reflexivity. rewrite Hfind. simpl.
      unfold has_id. by rewrite Z.eqb_refl. }
    assert (Hp : p = HospitalPerformance.mk (name h) (total_cases h) (successful_outcomes h)
                   60.0%Q (HospitalPerformance.quality_score p)
                   (HospitalPerformance.current_rating p)).
    { rewrite <- Hr. subst p. reflexivity. }
    rewrite <- Hp.
    destruct (f SelectStatistics); [discriminate|].
    destruct (f SelectAverages); [discriminate|].
    destruct (f UpdateRating); [discriminate|].
    cbv zeta in Hupd.
    destruct (significant_change _ _).
    + destruct (f InsertRatingHistory); [discriminate|].
      injection Hupd as <-. exact Hrow.
    + injection Hupd as <-. exact Hrow.
Qed.

Lemma zero_average_replaced_by_default_witness :
  HospitalPerformance.average_response_time_minutes
    (performance_of perfect_outcome.2 perfect_row) = 60.0%Q.
Proof.
  refine (proj1 (proj2 (proj2
    (zero_average_replaced_by_default no_faults perfect_outcome.2 perfect_outcome.2
       perfect_row 0)) _)).
  vm_compute. constructor; [reflexivity | constructor].
Defined.

(** C2. A facility without cases is rated 2.5.  After one successful
    outcome with quality 100 and response time 0 the recomputation sees
    success rate 1 and average quality 100, but a response score of 50
    (not 100) and an overall score of 0.875 (not 1.0): the stored rating is
    4.5, not 5.0. *)
Theorem perfect_outcome_rated_four_and_a_half :
  map current_rating (hospitals registered_once) = [2.5%Q]
  /\ HospitalPerformance.calculate_new_rating
       (HospitalPerformance.mk "Apollo" 0 0 60.0 50.0 2.5) = 2.5%Q
  /\ perfect_outcome.1 = true
  /\ hospitals perfect_outcome.2 = [perfect_row]
  /\ (let p := performance_of perfect_outcome.2 perfect_row in
      HospitalPerformance.success_rate p == 1
      /\ HospitalPerformance.quality_score p == 100
      /\ HospitalPerformance.average_response_time_minutes p == 60
      /\ HospitalPerformance.response_score p == 50
      /\ HospitalPerformance.overall_score p == 0.875
      /\ current_rating perfect_row == 4.5
      /\ ~ current_rating perfect_row == 5)%Q.
Proof.
  split; [reflexivity|]. split; [reflexivity|]. split; [reflexivity|].
  split; [vm_compute; reflexivity|].
  cbv zeta. repeat split; try (vm_compute; reflexivity).
  vm_compute. discriminate.
Qed.

(** *** Lookup-or-register *)

Lemma find_in (P : hospital -> bool) (l : list hospital) (h : hospital) :
  List.find P l = Some h -> h ∈ l /\ P h = true.
Proof.
  intros H. apply find_some in H. destruct H as [Hin HP].
  split; [by apply list_elem_of_In | exact HP].
Qed.

Lemma find_by_id (l : list hospital) (h : hospital) :
  NoDup (map id l) -> h ∈ l -> List.find (has_id (id h)) l = Some h.
Proof.
  induction l as [|y l IH]; simpl.
  - intros _ Hin. by apply not_elem_of_nil in Hin.
  - rewrite NoDup_cons. intros [Hy Hnd] Hin.
    apply elem_of_cons in Hin. destruct Hin as [->|Hin].
    + unfold has_id. by rewrite Z.eqb_refl.
    + unfold has_id at 1. destruct (Z.eqb_spec (id y) (id h)) as [E|_].
      * destruct Hy. rewrite E. apply list_elem_of_fmap. eauto.
      * by apply IH.
Qed.

Lemma half_star_default : half_star 2.5.
Proof. exists 5. split; [lia | reflexivity]. Qed.

Lemma schema_ok_init : schema_ok init_database.
Proof. split; simpl; try constructor; lia. Qed.

Lemma well_formed_init : well_formed init_database.
Proof. split; [exact schema_ok_init | constructor..]. Qed.

Lemma schema_ok_register d n a lat lon p :
  schema_ok d -> schema_ok (register_hospital d n a lat lon p).2.
Proof.
  intros [Hseq Hids Hidu Hnames].
  pose proof (names_after_register d n a lat lon p Hnames) as Hnames'.
  unfold register_hospital, insert_or_ignore in *. simpl in *.
  destruct (existsb (has_name n) (hospitals d)).
  { split; simpl; [lia| |done..].
    eapply Forall_impl; [exact Hids|]. simpl. intros; lia. }
  simpl in *. split; simpl.
  - lia.
  - apply Forall_app. split.
    + eapply Forall_impl; [exact Hids|]. simpl. intros; lia.
    + repeat constructor; simpl; lia.
  - rewrite map_app. simpl. apply NoDup_app. split; [done|]. split.
    + intros x Hx Hx'. apply list_elem_of_singleton in Hx'. subst x.
      apply list_elem_of_fmap in Hx. destruct Hx as (h & Hh & Hin).
      rewrite Forall_forall in Hids. specialize (Hids h Hin). lia.
    + apply NoDup_singleton.
  - exact Hnames'.
Qed.

Lemma well_formed_register d n a lat lon p :
  well_formed d -> well_formed (register_hospital d n a lat lon p).2.
Proof.
  intros [Hschema Hcnt Hrat Hcases].
  pose proof (schema_ok_register d n a lat lon p Hschema) as Hschema'.
  split; [exact Hschema'|..]; clear Hschema Hschema';
    unfold register_hospital, insert_or_ignore; simpl;
    destruct (existsb (has_name n) (hospitals d)); simpl; try done.
  - apply Forall_app. split; [done|]. repeat constructor; simpl; lia.
  - apply Forall_app. split; [done|]. repeat constructor. apply half_star_default.
Qed.

Lemma ensure_registered_state d n :
  (ensure_registered d n).2 = d
  \/ (ensure_registered d n).2 = (register_hospital d n "" None None "").2.
Proof.
  unfold ensure_registered. destruct (truthy_id (get_hospital_id d n)); [by left | by right].
Qed.

Lemma well_formed_ensure_registered d n :
  well_formed d -> well_formed (ensure_registered d n).2.
Proof.
  intros Hwf. destruct (ensure_registered_state d n) as [-> | ->]; [exact Hwf|].
  by apply well_formed_register.
Qed.

Lemma ensure_registered_spec d n :
  schema_ok d ->
  exists h0,
    ensure_registered d n = (Some (id h0), (ensure_registered d n).2)
    /\ truthy_id (Some (id h0)) = true
    /\ List.find (has_name n) (hospitals (ensure_registered d n).2) = Some h0
    /\ List.find (has_id (id h0)) (hospitals (ensure_registered d n).2) = Some h0
    /\ (is_Some (select_id d n) -> (ensure_registered d n).2 = d).
Proof.
  intros Hok. unfold ensure_registered, get_hospital_id.
  destruct (select_id d n) as [i|] eqn:Hsel.
  - unfold select_id in Hsel.
    destruct (List.find (has_name n) (hospitals d)) as [h0|] eqn:Hfind; [|discriminate].
    injection Hsel as <-. apply find_in in Hfind as Hin. destruct Hin as [Hin _].
    assert (Hpos : 0 < id h0).
    { pose proof (ok_ids _ Hok) as Hids. rewrite Forall_forall in Hids.
      specialize (Hids h0 Hin). lia. }
    assert (Ht : truthy_id (Some (id h0)) = true).
    { simpl. destruct (Z.eqb_spec (id h0) 0); [lia | reflexivity]. }
    rewrite Ht. simpl. exists h0.
    split; [reflexivity|]. split; [exact Ht|]. split; [exact Hfind|].
    split; [apply find_by_id; [apply (ok_ids_unique _ Hok) | exact Hin]|].
    reflexivity.
  - rewrite !(register_new _ _ _ _ _ _ Hsel). simpl.
    pose proof (schema_ok_register d n "" None None "" Hok) as Hok'.
    rewrite (register_new _ _ _ _ _ _ Hsel) in Hok'. simpl in Hok'.
    exists (mkHospital (hospitals_seq d + 1) n "" None None "" 2.5%Q 0 0 0%Q).
    split; [reflexivity|]. split.
    { simpl. pose proof (ok_seq _ Hok).
      destruct (Z.eqb_spec (hospitals_seq d + 1) 0); [lia | reflexivity]. }
    split.
    { rewrite find_snoc. unfold select_id in Hsel.
      destruct (List.find (has_name n) (hospitals d)); [discriminate|].
      unfold has_name at 1. simpl. rewrite String.eqb_refl. reflexivity. }
    split.
    { apply (find_by_id _ _ (ok_ids_unique _ Hok')).
      apply elem_of_app. right. by apply list_elem_of_singleton. }
    intros [? ?]. discriminate.
Qed.

(** *** The rating stays on the half-star grid *)

Lemma response_score_bounds (p : HospitalPerformance.t) :
  (0 <= HospitalPerformance.response_score p <= 100)%Q.
Proof.
  unfold HospitalPerformance.response_score. split.
  - apply Q.le_max_l.
  - apply Q.max_lub; [lra | apply Q.le_min_l].
Qed.

Lemma success_rate_bounds (p : HospitalPerformance.t) :
  0 <= HospitalPerformance.successful_outcomes p <= HospitalPerformance.total_cases p ->
  HospitalPerformance.total_cases p <> 0 ->
  (0 <= HospitalPerformance.success_rate p <= 1)%Q.
Proof.
  intros [Hs Ht] Hne. unfold HospitalPerformance.success_rate.
  assert (Hpos : (0 < inject_Z (HospitalPerformance.total_cases p))%Q).
  { change 0%Q with (inject_Z 0). rewrite <- Zlt_Qlt. lia. }
  split.
  - apply Qle_shift_div_l; [exact Hpos|]. rewrite Qmult_0_l.
    change 0%Q with (inject_Z 0). rewrite <- Zle_Qle. exact Hs.
  - apply Qle_shift_div_r; [exact Hpos|]. rewrite Qmult_1_l.
    rewrite <- Zle_Qle. exact Ht.
Qed.

Lemma calculate_new_rating_half_star (p : HospitalPerformance.t) :
  0 <= HospitalPerformance.successful_outcomes p <= HospitalPerformance.total_cases p ->
  (0 <= HospitalPerformance.quality_score p <= 100)%Q ->
  half_star (HospitalPerformance.calculate_new_rating p).
Proof.
  intros Hcnt Hq. unfold HospitalPerformance.calculate_new_rating.
  destruct (Z.eqb_spec (HospitalPerformance.total_cases p) 0) as [_|Hne].
  - apply half_star_default.
  - pose proof (success_rate_bounds p Hcnt Hne) as Hs.
    pose proof (response_score_bounds p) as Hr.
    exists (py_round (HospitalPerformance.overall_score p * 5 * 2)). split.
    + apply py_round_bounds. unfold HospitalPerformance.overall_score.
      change (inject_Z 0) with 0%Q. change (inject_Z 10) with 10%Q.
      set (a := HospitalPerformance.success_rate p) in *.
      set (b := HospitalPerformance.quality_score p) in *.
      set (c := HospitalPerformance.response_score p) in *.
      clearbody a b c. unfold Qdiv. change (/ 100)%Q with (1 # 100)%Q. lra.
    + cbv zeta. unfold Qdiv, Qeq. simpl. lia.
Qed.

(** *** The transaction of [record_case_outcome] *)

Lemma record_transaction_unfold (f : faults) (d0 : db) (h0 : hospital)
    (acc outcome : string) (q m : Q) (notes : string) :
  List.find (has_id (id h0)) (hospitals d0) = Some h0 ->
  let c := mkCase (id h0) acc outcome q m notes in
  record_transaction f (id h0) acc outcome q m notes d0
  = if raises f d0 h0 c then None else Some (committed d0 h0 c).
Proof.
  intros Hfind c. unfold record_transaction, raises, exec.
  destruct (f InsertCase); [reflexivity|]. simpl.
  destruct (f UpdateStatistics); [reflexivity|]. simpl.
  rewrite (update_rating_unfold f (id h0) _ (add_outcome c h0)).
  2:{ simpl. rewrite find_update by reflexivity. rewrite Hfind. simpl.
      unfold has_id. by rewrite Z.eqb_refl. }
  destruct (f SelectStatistics); [reflexivity|].
  destruct (f SelectAverages); [reflexivity|].
  destruct (f UpdateRating); [reflexivity|].
  unfold committed, recomputed_rating, add_outcome. subst c. cbv zeta.
  cbn [patient_outcome response_time_minutes current_rating add_statistics].
  rewrite !performance_of_update.
  destruct (significant_change _ _); simpl.
  - destruct (f InsertRatingHistory); [reflexivity|]. simpl.
    destruct (f Commit); reflexivity.
  - destruct (f Commit); reflexivity.
Qed.

Lemma committed_case_history d0 h0 c :
  case_history (committed d0 h0 c) = case_history d0 ++ [c].
Proof. unfold committed. cbv zeta. by destruct (significant_change _ _). Qed.

Lemma committed_seq d0 h0 c : hospitals_seq (committed d0 h0 c) = hospitals_seq d0.
Proof. unfold committed. cbv zeta. by destruct (significant_change _ _). Qed.

Lemma committed_hospitals d0 h0 c :
  hospitals (committed d0 h0 c)
  = map (fun h => if has_id (id h0) h
                  then set_rating (recomputed_rating d0 h0 c) (add_outcome c h) else h)
        (hospitals d0).
Proof.
  unfold committed. cbv zeta.
  transitivity (hospitals (update_where_id (id h0) (set_rating (recomputed_rating d0 h0 c))
                  (update_where_id (id h0) (add_outcome c) (insert_case c d0)))).
  { by destruct (significant_change _ _). }
  simpl. rewrite map_map. apply map_ext. intros h.
  destruct (has_id (id h0) h) eqn:E.
  - change (has_id (id h0) (add_outcome c h)) with (has_id (id h0) h). by rewrite E.
  - by rewrite E.
Qed.

Lemma recomputed_rating_half_star d0 h0 c :
  well_formed d0 -> h0 ∈ hospitals d0 ->
  (0 <= quality_score c <= 100)%Q -> (0 <= response_time_minutes c)%Q ->
  half_star (recomputed_rating d0 h0 c).
Proof.
  intros Hwf Hin Hq Hm. unfold recomputed_rating.
  apply calculate_new_rating_half_star.
  - simpl. pose proof (wf_counters _ Hwf) as Hc. rewrite Forall_forall in Hc.
    specialize (Hc h0 Hin). destruct (String.eqb _ _); lia.
  - simpl. apply if_truthy_else_bounds; [lra|].
    intros a. apply sql_avg_bounds. apply Forall_fmap.
    unfold cases_of. apply Forall_forall. intros x Hx.
    apply list_elem_of_In, filter_In in Hx. destruct Hx as [Hx _]. simpl in Hx.
    apply in_app_or in Hx. destruct Hx as [Hx|[<-|[]]]; [|exact Hq].
    pose proof (wf_cases _ Hwf) as Hc. rewrite Forall_forall in Hc.
    apply list_elem_of_In in Hx. by apply Hc.
Qed.

Lemma well_formed_committed d0 h0 c :
  well_formed d0 -> h0 ∈ hospitals d0 ->
  (0 <= quality_score c <= 100)%Q -> (0 <= response_time_minutes c)%Q ->
  well_formed (committed d0 h0 c).
Proof.
  intros Hwf Hin Hq Hm.
  pose proof (recomputed_rating_half_star d0 h0 c Hwf Hin Hq Hm) as Hnew.
  destruct Hwf as [[Hseq Hids Hidu Hnames] Hcnt Hrat Hcases].
  split; [split|..];
    rewrite ?committed_seq, ?committed_hospitals, ?committed_case_history.
  - exact Hseq.
  - apply Forall_fmap. eapply Forall_impl; [exact Hids|].
    intros h Hh. simpl. by destruct (has_id (id h0) h).
  - rewrite map_map. erewrite map_ext; [exact Hidu|].
    intros h. by destruct (has_id (id h0) h).
  - rewrite map_map. erewrite map_ext; [exact Hnames|].
    intros h. by destruct (has_id (id h0) h).
  - apply Forall_fmap. eapply Forall_impl; [exact Hcnt|].
    intros h Hh. simpl in *. destruct (has_id (id h0) h); [|exact Hh].
    unfold add_outcome. simpl. destruct (String.eqb _ _); lia.
  - apply Forall_fmap. eapply Forall_impl; [exact Hrat|].
    intros h Hh. simpl. destruct (has_id (id h0) h); [exact Hnew | exact Hh].
  - apply Forall_app. split; [exact Hcases|].
    constructor; [by split | constructor].
Qed.

(** What one call does to the store, under any fault plan. *)
Lemma record_case_outcome_unfold f d n acc outcome q m notes :
  schema_ok d ->
  exists h0,
    let d0 := (ensure_registered d n).2 in
    let c := mkCase (id h0) acc outcome q m notes in
    List.find (has_name n) (hospitals d0) = Some h0
    /\ List.find (has_id (id h0)) (hospitals d0) = Some h0
    /\ (is_Some (select_id d n) -> d0 = d)
    /\ record_case_outcome f d n acc outcome q m notes
       = if raises f d0 h0 c then (false, d0) else (true, committed d0 h0 c).
Proof.
  intros Hwf.
  destruct (ensure_registered_spec d n Hwf) as (h0 & Hens & Ht & Hname & Hid & Hsame).
  exists h0. cbv zeta. repeat (split; [assumption|]).
  unfold record_case_outcome. rewrite Hens. rewrite Ht.
  rewrite (record_transaction_unfold f _ h0 acc outcome q m notes Hid).
  cbv zeta. by destruct (raises _ _ _ _).
Qed.

(** C5, as stated, fails for a facility that is not registered yet: when
    the commit of the transaction fails on a fresh store, the call returns
    false, but the row that the lookup-or-register step inserted for
    "Apollo" stays, so the stored state is not what it was before the
    call. *)
Lemma failed_outcome_keeps_registration :
  let r :=
    record_case_outcome commit_fails init_database "Apollo" "case-1" "successful" 100 0 "" in
  r.1 = false
  /\ get_hospital_rating init_database "Apollo" = None
  /\ hospitals init_database = []
  /\ hospitals r.2 = [mkHospital 1 "Apollo" "" None None "" 2.5%Q 0 0 0%Q]
  /\ case_history r.2 = [].
Proof.
  split; [vm_compute; reflexivity|]. split; [vm_compute; reflexivity|].
  split; [reflexivity|]. split; vm_compute; reflexivity.
Qed.

(** C5 (amended). [record_case_outcome] first looks the facility up and
    registers it when it is unknown; that step commits on its own, before
    the transaction starts: it leaves the store alone for a known facility
    and appends the fresh row (rating 2.5, counters zero) otherwise.  Of
    the transaction that follows, a call that returns true has appended
    exactly one case record, raised [total_cases] by one, raised
    [successful_outcomes] by one exactly for outcome "successful", added
    the response time to the cumulative total and stored the recomputed
    rating; a call that returns false has rolled the transaction back and
    leaves the store as the lookup-or-register step left it.  Without
    faults the call returns true; with a fault in any statement that the
    transaction runs it returns false. *)
Theorem record_case_outcome_atomic (f : faults) (d : db) (n acc outcome : string)
    (q m : Q) (notes : string) :
  schema_ok d ->
  let d0 := (ensure_registered d n).2 in
  let r := record_case_outcome f d n acc outcome q m notes in
  exists h0,
    let c := mkCase (id h0) acc outcome q m notes in
    List.find (has_name n) (hospitals d0) = Some h0
    /\ (is_Some (select_id d n) -> d0 = d)
    /\ (select_id d n = None ->
        hospitals d0
        = hospitals d ++ [mkHospital (hospitals_seq d + 1) n "" None None "" 2.5%Q 0 0 0%Q]
        /\ case_history d0 = case_history d
        /\ rating_history d0 = rating_history d)
    /\ (r.1 = true ->
        case_history r.2 = case_history d0 ++ [c]
        /\ exists h1,
             List.find (has_name n) (hospitals r.2) = Some h1
             /\ total_cases h1 = total_cases h0 + 1
             /\ successful_outcomes h1
                = successful_outcomes h0
                  + (if String.eqb outcome "successful" then 1 else 0)
             /\ total_response_time_minutes h1 = (total_response_time_minutes h0 + m)%Q
             /\ current_rating h1
                = HospitalPerformance.calculate_new_rating (performance_of r.2 h1))
    /\ (r.1 = false -> r.2 = d0)
    /\ ((forall s, f s = false) -> r.1 = true)
    /\ (f InsertCase = true \/ f UpdateStatistics = true \/ f SelectStatistics = true
        \/ f SelectAverages = true \/ f UpdateRating = true \/ f Commit = true ->
        r.1 = false)
    /\ (f InsertRatingHistory = true ->
        significant_change (recomputed_rating d0 h0 c) (current_rating h0) = true ->
        r.1 = false).
Proof.
  intros Hwf d0 r.
  destruct (record_case_outcome_unfold f d n acc outcome q m notes Hwf)
    as (h0 & Hname & Hid & Hsame & Hr).
  fold d0 in Hname, Hid, Hsame, Hr. fold r in Hr.
  exists h0. cbv zeta. set (c := mkCase (id h0) acc outcome q m notes) in *.
  split; [exact Hname|]. split; [exact Hsame|].
  split.
  { intros Hnone. subst d0. unfold ensure_registered, get_hospital_id.
    rewrite Hnone. simpl truthy_id. cbv iota.
    by rewrite (register_new _ _ _ _ _ _ Hnone). }
  split; [|split; [|split; [|split]]].
  - intros Htrue. rewrite Hr in Htrue |- *.
    destruct (raises f d0 h0 c); [discriminate|]. simpl.
    split; [apply committed_case_history|].
    exists (set_rating (recomputed_rating d0 h0 c) (add_outcome c h0)).
    split.
    { rewrite committed_hospitals.
      rewrite (find_update (has_name n) (id h0)
                 (fun h => set_rating (recomputed_rating d0 h0 c) (add_outcome c h)))
        by reflexivity.
      rewrite Hname. simpl. unfold has_id. by rewrite Z.eqb_refl. }
    split; [reflexivity|]. split; [reflexivity|]. split; [reflexivity|].
    unfold HospitalPerformance.calculate_new_rating, HospitalPerformance.overall_score,
      HospitalPerformance.success_rate, HospitalPerformance.response_score,
      performance_of, cases_of.
    rewrite committed_case_history. reflexivity.
  - intros Hfalse. rewrite Hr in Hfalse |- *.
    by destruct (raises f d0 h0 c).
  - intros Hnone. rewrite Hr. unfold raises. rewrite !Hnone.
    rewrite andb_false_r. reflexivity.
  - intros Hsome. rewrite Hr. unfold raises.
    destruct Hsome as [H|[H|[H|[H|[H|H]]]]]; rewrite H;
      rewrite ?orb_true_r; reflexivity.
  - intros Hins Hsig. rewrite Hr. unfold raises. rewrite Hins, Hsig.
    simpl. rewrite ?orb_true_r. reflexivity.
Qed.

Lemma record_case_outcome_atomic_witness :
  schema_ok init_database
  /\ record_case_outcome commit_fails init_database "Apollo" "case-1" "successful" 100 0 ""
     = (false, (ensure_registered init_database "Apollo").2).
Proof.
  split; [exact schema_ok_init|].
  destruct (record_case_outcome_atomic commit_fails init_database "Apollo" "case-1"
              "successful" 100 0 "" schema_ok_init)
    as (h0 & _ & _ & _ & _ & Hfalse & _ & Hfault & _).
  assert (Hr : (record_case_outcome commit_fails init_database "Apollo" "case-1"
                  "successful" 100 0 "").1 = false).
  { apply Hfault. do 5 right. reflexivity. }
  specialize (Hfalse Hr). rewrite <- Hfalse, <- Hr.
  by destruct (record_case_outcome _ _ _ _ _ _ _ _).
Defined.

(** *** Sequences of calls *)

Lemma well_formed_run_call (d : db) (c : call) :
  well_formed d -> valid_call c -> well_formed (run_call d c).
Proof.
  intros Hwf [Hq Hm]. unfold run_call.
  pose proof (well_formed_ensure_registered d (call_hospital_name c) Hwf) as Hwf0.
  destruct (record_case_outcome_unfold (call_faults c) d (call_hospital_name c)
              (call_accident_id c) (call_patient_outcome c) (call_quality_score c)
              (call_response_time_minutes c) (call_treatment_notes c) (wf_schema _ Hwf))
    as (h0 & Hname & _ & _ & ->).
  destruct (raises _ _ _ _); simpl; [exact Hwf0|].
  apply well_formed_committed; try done.
  by apply find_in in Hname as [? _].
Qed.

Lemma well_formed_run_calls (cs : list call) (d : db) :
  well_formed d -> Forall valid_call cs -> well_formed (run_calls d cs).
Proof.
  revert d. induction cs as [|c cs IH]; intros d Hwf Hv; [exact Hwf|].
  apply Forall_cons in Hv. destruct Hv as [Hc Hcs].
  simpl. apply IH; [|exact Hcs]. by apply well_formed_run_call.
Qed.

(** C4. After any finite sequence of [record_case_outcome] calls with
    quality in [0,100] and non-negative response time, whatever faults
    strike, every facility's rating is one of 0, 0.5, ..., 5.0. *)
Theorem rating_on_half_star_grid (cs : list call) (h : hospital) :
  Forall valid_call cs ->
  h ∈ hospitals (run_calls init_database cs) ->
  half_star (current_rating h).
Proof.
  intros Hv Hin.
  pose proof (well_formed_run_calls cs init_database well_formed_init Hv) as Hwf.
  pose proof (wf_ratings _ Hwf) as Hr. rewrite Forall_forall in Hr. by apply Hr.
Qed.

Lemma rating_on_half_star_grid_witness : half_star (current_rating perfect_row).
Proof.
  apply (rating_on_half_star_grid [perfect_call] perfect_row).
  - constructor; [|constructor]. split; [split|]; vm_compute; discriminate.
  - replace (hospitals (run_calls init_database [perfect_call])) with [perfect_row]
      by (vm_compute; reflexivity).
    apply list_elem_of_here.
Defined.

(** *** Top hospitals *)

Lemma top_order_spec (a b : hospital) : top_order a b = true <-> ranks_before a b.
Proof.
  unfold top_order, ranks_before.
  destruct (Qcompare_spec (current_rating a) (current_rating b)) as [E|E|E].
  - rewrite Z.leb_le. split.
    + intros H. right. by split.
    + intros [H|[_ H]]; [|exact H]. rewrite E in H. by apply Qlt_irrefl in H.
  - split; [discriminate|]. intros [H|[H _]].
    + exfalso. apply (Qlt_irrefl (current_rating a)). by transitivity (current_rating b).
    + rewrite H in E. by apply Qlt_irrefl in E.
  - split; [|reflexivity]. intros _. by left.
Qed.

Lemma top_order_total (a b : hospital) : top_order a b = true \/ top_order b a = true.
Proof.
  rewrite !top_order_spec. unfold ranks_before.
  destruct (Qcompare_spec (current_rating a) (current_rating b)) as [E|E|E].
  - destruct (Z.le_ge_cases (total_cases a) (total_cases b)).
    + right. right. split; [by symmetry | done].
    + left. right. split; done.
  - by right; left.
  - by left; left.
Qed.

Lemma ranks_before_transitive : Transitive ranks_before.
Proof.
  intros a b c [Hab|[Eab Hab]] [Hbc|[Ebc Hbc]]; unfold ranks_before.
  - left. by transitivity (current_rating b).
  - left. by rewrite <- Ebc.
  - left. by rewrite Eab.
  - right. split; [by rewrite Eab | lia].
Qed.

Lemma sorted_top (l : list hospital) :
  StronglySorted ranks_before (stable_sort top_order l).
Proof.
  apply Sorted_StronglySorted; [apply ranks_before_transitive|].
  eapply Sorted_weaken.
  2:{ apply (stable_sort_sorted top_order top_order_total). }
  intros a b. simpl. apply top_order_spec.
Qed.

(** C7. [get_top_hospitals] lists only facilities with at least one case,
    ordered by rating descending and then by case count descending, cut
    to the first [limit] rows of that order; on the scenario A (4.5, 10),
    B (4.5, 3), C (3.0, 50) a limit of 2 gives A then B. *)
Theorem get_top_hospitals_ordered (d : db) (limit : Z) :
  0 <= limit ->
  let rows := select_top d limit in
  get_top_hospitals d limit = map top_entry_of rows
  /\ Forall (fun h => h ∈ hospitals d /\ 0 < total_cases h) rows
  /\ StronglySorted ranks_before rows
  /\ (exists ranking,
        Permutation ranking (List.filter (fun h => 0 <? total_cases h) (hospitals d))
        /\ StronglySorted ranks_before ranking
        /\ rows = take (Z.to_nat limit) ranking)
  /\ map te_hospital_name (get_top_hospitals scenario_top 2) = ["A"; "B"].
Proof.
  intros Hlimit rows.
  set (ranking := stable_sort top_order
                    (List.filter (fun h => 0 <? total_cases h) (hospitals d))).
  assert (Hrows : rows = take (Z.to_nat limit) ranking).
  { subst rows. unfold select_top, sql_limit.
    destruct (Z.ltb_spec limit 0); [lia | reflexivity]. }
  assert (Hperm : Permutation ranking
                    (List.filter (fun h => 0 <? total_cases h) (hospitals d)))
    by apply stable_sort_perm.
  split; [reflexivity|]. split; [|split; [|split]].
  - rewrite Hrows. apply Forall_take. rewrite Hperm.
    apply Forall_forall. intros h Hh.
    apply list_elem_of_In, filter_In in Hh. destruct Hh as [Hin Hpos].
    split; [by apply list_elem_of_In | by apply Z.ltb_lt].
  - rewrite Hrows. apply StronglySorted_take, sorted_top.
  - exists ranking. split; [exact Hperm|]. split; [apply sorted_top | exact Hrows].
  - vm_compute. reflexivity.
Qed.

Lemma get_top_hospitals_ordered_witness :
  StronglySorted ranks_before (select_top scenario_top 2).
Proof.
  refine (proj1 (proj2 (proj2 (get_top_hospitals_ordered scenario_top 2 _)))).
  lia.
Defined.

End RatingLedger.

(** ** The path finder and the road-network cache *)

Module RouteFinding.
Import Graph BidirectionalDijkstra EmergencyRouteFinder RouteSpec.

(** C1. The bidirectional search does not always return the shortest
    distance.  On [detour_graph] it returns the direct road of 10 m from
    node 1 to node 4, while the reference Dijkstra finds 3 m along
    1-2-3-4; on [through_zero_graph] it reports no path from 5 to 6
    although 5-0-6 has length 2. *)
Theorem early_termination_not_shortest :
  find_shortest_path detour_graph 1 4 = Path [1; 4] 10
  /\ ReferenceDijkstra.shortest_distance detour_graph 1 4 = Some 3
  /\ ReferenceDijkstra.walk_length detour_graph [1; 2; 3; 4] = Some 3
  /\ find_shortest_path through_zero_graph 5 6 = NoPath
  /\ ReferenceDijkstra.shortest_distance through_zero_graph 5 6 = Some 2.
Proof.
  split; [vm_compute; reflexivity|]. split; [vm_compute; reflexivity|].
  split; [vm_compute; reflexivity|]. split; vm_compute; reflexivity.
Qed.

Lemma find_shortest_path_same_node (g : Graph.t) (n : Z) :
  find_shortest_path g n n = Path [n] 0.
Proof. unfold find_shortest_path. by rewrite Z.eqb_refl. Qed.

Section WithCollaborators.
Variable haversine_distance : Q -> Q -> Q -> Q -> Q.
Variable nearest_nodes : Graph.t -> Q -> Q -> option Z.
Variable cache_key : Q -> Q -> Z -> string.

(** C9. When the graph provider fails on a cache miss,
    [get_road_network] answers [None] and leaves the cache as it was, so
    that a later call asks the provider again and caches its graph; and
    the routed-mode [find_optimal_hospital_route] then returns the
    successful straight-line route of fast mode, which
    [find_nearest_hospitals_with_routes] keeps as a routed candidate. *)
Theorem provider_failure_falls_back
    (graph_from_point later : provider) (graph_cache : gmap string Graph.t)
    (accident_lat accident_lon hospital_lat hospital_lon : Q) (radius_m : Z)
    (G : Graph.t) (row : dataset_row) :
  let center_lat := ((accident_lat + hospital_lat) / 2)%Q in
  let center_lon := ((accident_lon + hospital_lon) / 2)%Q in
  let key := cache_key center_lat center_lon radius_m in
  graph_cache !! key = None ->
  graph_from_point center_lat center_lon radius_m = None ->
  later center_lat center_lon radius_m = Some G ->
  let failed :=
    get_road_network cache_key graph_from_point graph_cache
      center_lat center_lon radius_m in
  let route :=
    find_optimal_hospital_route haversine_distance nearest_nodes cache_key
      graph_from_point graph_cache accident_lat accident_lon hospital_lat hospital_lon
      radius_m false in
  let straight :=
    haversine_distance accident_lat accident_lon hospital_lat hospital_lon in
  failed = (None, graph_cache)
  /\ get_road_network cache_key later failed.2 center_lat center_lon radius_m
     = (Some G, <[key := G]> graph_cache)
  /\ route = (Some (RouteFound [] [(hospital_lat, hospital_lon); (accident_lat, accident_lon)]
                      straight (straight * 1000)%Q true),
              graph_cache)
  /\ success <$> route.1 = Some true
  /\ route = find_optimal_hospital_route haversine_distance nearest_nodes cache_key
               graph_from_point graph_cache accident_lat accident_lon
               hospital_lat hospital_lon radius_m true
  /\ exists h, entry_of row <$> route.1 = Some (RouteSuccess h)
               /\ route_distance_km h = straight.
Proof.
  intros center_lat center_lon key Hmiss Hdown Hup failed route straight.
  assert (Hfailed : failed = (None, graph_cache)).
  { subst failed. unfold get_road_network. fold key. by rewrite Hmiss, Hdown. }
  assert (Hroute : route = (Some (straight_line_route haversine_distance accident_lat
                                    accident_lon hospital_lat hospital_lon),
                            graph_cache)).
  { subst route. unfold find_optimal_hospital_route.
    fold center_lat center_lon. fold failed. by rewrite Hfailed. }
  split; [exact Hfailed|]. split.
  { rewrite Hfailed. simpl. unfold get_road_network. fold key.
    by rewrite Hmiss, Hup. }
  split; [exact Hroute|]. split; [by rewrite Hroute|]. split; [by rewrite Hroute|].
  rewrite Hroute. simpl. eexists. split; reflexivity.
Qed.

End WithCollaborators.

Lemma provider_failure_falls_back_witness :
  success <$>
    (find_optimal_hospital_route flat_distance no_nearest_node one_key provider_down ∅
       1 1 2 2 5000 false).1 = Some true.
Proof.
  refine (proj1 (proj2 (proj2 (proj2
    (provider_failure_falls_back flat_distance no_nearest_node one_key
       provider_down provider_up ∅ 1 1 2 2 5000 detour_graph
       (mkRow "A" "" "" 2 2 2) _ _ _))))); reflexivity.
Defined.

End RouteFinding.

(** ** Hospital selection *)

Module Selection.
Import EmergencyRouteFinder EmergencyResponseSystem ResponseSpec.
Import HospitalRatingSystem.

(** C3. The alternatives are the second and third routed candidates by
    distance, whichever candidate was selected.  With "A" (1.0 km, rated
    0), "B" (1.1 km) and "C" (2.0 km), "B" wins the score-based selection
    and is listed among its own alternatives, while the nearer "A" is
    not. *)
Theorem alternatives_contain_selected :
  exists resp,
    (handle_accident false no_flags a_rated_down three_candidates).1 = Some resp
    /\ hospital_name (selected_hospital resp) = "B"
    /\ map alt_name (alternative_hospitals resp) = ["B"; "C"]
    /\ map hospital_name (hospitals_with_routes three_candidates) = ["A"; "B"; "C"].
Proof.
  eexists. split; [vm_compute; reflexivity|].
  split; [reflexivity|]. split; [reflexivity|]. vm_compute; reflexivity.
Qed.


Section WithDataset.
Variable use_t_nagar_24x7 : bool.
Variable dataset_flags : string -> option (string * string).

#[local] Abbreviation extra_of := (extra_of use_t_nagar_24x7 dataset_flags).
#[local] Abbreviation consider := (consider use_t_nagar_24x7 dataset_flags).
#[local] Abbreviation score := (score use_t_nagar_24x7 dataset_flags).
#[local] Abbreviation handle_accident := (handle_accident use_t_nagar_24x7 dataset_flags).

Lemma get_hospital_rating_current (d : db) (n : string) :
  ri_current_rating <$> get_hospital_rating d n
  = current_rating <$> List.find (has_name n) (hospitals d).
Proof. unfold get_hospital_rating. by destruct (List.find _ _). Qed.

Lemma rating_info_for_current (d : db) (h : routed) :
  exists ri, (rating_info_for d h).1 = Some ri
             /\ ri_current_rating ri = stored d (hospital_name h).
Proof.
  unfold rating_info_for, stored.
  pose proof (get_hospital_rating_current d (hospital_name h)) as Hcur.
  destruct (get_hospital_rating d (hospital_name h)) as [ri|] eqn:Hget.
  - exists ri. split; [reflexivity|].
    destruct (List.find _ _); simpl in Hcur; congruence.
  - destruct (List.find (has_name (hospital_name h)) (hospitals d)) eqn:Hfind;
      [discriminate|].
    assert (Hsel : select_id d (hospital_name h) = None)
      by (unfold select_id; by rewrite Hfind).
    rewrite (RatingLedger.register_new _ _ _ _ _ _ Hsel). simpl.
    unfold get_hospital_rating. simpl. rewrite find_snoc, Hfind.
    unfold has_name at 1. simpl. rewrite String.eqb_refl. simpl.
    eexists. split; reflexivity.
Qed.

Lemma stored_after_lookup (d : db) (x : routed) (n : string) :
  stored (rating_info_for d x).2 n = stored d n.
Proof.
  unfold rating_info_for.
  pose proof (get_hospital_rating_current d (hospital_name x)) as Hcur.
  destruct (get_hospital_rating d (hospital_name x)) as [ri|]; [reflexivity|].
  destruct (List.find (has_name (hospital_name x)) (hospitals d)) eqn:Hfind;
    [discriminate|].
  assert (Hsel : select_id d (hospital_name x) = None)
    by (unfold select_id; by rewrite Hfind).
  rewrite (RatingLedger.register_new _ _ _ _ _ _ Hsel). simpl.
  unfold stored. simpl. rewrite find_snoc.
  destruct (List.find (has_name n) (hospitals d)); [reflexivity|].
  by destruct (has_name n _).
Qed.

Lemma score_stored (d : db) (h : routed) :
  score d h
  = (1 / (route_distance_km h + 0.1) * 0.55
     + stored d (hospital_name h) / 5 * 0.35 + extra_of (hospital_name h))%Q.
Proof.
  unfold ResponseSpec.score, combined_score.
  destruct (rating_info_for_current d h) as (ri & -> & ->). reflexivity.
Qed.


Lemma score_after_lookup (d : db) (x h : routed) :
  score (rating_info_for d x).2 h = score d h.
Proof. by rewrite !score_stored, stored_after_lookup. Qed.

(** One round of the loop: the store may grow, the scores stay, and the
    best changes exactly on a strictly greater score. *)
Lemma consider_step (d0 : db) (s : selection) (h : routed) :
  (forall x, score (ratings s) x = score d0 x) ->
  (forall x, score (ratings (consider s h)) x = score d0 x)
  /\ (((best_score s < score d0 h)%Q
       /\ best_score (consider s h) = score d0 h
       /\ exists ri, best_hospital (consider s h) = Some (h, ri))
      \/ ((score d0 h <= best_score s)%Q
          /\ best_score (consider s h) = best_score s
          /\ best_hospital (consider s h) = best_hospital s)).
Proof.
  intros Hstable. unfold EmergencyResponseSystem.consider.
  pose proof (Hstable h) as Hh.
  pose proof (fun x => score_after_lookup (ratings s) h x) as Hafter.
  assert (Hc : combined_score use_t_nagar_24x7 dataset_flags h
                 (rating_info_for (ratings s) h).1 = score d0 h) by exact Hh.
  destruct (rating_info_for (ratings s) h) as [ri d] eqn:Hri. simpl in Hc, Hafter.
  rewrite Hc.
  destruct (Qle_bool (score d0 h) (best_score s)) eqn:Hle; simpl.
  - split; [intros x; by rewrite Hafter|]. right.
    apply Qle_bool_iff in Hle. by repeat split.
  - split; [intros x; by rewrite Hafter|]. left.
    split; [|split; [reflexivity | by eexists]].
    apply Qnot_le_lt. intros Hn. apply Qle_bool_iff in Hn. congruence.
Qed.

Lemma select_fold (d0 : db) (l : list routed) (s : selection) :
  (forall x, score (ratings s) x = score d0 x) ->
  (best_hospital (foldl consider s l) = best_hospital s
   /\ best_score (foldl consider s l) = best_score s
   /\ Forall (fun x => score d0 x <= best_score s)%Q l)
  \/ (exists l1 h ri l2,
        l = l1 ++ h :: l2
        /\ best_hospital (foldl consider s l) = Some (h, ri)
        /\ (best_score s < score d0 h)%Q
        /\ Forall (fun x => score d0 x < score d0 h)%Q l1
        /\ Forall (fun x => score d0 x <= score d0 h)%Q l2).
Proof.
  revert s. induction l as [|a l IH]; intros s Hstable; [by left|].
  simpl. destruct (consider_step d0 s a Hstable) as [Hstable' Hstep].
  specialize (IH (consider s a) Hstable').
  destruct Hstep as [(Hlt & Hscore & ri & Hbest)|(Hle & Hscore & Hbest)].
  - right. destruct IH as [(Hb & Hs & Hall)|(l1 & h & ri' & l2 & -> & Hb & Hlt' & H1 & H2)].
    + exists [], a, ri, l. simpl. rewrite Hb, Hbest. rewrite Hscore in Hall.
      split; [reflexivity|]. split; [reflexivity|]. split; [exact Hlt|].
      split; [constructor | exact Hall].
    + exists (a :: l1), h, ri', l2. rewrite Hscore in Hlt'.
      split; [reflexivity|]. split; [exact Hb|].
      split; [by transitivity (score d0 a)|].
      split; [by constructor | exact H2].
  - destruct IH as [(Hb & Hs & Hall)|(l1 & h & ri' & l2 & -> & Hb & Hlt' & H1 & H2)].
    + left. rewrite Hb, Hs, Hbest, Hscore. rewrite Hscore in Hall.
      split; [reflexivity|]. split; [reflexivity|]. by constructor.
    + right. exists (a :: l1), h, ri', l2. rewrite Hscore in Hlt'.
      split; [reflexivity|]. split; [exact Hb|]. split; [exact Hlt'|].
      split; [|exact H2]. constructor; [|exact H1].
      by apply Qle_lt_trans with (best_score s).
Qed.

Lemma distance_order_total (a b : routed) :
  Qle_bool (route_distance_km a) (route_distance_km b) = true
  \/ Qle_bool (route_distance_km b) (route_distance_km a) = true.
Proof.
  rewrite !Qle_bool_iff.
  destruct (Qlt_le_dec (route_distance_km a) (route_distance_km b)) as [H|H].
  - left. by apply Qlt_le_weak.
  - by right.
Qed.



End WithDataset.


End Selection.

(** ** Further properties of the rating ledger *)

Module Ledger.
Import HospitalRatingSystem RatingSpec LedgerSpec.

(** *** Manual rating updates *)

Lemma manual_transaction_unfold (f : manual_faults) (d : db) (h : hospital)
    (new : Q) (reason : string) :
  List.find (has_id (id h)) (hospitals d) = Some h ->
  manual_transaction f (id h) new reason d =
  if f ManualSelectRating || f ManualUpdateRating || f ManualInsertHistory || f ManualCommit
  then None
  else Some (insert_rating_history
               (mkRatingChange (id h) (current_rating h) new
                  (ReasonText (if String.eqb reason "" then "Manual update" else reason)))
               (update_where_id (id h) (set_rating new) d)).
Proof.
  intros Hfind. unfold manual_transaction. rewrite Hfind. simpl.
  destruct (f ManualSelectRating); [reflexivity|].
  destruct (f ManualUpdateRating); [reflexivity|].
  destruct (f ManualInsertHistory); [reflexivity|].
  destruct (f ManualCommit); reflexivity.
Qed.

Lemma known_row (d : db) (n : string) (i : Z) :
  schema_ok d -> select_id d n = Some i ->
  exists h, List.find (has_name n) (hospitals d) = Some h /\ id h = i
            /\ List.find (has_id i) (hospitals d) = Some h /\ truthy_id (Some i) = true.
Proof.
  intros Hok Hsel. unfold select_id in Hsel.
  destruct (List.find (has_name n) (hospitals d)) as [h|] eqn:Hfind; [|discriminate].
  injection Hsel as <-. exists h. apply RatingLedger.find_in in Hfind as Hin.
  destruct Hin as [Hin _]. split; [reflexivity|]. split; [reflexivity|]. split.
  - apply RatingLedger.find_by_id; [apply (ok_ids_unique _ Hok) | exact Hin].
  - pose proof (ok_ids _ Hok) as Hids. rewrite Forall_forall in Hids.
    specialize (Hids h Hin). simpl. destruct (Z.eqb_spec (id h) 0); [lia | reflexivity].
Qed.

Lemma manual_update_unknown (f : manual_faults) (d : db) (n : string)
    (new : Q) (reason : string) :
  select_id d n = None -> update_rating_manually f d n new reason = (false, d).
Proof.
  intros Hsel. unfold update_rating_manually, get_hospital_id. by rewrite Hsel.
Qed.

(** X1. [update_rating_manually] for a name that is not registered
    returns false and leaves the store untouched: unlike
    [record_case_outcome] it does not register the hospital. *)
Theorem manual_update_unknown_hospital (f : manual_faults) (d : db) (n : string)
    (new : Q) (reason : string) :
  get_hospital_rating d n = None ->
  update_rating_manually f d n new reason = (false, d)
  /\ get_hospital_rating (update_rating_manually f d n new reason).2 n = None.
Proof.
  intros Hnone.
  assert (Hsel : select_id d n = None).
  { unfold get_hospital_rating in Hnone. unfold select_id.
    by destruct (List.find (has_name n) (hospitals d)). }
  by rewrite (manual_update_unknown f d n new reason Hsel).
Qed.

Lemma manual_update_unknown_hospital_witness :
  update_rating_manually no_manual_faults init_database "Apollo" 4 "audit"
  = (false, init_database).
Proof.
  refine (proj1 (manual_update_unknown_hospital no_manual_faults init_database
                   "Apollo" 4 "audit" _)).
  reflexivity.
Defined.

Lemma manual_update_known (f : manual_faults) (d : db) (n : string)
    (h : hospital) (new : Q) (reason : string) :
  schema_ok d ->
  List.find (has_name n) (hospitals d) = Some h ->
  update_rating_manually f d n new reason
  = if f ManualSelectRating || f ManualUpdateRating || f ManualInsertHistory
       || f ManualCommit
    then (false, d)
    else (true, insert_rating_history
                  (mkRatingChange (id h) (current_rating h) new
                     (ReasonText (if String.eqb reason "" then "Manual update"
                                  else reason)))
                  (update_where_id (id h) (set_rating new) d)).
Proof.
  intros Hok Hfind.
  assert (Hsel : select_id d n = Some (id h)) by (unfold select_id; by rewrite Hfind).
  destruct (known_row d n (id h) Hok Hsel) as (h' & Hfind' & _ & Hid & Ht).
  assert (h' = h) by congruence. subst h'.
  unfold update_rating_manually, get_hospital_id. rewrite Hsel, Ht.
  rewrite (manual_transaction_unfold f d h new reason Hid).
  by destruct (f ManualSelectRating || f ManualUpdateRating || f ManualInsertHistory
               || f ManualCommit).
Qed.

(** X2. For a registered hospital a fault-free manual update stores the
    given rating as it is (no rounding to half stars, no clamping to
    [0,5]), always appends one rating-history row with the old and the new
    rating (the reason defaults to "Manual update"), and changes neither
    the counters nor the case history; with a fault in any statement it
    returns false and the store is as before. *)
Theorem manual_update_known_hospital (f : manual_faults) (d : db) (n : string)
    (h : hospital) (new : Q) (reason : string) :
  schema_ok d ->
  List.find (has_name n) (hospitals d) = Some h ->
  let r := update_rating_manually f d n new reason in
  let faulty :=
    f ManualSelectRating || f ManualUpdateRating || f ManualInsertHistory || f ManualCommit in
  r.1 = negb faulty
  /\ (faulty = true -> r.2 = d)
  /\ (faulty = false ->
      List.find (has_name n) (hospitals r.2) = Some (set_rating new h)
      /\ rating_history r.2
         = rating_history d
           ++ [mkRatingChange (id h) (current_rating h) new
                 (ReasonText (if String.eqb reason "" then "Manual update" else reason))]
      /\ case_history r.2 = case_history d
      /\ forall n', n' <> n ->
           List.find (has_name n') (hospitals r.2) = List.find (has_name n') (hospitals d)).
Proof.
  intros Hok Hfind r faulty.
  assert (Hsel : select_id d n = Some (id h)) by (unfold select_id; by rewrite Hfind).
  destruct (known_row d n (id h) Hok Hsel) as (h' & Hfind' & _ & Hid & Ht).
  assert (h' = h) by congruence. subst h'.
  assert (Hr : r = if faulty then (false, d)
                   else (true, insert_rating_history
                           (mkRatingChange (id h) (current_rating h) new
                              (ReasonText (if String.eqb reason "" then "Manual update"
                                           else reason)))
                           (update_where_id (id h) (set_rating new) d)))
    by apply (manual_update_known f d n h new reason Hok Hfind).
  rewrite Hr. destruct faulty; simpl.
  - split; [reflexivity|]. split; [reflexivity | discriminate].
  - split; [reflexivity|]. split; [discriminate|]. intros _.
    split.
    { rewrite (RatingLedger.find_update (has_name n) (id h) (set_rating new)) by reflexivity.
      rewrite Hfind. simpl. unfold has_id. by rewrite Z.eqb_refl. }
    split; [reflexivity|]. split; [reflexivity|].
    intros n' Hne.
    rewrite (RatingLedger.find_update (has_name n') (id h) (set_rating new)) by reflexivity.
    destruct (List.find (has_name n') (hospitals d)) as [h'|] eqn:Hfind''; [|reflexivity].
    simpl. apply RatingLedger.find_in in Hfind''. destruct Hfind'' as [Hin' Hn'].
    destruct (has_id (id h) h') eqn:E; [|reflexivity].
    exfalso. apply Hne. apply RatingLedger.has_name_spec in Hn'. subst n'.
    unfold has_id in E. apply Z.eqb_eq in E.
    apply RatingLedger.find_in in Hfind. destruct Hfind as [Hin Hn].
    apply RatingLedger.has_name_spec in Hn. subst n.
    assert (Hboth : List.find (has_id (id h')) (hospitals d) = Some h')
      by (apply RatingLedger.find_by_id; [apply (ok_ids_unique _ Hok) | exact Hin']).
    rewrite E, Hid in Hboth. congruence.
Qed.

Lemma manual_update_known_hospital_witness :
  (update_rating_manually no_manual_faults apollo_db "Apollo" 7.3 "").1 = true.
Proof.
  refine (proj1 (manual_update_known_hospital no_manual_faults apollo_db "Apollo"
                   perfect_row 7.3 "" _ _)).
  - split; vm_compute; repeat constructor; try discriminate; intros H; inversion H.
  - vm_compute. reflexivity.
Defined.

(** *** What a write can do to the tables *)

Lemma schema_ok_rows (d d' : db) :
  map identity (hospitals d') = map identity (hospitals d) ->
  hospitals_seq d' = hospitals_seq d ->
  schema_ok d -> schema_ok d'.
Proof.
  intros Hrows Hseq [Hs Hids Hidu Hnames].
  assert (Hid : map id (hospitals d') = map id (hospitals d)).
  { apply (f_equal (map fst)) in Hrows. by rewrite !map_map in Hrows. }
  assert (Hname : map name (hospitals d') = map name (hospitals d)).
  { apply (f_equal (map snd)) in Hrows. by rewrite !map_map in Hrows. }
  split; rewrite ?Hseq, ?Hid, ?Hname; try done.
  assert (Hall : Forall (fun i => 0 < i <= hospitals_seq d) (map id (hospitals d)))
    by (apply Forall_fmap; exact Hids).
  rewrite <- Hid in Hall. apply Forall_fmap in Hall. exact Hall.
Qed.

Lemma filter_nothing {A} (f : A -> bool) (l : list A) :
  (forall x, x ∈ l -> f x = false) -> List.filter f l = [].
Proof.
  induction l as [|x l IH]; intros Hf; simpl; [reflexivity|].
  rewrite (Hf x) by apply list_elem_of_here.
  apply IH. intros y Hy. apply Hf. by apply list_elem_of_further.
Qed.

Lemma identity_update (i : Z) (upd : hospital -> hospital) (l : list hospital) :
  (forall h, identity (upd h) = identity h) ->
  map identity (map (fun h => if has_id i h then upd h else h) l) = map identity l.
Proof.
  intros Hupd. rewrite map_map. apply map_ext. intros h.
  by destruct (has_id i h).
Qed.

Lemma committed_identities d0 h0 c :
  map identity (hospitals (committed d0 h0 c)) = map identity (hospitals d0).
Proof. rewrite RatingLedger.committed_hospitals. by apply identity_update. Qed.

Lemma committed_rating_history d0 h0 c :
  exists row,
    rc_hospital_id row = id h0 /\ old_rating row = current_rating h0
    /\ new_rating row = recomputed_rating d0 h0 c
    /\ rating_history (committed d0 h0 c)
       = rating_history d0
         ++ (if significant_change (recomputed_rating d0 h0 c) (current_rating h0)
             then [row] else []).
Proof.
  unfold committed. cbv zeta. eexists. split; [|split; [|split]].
  4:{ destruct (significant_change _ _); simpl; [reflexivity|]. by rewrite app_nil_r. }
  all: reflexivity.
Qed.

(** The store after a [record_case_outcome] call. *)
Lemma run_call_result (d : db) (c : call) :
  schema_ok d ->
  let d0 := (ensure_registered d (call_hospital_name c)).2 in
  run_call d c = d0
  \/ exists h0,
       h0 ∈ hospitals d0
       /\ run_call d c
          = committed d0 h0
              (mkCase (id h0) (call_accident_id c) (call_patient_outcome c)
                 (call_quality_score c) (call_response_time_minutes c)
                 (call_treatment_notes c)).
Proof.
  intros Hok d0. unfold run_call.
  destruct (RatingLedger.record_case_outcome_unfold (call_faults c) d (call_hospital_name c)
              (call_accident_id c) (call_patient_outcome c) (call_quality_score c)
              (call_response_time_minutes c) (call_treatment_notes c) Hok)
    as (h0 & Hname & _ & _ & ->).
  destruct (raises _ _ _ _); simpl; [by left|].
  right. exists h0. split; [|reflexivity].
  by apply RatingLedger.find_in in Hname as [? _].
Qed.

(** The store after an [update_rating_manually] call. *)
Lemma manual_update_result (f : manual_faults) (d : db) (n : string) (new : Q)
    (reason : string) :
  (update_rating_manually f d n new reason).2 = d
  \/ exists h row,
       h ∈ hospitals d /\ rc_hospital_id row = id h
       /\ (update_rating_manually f d n new reason).2
          = insert_rating_history row (update_where_id (id h) (set_rating new) d).
Proof.
  unfold update_rating_manually.
  destruct (get_hospital_id d n) as [i|]; [|by left].
  destruct (truthy_id (Some i)); [|by left].
  unfold manual_transaction.
  destruct (f ManualSelectRating); [by left|].
  destruct (List.find (has_id i) (hospitals d)) as [h|] eqn:Hfind; [|by left]. simpl.
  destruct (f ManualUpdateRating); [by left|].
  destruct (f ManualInsertHistory); [by left|].
  destruct (f ManualCommit); [by left|].
  right. apply RatingLedger.find_in in Hfind. destruct Hfind as [Hin Hid].
  unfold has_id in Hid. apply Z.eqb_eq in Hid. subst i.
  eexists h, _. split; [exact Hin|]. split; [|reflexivity]. reflexivity.
Qed.

Lemma schema_ok_run_operation (d : db) (op : operation) :
  schema_ok d -> schema_ok (run_operation d op).
Proof.
  intros Hok. destruct op as [n a lat lon p|c|f n new reason]; simpl.
  - by apply RatingLedger.schema_ok_register.
  - assert (Hok0 : schema_ok (ensure_registered d (call_hospital_name c)).2).
    { destruct (RatingLedger.ensure_registered_state d (call_hospital_name c)) as [-> | ->];
        [exact Hok | by apply RatingLedger.schema_ok_register]. }
    destruct (run_call_result d c Hok) as [-> | (h0 & _ & ->)]; [exact Hok0|].
    eapply schema_ok_rows; [apply committed_identities | apply RatingLedger.committed_seq
                           | exact Hok0].
  - destruct (manual_update_result f d n new reason) as [-> | (h & row & _ & _ & ->)];
      [exact Hok|].
    eapply schema_ok_rows; [| |exact Hok]; [|reflexivity].
    simpl. by apply identity_update.
Qed.

(** *** The aggregates agree with the case rows *)

Lemma total_minutes_snoc (cs : list case) (c : case) :
  (total_minutes (cs ++ [c]) == total_minutes cs + response_time_minutes c)%Q.
Proof.
  unfold total_minutes. induction cs as [|x cs IH]; simpl; [ring|].
  rewrite IH. ring.
Qed.

Lemma cases_of_snoc (d d' : db) (c : case) (i : Z) :
  case_history d' = case_history d ++ [c] ->
  cases_of d' i = cases_of d i ++ (if hospital_id c =? i then [c] else []).
Proof.
  intros Hc. unfold cases_of. rewrite Hc, List.filter_app. simpl.
  by destruct (hospital_id c =? i).
Qed.

Lemma row_consistent_same_cases (d d' : db) (h h' : hospital) :
  case_history d' = case_history d ->
  id h' = id h -> total_cases h' = total_cases h ->
  successful_outcomes h' = successful_outcomes h ->
  total_response_time_minutes h' = total_response_time_minutes h ->
  row_consistent d h -> row_consistent d' h'.
Proof.
  intros Hc Hi Ht Hs Hm. unfold row_consistent, cases_of.
  by rewrite Hc, Hi, Ht, Hs, Hm.
Qed.

Lemma members_weaken {A} (ids ids' : list Z) (key : A -> Z) (l : list A) :
  (forall i, i ∈ ids -> i ∈ ids') ->
  Forall (fun x => key x ∈ ids) l -> Forall (fun x => key x ∈ ids') l.
Proof. intros Hsub Hl. eapply Forall_impl; [exact Hl|]. intros x. apply Hsub. Qed.

Lemma ledger_consistent_register d n a lat lon p :
  schema_ok d -> ledger_consistent d ->
  ledger_consistent (register_hospital d n a lat lon p).2.
Proof.
  intros Hok [Hcases Hhist Hrows].
  destruct (select_id d n) as [i|] eqn:Hsel.
  { rewrite (RatingLedger.register_known _ _ _ _ _ _ _ Hsel). by split. }
  rewrite (RatingLedger.register_new _ _ _ _ _ _ Hsel). simpl.
  split; simpl.
  - eapply members_weaken; [|exact Hcases].
    intros i Hi. rewrite map_app. apply elem_of_app. by left.
  - eapply members_weaken; [|exact Hhist].
    intros i Hi. rewrite map_app. apply elem_of_app. by left.
  - apply Forall_app. split.
    + eapply Forall_impl; [exact Hrows|]. intros h Hh. exact Hh.
    + constructor; [|constructor].
      assert (Hnone : cases_of d (hospitals_seq d + 1) = []).
      { unfold cases_of. apply filter_nothing. intros c Hc.
        rewrite Forall_forall in Hcases. specialize (Hcases c Hc).
        apply list_elem_of_fmap in Hcases. destruct Hcases as (h & Hh & Hin).
        pose proof (ok_ids _ Hok) as Hids. rewrite Forall_forall in Hids.
        specialize (Hids h Hin). apply Z.eqb_neq. lia. }
      unfold row_consistent, cases_of in *. simpl. rewrite Hnone. simpl.
      split; [reflexivity|]. split; reflexivity.
Qed.

Lemma ids_of_identities (l l' : list hospital) :
  map identity l' = map identity l -> map id l' = map id l.
Proof. intros H. apply (f_equal (map fst)) in H. by rewrite !map_map in H. Qed.

Lemma ledger_consistent_committed d0 h0 c :
  ledger_consistent d0 -> h0 ∈ hospitals d0 -> hospital_id c = id h0 ->
  ledger_consistent (committed d0 h0 c).
Proof.
  intros [Hcases Hhist Hrows] Hin Hc.
  pose proof (ids_of_identities _ _ (committed_identities d0 h0 c)) as Hids.
  pose proof (RatingLedger.committed_case_history d0 h0 c) as Hch.
  assert (Hh0 : id h0 ∈ map id (hospitals d0)) by (apply list_elem_of_fmap; eauto).
  split.
  - rewrite Hids, Hch. apply Forall_app. split; [exact Hcases|].
    constructor; [by rewrite Hc | constructor].
  - rewrite Hids.
    destruct (committed_rating_history d0 h0 c) as (row & Hrow & _ & _ & ->).
    apply Forall_app. split; [exact Hhist|].
    destruct (significant_change _ _); [|constructor].
    constructor; [by rewrite Hrow | constructor].
  - rewrite RatingLedger.committed_hospitals. apply Forall_fmap.
    eapply Forall_impl; [exact Hrows|]. intros h (Ht & Hs & Hm). simpl.
    unfold row_consistent.
    destruct (has_id (id h0) h) eqn:E.
    + unfold has_id in E. apply Z.eqb_eq in E.
      assert (Hcs : cases_of (committed d0 h0 c) (id h) = cases_of d0 (id h) ++ [c]).
      { rewrite (cases_of_snoc d0 _ c (id h) Hch). rewrite Hc, <- E.
        by rewrite Z.eqb_refl. }
      simpl. rewrite Hcs. split; [|split].
      * rewrite length_app. simpl. lia.
      * rewrite List.filter_app, length_app. simpl. unfold is_successful at 2.
        destruct (String.eqb (patient_outcome c) "successful"); simpl; lia.
      * rewrite total_minutes_snoc, Hm. reflexivity.
    + assert (Hcs : cases_of (committed d0 h0 c) (id h) = cases_of d0 (id h)).
      { rewrite (cases_of_snoc d0 _ c (id h) Hch). rewrite Hc.
        unfold has_id in E. rewrite Z.eqb_sym, E. by rewrite app_nil_r. }
      rewrite Hcs. by repeat split.
Qed.

Lemma ledger_consistent_run_operation (d : db) (op : operation) :
  schema_ok d -> ledger_consistent d -> ledger_consistent (run_operation d op).
Proof.
  intros Hok Hlc. destruct op as [n a lat lon p|c|f n new reason]; simpl.
  - by apply ledger_consistent_register.
  - assert (Hlc0 : ledger_consistent (ensure_registered d (call_hospital_name c)).2).
    { destruct (RatingLedger.ensure_registered_state d (call_hospital_name c)) as [-> | ->];
        [exact Hlc | by apply ledger_consistent_register]. }
    destruct (run_call_result d c Hok) as [-> | (h0 & Hin & ->)]; [exact Hlc0|].
    by apply ledger_consistent_committed.
  - destruct (manual_update_result f d n new reason) as [-> | (h & row & Hin & Hrow & ->)];
      [exact Hlc|].
    destruct Hlc as [Hcases Hhist Hrows].
    assert (Hids : map id (hospitals (insert_rating_history row
                      (update_where_id (id h) (set_rating new) d))) = map id (hospitals d)).
    { apply ids_of_identities. simpl. by apply identity_update. }
    split; rewrite ?Hids.
    + exact Hcases.
    + simpl. apply Forall_app. split; [exact Hhist|].
      constructor; [|constructor]. rewrite Hrow. apply list_elem_of_fmap. eauto.
    + simpl. apply Forall_fmap. eapply Forall_impl; [exact Hrows|].
      intros x Hx. simpl. destruct (has_id (id h) x); exact Hx.
Qed.

Lemma reachable_invariant (ops : list operation) (d : db) :
  schema_ok d -> ledger_consistent d ->
  schema_ok (run_operations d ops) /\ ledger_consistent (run_operations d ops).
Proof.
  revert d. induction ops as [|op ops IH]; intros d Hok Hlc; [by split|].
  simpl. apply IH.
  - by apply schema_ok_run_operation.
  - by apply ledger_consistent_run_operation.
Qed.

Lemma ledger_consistent_init : ledger_consistent init_database.
Proof. split; constructor. Qed.

(** X3. Whatever sequence of registrations, outcome reports and manual
    rating updates runs on a fresh store, committed or rolled back: every
    case row and every rating-history row refers to a stored hospital, and
    each hospital's [total_cases], [successful_outcomes] and
    [total_response_time_minutes] are the number of its case rows, the
    number of those with outcome "successful", and the sum of their
    response times. *)
Theorem aggregates_agree_with_case_rows (ops : list operation) :
  ledger_consistent (run_operations init_database ops).
Proof.
  apply (reachable_invariant ops init_database RatingLedger.schema_ok_init
           ledger_consistent_init).
Qed.

(** X4. On a store reached from a fresh one, ids and names stay unique and
    ids are the ones the AUTOINCREMENT counter handed out; a further
    operation never removes, renumbers or renames a stored hospital: the
    (id, name) pairs before it are a prefix of those after it. *)
Theorem hospitals_never_renumbered (ops : list operation) (op : operation) :
  let d := run_operations init_database ops in
  schema_ok d
  /\ map identity (hospitals d) `prefix_of` map identity (hospitals (run_operation d op)).
Proof.
  intros d.
  assert (Hok : schema_ok d)
    by apply (reachable_invariant ops init_database RatingLedger.schema_ok_init
                ledger_consistent_init).
  split; [exact Hok|].
  assert (Hreg : forall d n a lat lon p,
             map identity (hospitals d)
             `prefix_of` map identity (hospitals (register_hospital d n a lat lon p).2)).
  { intros d1 n a lat lon p. unfold register_hospital, insert_or_ignore. simpl.
    destruct (existsb _ _); [done|]. simpl. rewrite map_app. by apply prefix_app_r. }
  destruct op as [n a lat lon p|c|f n new reason]; simpl.
  - apply Hreg.
  - assert (H0 : map identity (hospitals d)
                 `prefix_of` map identity
                               (hospitals (ensure_registered d (call_hospital_name c)).2)).
    { destruct (RatingLedger.ensure_registered_state d (call_hospital_name c)) as [-> | ->];
        [done | apply Hreg]. }
    destruct (run_call_result d c Hok) as [-> | (h0 & _ & ->)]; [exact H0|].
    by rewrite committed_identities.
  - destruct (manual_update_result f d n new reason) as [-> | (h & row & _ & _ & ->)];
      [done|].
    simpl. by rewrite identity_update.
Qed.

(** *** Reports of other hospitals *)

Lemma other_name_other_id (d : db) (n n' : string) (h h' : hospital) :
  schema_ok d ->
  List.find (has_name n) (hospitals d) = Some h ->
  List.find (has_name n') (hospitals d) = Some h' ->
  n' <> n -> has_id (id h) h' = false.
Proof.
  intros Hok Hfind Hfind' Hne.
  apply RatingLedger.find_in in Hfind. destruct Hfind as [Hin Hn].
  apply RatingLedger.find_in in Hfind'. destruct Hfind' as [Hin' Hn'].
  apply RatingLedger.has_name_spec in Hn, Hn'. subst n n'.
  destruct (has_id (id h) h') eqn:E; [|reflexivity].
  unfold has_id in E. apply Z.eqb_eq in E.
  pose proof (RatingLedger.find_by_id _ _ (ok_ids_unique _ Hok) Hin) as H1.
  pose proof (RatingLedger.find_by_id _ _ (ok_ids_unique _ Hok) Hin') as H2.
  rewrite E in H2. congruence.
Qed.

Lemma report_after_register (d : db) (n n' a p : string) (lat lon : option Q) :
  n' <> n ->
  get_hospital_rating (register_hospital d n a lat lon p).2 n' = get_hospital_rating d n'.
Proof.
  intros Hne. unfold register_hospital, insert_or_ignore. simpl.
  destruct (existsb (has_name n) (hospitals d)); [reflexivity|].
  unfold get_hospital_rating, cases_of. simpl. rewrite find_snoc.
  destruct (List.find (has_name n') (hospitals d)); [reflexivity|].
  unfold has_name at 1. simpl.
  destruct (String.eqb_spec n n'); [congruence | reflexivity].
Qed.

Lemma report_after_commit (d0 : db) (h0 : hospital) (c : case) (n n' : string) :
  schema_ok d0 -> List.find (has_name n) (hospitals d0) = Some h0 ->
  hospital_id c = id h0 -> n' <> n ->
  get_hospital_rating (committed d0 h0 c) n' = get_hospital_rating d0 n'.
Proof.
  intros Hok Hfind Hc Hne. unfold get_hospital_rating.
  rewrite RatingLedger.committed_hospitals.
  rewrite (RatingLedger.find_update (has_name n') (id h0)
             (fun h => set_rating (recomputed_rating d0 h0 c) (add_outcome c h)))
    by reflexivity.
  destruct (List.find (has_name n') (hospitals d0)) as [h'|] eqn:Hfind'; [|reflexivity].
  simpl. pose proof (other_name_other_id d0 n n' h0 h' Hok Hfind Hfind' Hne) as E.
  rewrite E.
  rewrite (cases_of_snoc d0 _ c (id h') (RatingLedger.committed_case_history d0 h0 c)).
  rewrite Hc. unfold has_id in E. rewrite Z.eqb_sym, E. by rewrite app_nil_r.
Qed.

(** X5. [record_case_outcome] for one hospital leaves the report
    ([get_hospital_rating]) of every other name as it was, whether the
    call commits or rolls back and whether or not it had to register its
    own hospital first. *)
Theorem record_case_outcome_frame (f : faults) (d : db) (n n' acc outcome : string)
    (q m : Q) (notes : string) :
  schema_ok d -> n' <> n ->
  get_hospital_rating (record_case_outcome f d n acc outcome q m notes).2 n'
  = get_hospital_rating d n'.
Proof.
  intros Hok Hne.
  assert (H0 : get_hospital_rating (ensure_registered d n).2 n' = get_hospital_rating d n').
  { destruct (RatingLedger.ensure_registered_state d n) as [-> | ->];
      [reflexivity | by apply report_after_register]. }
  assert (Hok0 : schema_ok (ensure_registered d n).2).
  { destruct (RatingLedger.ensure_registered_state d n) as [-> | ->];
      [exact Hok | by apply RatingLedger.schema_ok_register]. }
  destruct (RatingLedger.record_case_outcome_unfold f d n acc outcome q m notes Hok)
    as (h0 & Hname & _ & _ & ->).
  destruct (raises _ _ _ _); simpl; [exact H0|].
  rewrite <- H0. by apply (report_after_commit _ h0 _ n n').
Qed.

Lemma record_case_outcome_frame_witness :
  get_hospital_rating
    (record_case_outcome no_faults apollo_db "SIMS" "case-2" "partial" 60 30 "").2 "Apollo"
  = get_hospital_rating apollo_db "Apollo".
Proof.
  apply record_case_outcome_frame; [|discriminate].
  split; vm_compute; repeat constructor; try discriminate; intros H; inversion H.
Defined.

(** *** Audit of rating changes *)

Lemma half_star_change (a b : Q) :
  half_star a -> half_star b ->
  significant_change a b = negb (Qeq_bool a b).
Proof.
  intros (ka & _ & Ha) (kb & _ & Hb). unfold significant_change.
  assert (Ha' : (a == inject_Z ka * (1 # 2))%Q).
  { rewrite Ha. unfold Qeq. simpl. lia. }
  assert (Hb' : (b == inject_Z kb * (1 # 2))%Q).
  { rewrite Hb. unfold Qeq. simpl. lia. }
  destruct (Qeq_bool a b) eqn:E; cbn [negb].
  - apply Qeq_bool_iff in E.
    destruct (Qle_bool 0.1 (Qabs (a - b))) eqn:L; [|reflexivity].
    apply Qle_bool_iff in L. exfalso. revert L. apply Qabs_case; intros; lra.
  - apply Qle_bool_iff. apply Qeq_bool_neq in E.
    assert (Hk : ka <> kb).
    { intros ->. apply E. by rewrite Ha', Hb'. }
    assert (Hcases : (inject_Z kb + 1 <= inject_Z ka \/ inject_Z ka + 1 <= inject_Z kb)%Q).
    { change 1%Q with (inject_Z 1). rewrite <- !inject_Z_plus, <- !Zle_Qle. lia. }
    apply Qabs_case; intros; destruct Hcases; lra.
Qed.

(** X6. On a store whose ratings are on the half-star grid, a committed
    [record_case_outcome] with arguments in range appends a rating-history
    row (old rating, new rating) exactly when the rating changed, and none
    otherwise: no rating change goes unrecorded. *)
Theorem rating_change_recorded (f : faults) (d : db) (n acc outcome : string)
    (q m : Q) (notes : string) :
  well_formed d -> (0 <= q <= 100)%Q -> (0 <= m)%Q ->
  let d0 := (ensure_registered d n).2 in
  let r := record_case_outcome f d n acc outcome q m notes in
  r.1 = true ->
  exists h0 h1,
    List.find (has_name n) (hospitals d0) = Some h0
    /\ List.find (has_name n) (hospitals r.2) = Some h1
    /\ ((current_rating h1 == current_rating h0)%Q ->
        rating_history r.2 = rating_history d0)
    /\ (~ (current_rating h1 == current_rating h0)%Q ->
        exists row,
          rating_history r.2 = rating_history d0 ++ [row]
          /\ rc_hospital_id row = id h0
          /\ old_rating row = current_rating h0
          /\ new_rating row = current_rating h1).
Proof.
  intros Hwf Hq Hm d0 r Htrue.
  pose proof (RatingLedger.well_formed_ensure_registered d n Hwf) as Hwf0. fold d0 in Hwf0.
  destruct (RatingLedger.record_case_outcome_unfold f d n acc outcome q m notes
              (wf_schema _ Hwf)) as (h0 & Hname & Hid & _ & Hr).
  fold d0 in Hname, Hid, Hr. fold r in Hr. cbv zeta in Hr.
  set (c := mkCase (id h0) acc outcome q m notes) in *.
  rewrite Hr in Htrue |- *. destruct (raises f d0 h0 c); [discriminate|]. simpl.
  exists h0, (set_rating (recomputed_rating d0 h0 c) (add_outcome c h0)).
  split; [exact Hname|]. split.
  { rewrite RatingLedger.committed_hospitals.
    rewrite (RatingLedger.find_update (has_name n) (id h0)
               (fun h => set_rating (recomputed_rating d0 h0 c) (add_outcome c h)))
      by reflexivity.
    rewrite Hname. simpl. unfold has_id. by rewrite Z.eqb_refl. }
  apply RatingLedger.find_in in Hname as Hin. destruct Hin as [Hin _].
  assert (Hsig : significant_change (recomputed_rating d0 h0 c) (current_rating h0)
                 = negb (Qeq_bool (recomputed_rating d0 h0 c) (current_rating h0))).
  { apply half_star_change.
    - by apply RatingLedger.recomputed_rating_half_star.
    - pose proof (wf_ratings _ Hwf0) as Hr0. rewrite Forall_forall in Hr0. by apply Hr0. }
  destruct (committed_rating_history d0 h0 c) as (row & Hrow & Hold & Hnew & ->).
  rewrite Hsig. simpl. split.
  - intros Heq. apply Qeq_bool_iff in Heq. rewrite Heq. simpl. by rewrite app_nil_r.
  - intros Hneq. destruct (Qeq_bool _ _) eqn:E.
    + apply Qeq_bool_iff in E. contradiction.
    + simpl. by exists row.
Qed.

Lemma rating_change_recorded_witness :
  exists h0 h1,
    List.find (has_name "Apollo") (hospitals (ensure_registered init_database "Apollo").2)
    = Some h0
    /\ List.find (has_name "Apollo") (hospitals (run_call init_database perfect_call))
       = Some h1.
Proof.
  destruct (rating_change_recorded no_faults init_database "Apollo" "case-1" "successful"
              100 0 "" RatingLedger.well_formed_init)
    as (h0 & h1 & H0 & H1 & _); [split; discriminate | discriminate | reflexivity |].
  by exists h0, h1.
Defined.

(** *** A manual rating and the next outcome *)

Lemma recomputed_rating_ignores_rating (d d' : db) (h h' : hospital) (c : case) :
  case_history d' = case_history d -> id h' = id h ->
  total_cases h' = total_cases h -> successful_outcomes h' = successful_outcomes h ->
  recomputed_rating d' h' c = recomputed_rating d h c.
Proof.
  intros Hc Hi Ht Hs.
  unfold recomputed_rating, HospitalPerformance.calculate_new_rating,
    HospitalPerformance.overall_score, HospitalPerformance.success_rate,
    HospitalPerformance.response_score, performance_of, cases_of. simpl.
  by rewrite Hc, Hi, Ht, Hs.
Qed.

Lemma raises_no_faults d0 h0 c : raises no_faults d0 h0 c = false.
Proof. unfold raises, no_faults. simpl. by rewrite andb_false_r. Qed.

Lemma record_known_no_faults (d : db) (n acc outcome : string) (q m : Q) (notes : string)
    (h : hospital) :
  schema_ok d -> List.find (has_name n) (hospitals d) = Some h ->
  record_case_outcome no_faults d n acc outcome q m notes
  = (true, committed d h (mkCase (id h) acc outcome q m notes)).
Proof.
  intros Hok Hfind.
  destruct (RatingLedger.record_case_outcome_unfold no_faults d n acc outcome q m notes Hok)
    as (h0 & Hname & _ & Hsame & ->).
  assert (Hd0 : (ensure_registered d n).2 = d).
  { apply Hsame. unfold select_id. rewrite Hfind. by eexists. }
  rewrite Hd0 in *. assert (h0 = h) by congruence. subst h0.
  by rewrite raises_no_faults.
Qed.

(** X7. A manual rating lasts until the next outcome is recorded for the
    hospital: the rating is then recomputed from the counters and the case
    rows alone, so the [hospitals] table ends up the same with or without
    the manual update before it. *)
Theorem manual_rating_overwritten_by_next_outcome (fm : manual_faults) (d : db)
    (n reason acc outcome : string) (new q m : Q) (notes : string) :
  schema_ok d ->
  let dm := (update_rating_manually fm d n new reason).2 in
  hospitals (record_case_outcome no_faults dm n acc outcome q m notes).2
  = hospitals (record_case_outcome no_faults d n acc outcome q m notes).2.
Proof.
  intros Hok dm.
  destruct (List.find (has_name n) (hospitals d)) as [h|] eqn:Hfind.
  2:{ assert (Hsel : select_id d n = None) by (unfold select_id; by rewrite Hfind).
      subst dm. by rewrite (manual_update_unknown fm d n new reason Hsel). }
  pose proof (manual_update_known fm d n h new reason Hok Hfind) as Hdm.
  destruct (fm ManualSelectRating || fm ManualUpdateRating || fm ManualInsertHistory
            || fm ManualCommit) eqn:E.
  { subst dm. by rewrite Hdm. }
  assert (Hfind' : List.find (has_name n) (hospitals dm) = Some (set_rating new h)).
  { subst dm. rewrite Hdm. simpl.
    rewrite (RatingLedger.find_update (has_name n) (id h) (set_rating new)) by reflexivity.
    rewrite Hfind. simpl. unfold has_id. by rewrite Z.eqb_refl. }
  assert (Hcases : case_history dm = case_history d) by (subst dm; by rewrite Hdm).
  assert (Hokm : schema_ok dm).
  { subst dm. destruct (manual_update_result fm d n new reason)
      as [-> | (h' & row & _ & _ & ->)]; [exact Hok|].
    eapply schema_ok_rows; [| |exact Hok]; [|reflexivity].
    simpl. by apply identity_update. }
  rewrite (record_known_no_faults dm n acc outcome q m notes _ Hokm Hfind').
  rewrite (record_known_no_faults d n acc outcome q m notes _ Hok Hfind).
  simpl. rewrite !RatingLedger.committed_hospitals.
  change (id (set_rating new h)) with (id h).
  rewrite (recomputed_rating_ignores_rating d dm h (set_rating new h)) by done.
  assert (Hrows : hospitals dm
                  = map (fun x => if has_id (id h) x then set_rating new x else x)
                      (hospitals d))
    by (subst dm; by rewrite Hdm).
  rewrite Hrows, map_map. apply map_ext. intros x.
  destruct (has_id (id h) x) eqn:Ex.
  - change (has_id (id h) (set_rating new x)) with (has_id (id h) x). by rewrite Ex.
  - by rewrite Ex.
Qed.

Lemma manual_rating_overwritten_by_next_outcome_witness :
  hospitals
    (record_case_outcome no_faults
       (update_rating_manually no_manual_faults apollo_db "Apollo" 1 "").2
       "Apollo" "case-2" "partial" 60 30 "").2
  = hospitals (record_case_outcome no_faults apollo_db "Apollo" "case-2" "partial" 60 30 "").2.
Proof.
  apply manual_rating_overwritten_by_next_outcome.
  split; vm_compute; repeat constructor; try discriminate; intros H; inversion H.
Defined.

(** *** Reports and rankings *)

Lemma py_round2_percent (x : Q) : (0 <= x <= 100)%Q -> (0 <= py_round2 x <= 100)%Q.
Proof.
  intros [Hl Hh]. unfold py_round2.
  assert (Hb : 0 <= py_round (x * 100) <= 10000).
  { apply py_round_bounds. change (inject_Z 0) with 0%Q.
    change (inject_Z 10000) with 10000%Q. lra. }
  destruct Hb as [Hb1 Hb2].
  rewrite Zle_Qle in Hb1, Hb2. change (inject_Z 0) with 0%Q in Hb1.
  change (inject_Z 10000) with 10000%Q in Hb2.
  unfold Qdiv. change (/ 100)%Q with (1 # 100)%Q. lra.
Qed.

(** X8. On every store reached from a fresh one, a report of
    [get_hospital_rating] has between zero and [total_cases] successful
    outcomes and a success rate between 0 and 100 percent. *)
Theorem report_success_rate_bounds (ops : list operation) (n : string) (ri : rating_info) :
  get_hospital_rating (run_operations init_database ops) n = Some ri ->
  0 <= ri_successful_outcomes ri <= ri_total_cases ri
  /\ (0 <= ri_success_rate_percent ri <= 100)%Q.
Proof.
  set (d := run_operations init_database ops).
  pose proof (lc_rows _ (proj2 (reachable_invariant ops init_database
                                 RatingLedger.schema_ok_init ledger_consistent_init)))
    as Hrows.
  fold d in Hrows.
  unfold get_hospital_rating.
  destruct (List.find (has_name n) (hospitals d)) as [h|] eqn:Hfind; [|discriminate].
  simpl. intros [= <-]. simpl.
  apply RatingLedger.find_in in Hfind. destruct Hfind as [Hin _].
  rewrite Forall_forall in Hrows. destruct (Hrows h Hin) as (Ht & Hs & _).
  assert (Hle : 0 <= successful_outcomes h <= total_cases h).
  { rewrite Ht, Hs. split; [lia|]. apply inj_le. apply filter_length_le. }
  split; [exact Hle|].
  apply py_round2_percent.
  destruct (Z.ltb_spec 0 (total_cases h)) as [Hpos|_]; [|lra].
  assert (Hq : (0 < inject_Z (total_cases h))%Q).
  { change 0%Q with (inject_Z 0). by rewrite <- Zlt_Qlt. }
  assert (Hs0 : (0 <= inject_Z (successful_outcomes h))%Q).
  { change 0%Q with (inject_Z 0). rewrite <- Zle_Qle. lia. }
  assert (Hst : (inject_Z (successful_outcomes h) <= inject_Z (total_cases h))%Q).
  { rewrite <- Zle_Qle. lia. }
  assert (Hrate : (0 <= inject_Z (successful_outcomes h) / inject_Z (total_cases h) <= 1)%Q).
  { split.
    - apply Qle_shift_div_l; [exact Hq|]. by rewrite Qmult_0_l.
    - apply Qle_shift_div_r; [exact Hq|]. by rewrite Qmult_1_l. }
  set (rate := (inject_Z (successful_outcomes h) / inject_Z (total_cases h))%Q) in *.
  clearbody rate. lra.
Qed.

Lemma report_success_rate_bounds_witness :
  exists ri,
    get_hospital_rating (run_operations init_database [RecordOutcome perfect_call]) "Apollo"
    = Some ri
    /\ 0 <= ri_successful_outcomes ri <= ri_total_cases ri.
Proof.
  destruct (get_hospital_rating (run_operations init_database [RecordOutcome perfect_call])
              "Apollo") as [ri|] eqn:Hri; [|by vm_compute in Hri].
  exists ri. split; [reflexivity|].
  exact (proj1 (report_success_rate_bounds [RecordOutcome perfect_call] "Apollo" ri Hri)).
Defined.

(** X9. [get_top_hospitals] returns as many entries as there are hospitals
    with at least one case, capped at [limit]; a limit of zero gives the
    empty list and a negative limit (no LIMIT in SQLite) gives them all. *)
Theorem top_hospitals_count (d : db) (limit : Z) :
  let qualifying := length (List.filter (fun h => 0 <? total_cases h) (hospitals d)) in
  length (get_top_hospitals d limit)
  = if limit <? 0 then qualifying else Nat.min (Z.to_nat limit) qualifying.
Proof.
  intros qualifying. unfold get_top_hospitals, select_top, sql_limit.
  rewrite length_map.
  assert (Hlen : length (stable_sort top_order
                   (List.filter (fun h => 0 <? total_cases h) (hospitals d))) = qualifying).
  { apply Permutation_length, stable_sort_perm. }
  destruct (limit <? 0); [exact Hlen|].
  by rewrite length_take, Hlen.
Qed.

End Ledger.

(** ** The path the bidirectional search returns *)

Module PathSoundness.
Import Graph BidirectionalDijkstra PathSpec.

(** *** Adjacency views *)

Lemma first_per_neighbor_find (v : Z) (l : list (Z * Z)) (seen : list Z) :
  List.find (fun nb => nb.1 =? v) (first_per_neighbor seen l)
  = if existsb (Z.eqb v) seen then None else List.find (fun nb => nb.1 =? v) l.
Proof.
  revert seen. induction l as [|[u w] l IH]; intros seen; simpl.
  - by destruct (existsb _ _).
  - destruct (existsb (Z.eqb u) seen) eqn:Eu.
    + rewrite IH. destruct (existsb (Z.eqb v) seen) eqn:Ev; [reflexivity|].
      destruct (Z.eqb_spec u v) as [->|]; [congruence | reflexivity].
    + simpl. destruct (Z.eqb_spec u v) as [->|Hne].
      * by rewrite Eu.
      * rewrite IH. simpl. destruct (Z.eqb_spec v u); [congruence|]. simpl. reflexivity.
Qed.

Lemma first_per_neighbor_elem (v w : Z) (l : list (Z * Z)) (seen : list Z) :
  (v, w) ∈ first_per_neighbor seen l ->
  List.find (fun nb => nb.1 =? v) (first_per_neighbor seen l) = Some (v, w).
Proof.
  revert seen. induction l as [|[u x] l IH]; intros seen; simpl.
  - intros H. by apply not_elem_of_nil in H.
  - destruct (existsb (Z.eqb u) seen) eqn:Eu; [apply IH|].
    intros H. apply elem_of_cons in H. simpl.
    destruct (Z.eqb_spec u v) as [->|Hne].
    + destruct H as [[= ->]|H]; [reflexivity|]. exfalso.
      apply IH in H. rewrite first_per_neighbor_find in H. simpl in H.
      by rewrite Z.eqb_refl in H.
    + destruct H as [[= -> ->]|H]; [congruence|]. by apply IH.
Qed.

Lemma find_map_filter {A} (P : Z * Z -> bool) (f : A -> Z * Z) (Q : A -> bool)
    (l : list A) :
  List.find P (map f (List.filter Q l)) = f <$> List.find (fun e => Q e && P (f e)) l.
Proof.
  induction l as [|e l IH]; simpl; [reflexivity|].
  destruct (Q e); simpl; [|exact IH].
  destruct (P (f e)); [reflexivity | exact IH].
Qed.

Lemma find_ext {A} (P Q : A -> bool) (l : list A) :
  (forall x, P x = Q x) -> List.find P l = List.find Q l.
Proof.
  intros H. induction l as [|x l IH]; simpl; [reflexivity|]. by rewrite H, IH.
Qed.

(** Both views read the same edge: the first one from [u] to [v]. *)
Lemma edge_weight_first_edge (g : Graph.t) (u v : Z) :
  edge_weight g u v
  = weight <$> List.find (fun e => (src e =? u) && (dst e =? v)) (edges g).
Proof.
  unfold edge_weight, successors. rewrite first_per_neighbor_find. simpl.
  rewrite find_map_filter. simpl. by destruct (List.find _ _).
Qed.

Lemma successor_weight (g : Graph.t) (u v w : Z) :
  (v, w) ∈ successors g u -> edge_weight g u v = Some w.
Proof.
  intros H. unfold edge_weight. unfold successors in *.
  by rewrite (first_per_neighbor_elem v w _ _ H).
Qed.

Lemma predecessor_weight (g : Graph.t) (u v w : Z) :
  (u, w) ∈ predecessors g v -> edge_weight g u v = Some w.
Proof.
  intros H. rewrite edge_weight_first_edge. unfold predecessors in H.
  apply first_per_neighbor_elem in H. rewrite first_per_neighbor_find in H. simpl in H.
  rewrite find_map_filter in H. simpl in H.
  rewrite (find_ext _ (fun e => (src e =? u) && (dst e =? v))) in H
    by (intros e; apply andb_comm).
  destruct (List.find _ _) as [e|]; [|discriminate]. simpl in *. congruence.
Qed.

(** *** The heap *)

Lemma tuple_ltb_true (a b : Z * Z) :
  Heap.tuple_ltb a b = true <-> a.1 < b.1 \/ (a.1 = b.1 /\ a.2 < b.2).
Proof.
  unfold Heap.tuple_ltb.
  destruct (Z.ltb_spec a.1 b.1), (Z.eqb_spec a.1 b.1), (Z.ltb_spec a.2 b.2);
    simpl; split; try done; try lia; intros _; lia.
Qed.

Lemma tuple_ltb_false (a b : Z * Z) :
  Heap.tuple_ltb a b = false <-> b.1 < a.1 \/ (b.1 = a.1 /\ b.2 <= a.2).
Proof.
  unfold Heap.tuple_ltb.
  destruct (Z.ltb_spec a.1 b.1), (Z.eqb_spec a.1 b.1), (Z.ltb_spec a.2 b.2);
    simpl; split; try done; try lia; intros _; lia.
Qed.

Lemma least_spec (x : Z * Z) (l : Heap.t) :
  Heap.least x l ∈ x :: l
  /\ forall y, y ∈ x :: l -> Heap.tuple_ltb y (Heap.least x l) = false.
Proof.
  unfold Heap.least. revert x. induction l as [|z l IH]; intros x; simpl.
  - split; [apply list_elem_of_here|]. intros y Hy.
    apply list_elem_of_singleton in Hy. subst y. apply tuple_ltb_false. lia.
  - set (x' := if Heap.tuple_ltb z x then z else x).
    assert (Hx' : (x' = z /\ Heap.tuple_ltb z x = true)
                  \/ (x' = x /\ Heap.tuple_ltb z x = false)).
    { subst x'. destruct (Heap.tuple_ltb z x); [by left | by right]. }
    clearbody x'. destruct (IH x') as [Hin Hmin].
    pose proof (Hmin x' (list_elem_of_here _ _)) as Hm.
    apply tuple_ltb_false in Hm.
    set (m := foldl (fun m y => if Heap.tuple_ltb y m then y else m) x' l) in *.
    clearbody m.
    assert (Hmx : Heap.tuple_ltb x m = false /\ Heap.tuple_ltb z m = false).
    { rewrite !tuple_ltb_false.
      destruct Hx' as [[-> Hlt]|[-> Hlt]].
      - apply tuple_ltb_true in Hlt. lia.
      - apply tuple_ltb_false in Hlt. lia. }
    split.
    + apply elem_of_cons in Hin. destruct Hin as [Hin|Hin].
      * rewrite Hin. destruct Hx' as [[-> _]|[-> _]];
          [apply list_elem_of_further, list_elem_of_here | apply list_elem_of_here].
      * by do 2 apply list_elem_of_further.
    + intros y Hy. apply elem_of_cons in Hy. destruct Hy as [->|Hy]; [apply Hmx|].
      apply elem_of_cons in Hy. destruct Hy as [->|Hy]; [apply Hmx|].
      apply Hmin. by apply list_elem_of_further.
Qed.

Lemma remove_first_spec (m : Z * Z) (h : Heap.t) :
  (forall x, x ∈ Heap.remove_first m h -> x ∈ h)
  /\ (forall x, x ∈ h -> x = m \/ x ∈ Heap.remove_first m h).
Proof.
  induction h as [|y h [IH1 IH2]]; simpl.
  { split; [done|]. intros x Hx. by apply not_elem_of_nil in Hx. }
  destruct ((y.1 =? m.1) && (y.2 =? m.2)) eqn:E.
  - split; [intros x Hx; by apply list_elem_of_further|].
    intros x Hx. apply elem_of_cons in Hx. destruct Hx as [->|Hx]; [|by right].
    left. destruct y, m. simpl in *. f_equal; lia.
  - split.
    + intros x Hx. apply elem_of_cons in Hx. destruct Hx as [->|Hx];
        [apply list_elem_of_here | by apply list_elem_of_further, IH1].
    + intros x Hx. apply elem_of_cons in Hx. destruct Hx as [->|Hx].
      * right. apply list_elem_of_here.
      * destruct (IH2 x Hx); [by left | right; by apply list_elem_of_further].
Qed.

Lemma heappop_spec (h h' : Heap.t) (m : Z * Z) :
  Heap.heappop h = Some (m, h') ->
  m ∈ h
  /\ (forall y, y ∈ h -> Heap.tuple_ltb y m = false)
  /\ (forall x, x ∈ h' -> x ∈ h)
  /\ (forall x, x ∈ h -> x = m \/ x ∈ h').
Proof.
  unfold Heap.heappop. destruct h as [|x r]; [discriminate|]. intros [= <- <-].
  destruct (least_spec x r) as [Hin Hmin].
  destruct (remove_first_spec (Heap.least x r) (x :: r)) as [H1 H2].
  by repeat split.
Qed.

(** *** Predecessor chains *)

Section Chains.
Variable arc : Z -> Z -> Z -> Prop.
Variable s : Z.

Lemma chain_head prev n l d : chain arc prev s n l d -> exists tl, l = n :: tl.
Proof. destruct 1; eauto. Qed.

Lemma chain_insert prev n l d k v :
  chain arc prev s n l d -> k ∉ l -> chain arc (<[k := v]> prev) s n l d.
Proof.
  induction 1 as [Hs|n p l d w Hn Hc IH Harc]; intros Hk.
  - apply chain_start. rewrite lookup_insert_ne; [exact Hs|].
    intros ->. apply Hk, list_elem_of_here.
  - apply not_elem_of_cons in Hk. destruct Hk as [Hkn Hkl].
    eapply chain_step; [|by apply IH|exact Harc].
    by rewrite lookup_insert_ne.
Qed.

Lemma chain_keys prev n l d :
  chain arc prev s n l d -> forall x, x ∈ l -> is_Some (prev !! x).
Proof.
  induction 1 as [Hs|n p l d w Hn Hc IH Harc]; intros x Hx.
  - apply list_elem_of_singleton in Hx. subst x. by eexists.
  - apply elem_of_cons in Hx. destruct Hx as [->|Hx]; [by eexists | by apply IH].
Qed.

Lemma chain_length prev n l d :
  chain arc prev s n l d -> NoDup l -> (length l <= size prev)%nat.
Proof.
  intros Hc Hnd. rewrite <- (size_dom (D := gset Z)).
  change (length l <= length (elements (dom prev : gset Z)))%nat.
  apply submseteq_length, NoDup_submseteq; [exact Hnd|].
  intros x Hx. apply elem_of_elements, elem_of_dom. by eapply chain_keys.
Qed.

Lemma walk_chain prev n l d (fuel : nat) :
  chain arc prev s n l d -> (length l <= fuel)%nat -> walk prev fuel (Some n) = l.
Proof.
  intros Hc. revert fuel. induction Hc as [Hs|n p l d w Hn Hc IH Harc]; intros fuel Hf.
  - destruct fuel as [|k]; [simpl in Hf; lia|]. simpl. rewrite Hs. simpl.
    by destruct k.
  - destruct fuel as [|k]; [simpl in Hf; lia|]. simpl. rewrite Hn. simpl.
    f_equal. apply IH. simpl in Hf. lia.
Qed.

Lemma chain_last prev n l d : chain arc prev s n l d -> last l = Some s.
Proof.
  induction 1 as [Hs|n p l d w Hn Hc IH Harc]; [reflexivity|].
  destruct (chain_head _ _ _ _ Hc) as [tl ->]. exact IH.
Qed.

(** With the start's entry fixed, the chain of a node is determined by
    where it begins. *)
Lemma chain_at_start prev l d :
  prev !! s = Some None -> chain arc prev s s l d -> l = [s] /\ d = 0.
Proof. intros Hs Hc. inversion Hc; subst; [by split | congruence]. Qed.
End Chains.

(** *** The meeting point *)

Lemma lt_min_total_false (a : Z) (m : meeting) :
  lt_min_total a m = false <-> exists t, min_total_dist m = Some t /\ t <= a.
Proof.
  unfold lt_min_total. destruct (min_total_dist m) as [t|].
  - rewrite Z.ltb_ge. split; [eauto|]. by intros (t' & [= <-] & H).
  - split; [discriminate|]. by intros (t' & [=] & _).
Qed.

Lemma meet_inv_sym (own other : gmap Z Z) (m : meeting) :
  meet_inv own other m -> meet_inv other own m.
Proof.
  intros [Ht Hb Hl]. split; [|exact Hb|].
  - intros mp t Hmp Hmt. destruct (Ht mp t Hmp Hmt) as (a & b & Ha & Hb' & ->).
    exists b, a. split; [exact Hb'|]. split; [exact Ha|]. lia.
  - intros x a b Ha Hb'. rewrite Z.add_comm. by apply (Hl x).
Qed.

(** A check with a distance that is no better than the tentative one
    changes nothing. *)
Lemma check_meeting_stale (own other : gmap Z Z) (m : meeting) (n new old : Z) :
  meet_inv own other m -> own !! n = Some old -> old <= new ->
  check_meeting other n new m = m.
Proof.
  intros Hm Hn Hle. unfold check_meeting, meet_at.
  destruct (other !! n) as [od|] eqn:Ho; [|reflexivity].
  pose proof (mi_least _ _ _ Hm n old od Hn Ho) as Hl.
  apply lt_min_total_false in Hl. destruct Hl as (t & Ht & Hle').
  assert (Hf : lt_min_total (new + od) m = false).
  { apply lt_min_total_false. exists t. split; [exact Ht | lia]. }
  by rewrite Hf.
Qed.

(** A check right after a tentative distance improved keeps the
    invariant. *)
Lemma check_meeting_improved (own other : gmap Z Z) (m : meeting) (n new : Z) :
  meet_inv own other m ->
  (forall old, own !! n = Some old -> new < old) ->
  meet_inv (<[n := new]> own) other (check_meeting other n new m).
Proof.
  intros Hm Himp. unfold check_meeting, meet_at.
  assert (Hkeep : (forall b, other !! n = Some b -> lt_min_total (new + b) m = false) ->
                  meet_inv (<[n := new]> own) other m).
  { intros Hn. split; [|apply (mi_both _ _ _ Hm)|].
    - intros mp t Hmp Hmt. destruct (mi_total _ _ _ Hm mp t Hmp Hmt) as (a & b & Ha & Hb & ->).
      destruct (decide (mp = n)) as [->|Hne].
      + exfalso. specialize (Hn b Hb). apply lt_min_total_false in Hn.
        destruct Hn as (t & Ht & Hle). specialize (Himp a Ha).
        rewrite Hmt in Ht. injection Ht as <-. lia.
      + exists a, b. by rewrite lookup_insert_ne.
    - intros x a b Ha Hb. destruct (decide (x = n)) as [->|Hne].
      + rewrite lookup_insert_eq in Ha. injection Ha as <-. by apply Hn.
      + rewrite lookup_insert_ne in Ha by done. by apply (mi_least _ _ _ Hm x). }
  destruct (other !! n) as [od|] eqn:Ho.
  2:{ apply Hkeep. intros b Hb. discriminate. }
  destruct (lt_min_total (new + od) m) eqn:L.
  2:{ apply Hkeep. intros b [= <-]. exact L. }
  split; simpl.
  - intros mp t [= <-] [= <-]. exists new, od. by rewrite lookup_insert_eq.
  - split; discriminate.
  - intros x a b Ha Hb. unfold lt_min_total. simpl. apply Z.ltb_ge.
    destruct (decide (x = n)) as [->|Hne].
    + rewrite lookup_insert_eq in Ha. injection Ha as <-. rewrite Ho in Hb.
      injection Hb as <-. lia.
    + rewrite lookup_insert_ne in Ha by done.
      pose proof (mi_least _ _ _ Hm x a b Ha Hb) as Hl.
      apply lt_min_total_false in Hl. destruct Hl as (t & Ht & Hle).
      unfold lt_min_total in L. rewrite Ht in L. apply Z.ltb_lt in L. lia.
Qed.

(** *** One direction of the search *)

Section Side.
Variable arc : Z -> Z -> Z -> Prop.
Variable s : Z.

Lemma relax_improved_side (node d w : Z) (S : side) (n : Z) :
  side_inv arc s S ->
  s ∈ visited S -> node ∈ visited S -> dist S !! node = Some d ->
  arc node n w -> n ∉ visited S ->
  (forall old, dist S !! n = Some old -> d + w < old) ->
  side_inv arc s
    (mkSide (<[n := d + w]> (dist S)) (<[n := Some node]> (prev S))
       (Heap.heappush (heap S) (d + w, n)) (visited S)).
Proof.
  intros [Hstart Hchain Hvis Hq Hheap Hbegun] Hs Hnode Hd Harc Hn Himp.
  assert (Hns : n <> s) by (intros ->; done).
  destruct (Hchain node d Hd) as (ln & Hcn & Hndn & Htn).
  destruct (chain_head _ _ _ _ _ _ Hcn) as [tn ->]. simpl in Htn.
  assert (Hall : forall x, x ∈ node :: tn -> x ∈ visited S).
  { intros x Hx. apply elem_of_cons in Hx. destruct Hx as [->|Hx]; [done | by apply Htn]. }
  assert (Hnot : n ∉ node :: tn) by (intros Hx; by apply Hn, Hall).
  split; simpl.
  - destruct Hstart as [H1 H2]. by rewrite !lookup_insert_ne.
  - intros x dx Hx. destruct (decide (x = n)) as [->|Hne].
    + rewrite lookup_insert_eq in Hx. injection Hx as <-.
      exists (n :: node :: tn). split; [|split].
      * eapply chain_step; [apply lookup_insert_eq | by apply chain_insert | exact Harc].
      * by apply NoDup_cons.
      * simpl. exact Hall.
    + rewrite lookup_insert_ne in Hx by done.
      destruct (Hchain x dx Hx) as (l & Hc & Hnd & Htl).
      destruct (chain_head _ _ _ _ _ _ Hc) as [tl ->]. simpl in Htl.
      exists (x :: tl). split; [|by split].
      apply chain_insert; [exact Hc|].
      intros Hin. apply elem_of_cons in Hin. destruct Hin as [->|Hin]; [done|].
      by apply Hn, Htl.
  - intros x Hx. apply lookup_insert_is_Some'. right. by apply Hvis.
  - intros x dx Hx Hdx. unfold Heap.heappush.
    destruct (decide (x = n)) as [->|Hne].
    + rewrite lookup_insert_eq in Hdx. injection Hdx as <-. apply list_elem_of_here.
    + rewrite lookup_insert_ne in Hdx by done. apply list_elem_of_further. by apply Hq.
  - intros dx x Hx. unfold Heap.heappush in Hx. apply elem_of_cons in Hx.
    destruct Hx as [[= -> ->]|Hx].
    + exists (d + w). by rewrite lookup_insert_eq.
    + destruct (Hheap dx x Hx) as (d' & Hd' & Hle).
      destruct (decide (x = n)) as [->|Hne].
      * exists (d + w). rewrite lookup_insert_eq. split; [reflexivity|].
        specialize (Himp d' Hd'). lia.
      * exists d'. by rewrite lookup_insert_ne.
  - by left.
Qed.

Lemma relax_inv (node d : Z) (other : gmap Z Z) (S : side) (m : meeting) (nb : Z * Z) :
  side_inv arc s S -> meet_inv (dist S) other m ->
  s ∈ visited S -> node ∈ visited S -> dist S !! node = Some d ->
  arc node nb.1 nb.2 ->
  side_inv arc s (relax node d other (S, m) nb).1
  /\ meet_inv (dist (relax node d other (S, m) nb).1) other
       (relax node d other (S, m) nb).2
  /\ visited (relax node d other (S, m) nb).1 = visited S
  /\ dist (relax node d other (S, m) nb).1 !! node = Some d.
Proof.
  intros HS Hm Hs Hnode Hd Harc. destruct nb as [n w]. simpl in Harc.
  unfold relax. case_bool_decide as Hn;
    [simpl; split; [exact HS|split; [exact Hm|split; [reflexivity|exact Hd]]]|].
  assert (Hns : n <> s) by (intros ->; done).
  assert (Hnn : n <> node) by (intros ->; done).
  destruct (dist S !! n) as [old|] eqn:Hold.
  - destruct (Z.ltb_spec (d + w) old) as [Hlt|Hge]; simpl.
    2:{ rewrite (check_meeting_stale (dist S) other m n (d + w) old Hm Hold Hge).
        split; [exact HS|split; [exact Hm|split; [reflexivity|exact Hd]]]. }
    split; [|split; [|split]].
    + apply (relax_improved_side node d w S n); try done.
      intros o Ho. congruence.
    + apply check_meeting_improved; [exact Hm|]. intros o Ho. congruence.
    + reflexivity.
    + by rewrite lookup_insert_ne.
  - simpl. split; [|split; [|split]].
    + apply (relax_improved_side node d w S n); try done.
      intros o Ho. congruence.
    + apply check_meeting_improved; [exact Hm|]. intros o Ho. congruence.
    + reflexivity.
    + by rewrite lookup_insert_ne.
Qed.

Lemma relax_fold_inv (node d : Z) (other : gmap Z Z) (l : list (Z * Z))
    (S : side) (m : meeting) :
  side_inv arc s S -> meet_inv (dist S) other m ->
  s ∈ visited S -> node ∈ visited S -> dist S !! node = Some d ->
  Forall (fun nb => arc node nb.1 nb.2) l ->
  side_inv arc s (foldl (relax node d other) (S, m) l).1
  /\ meet_inv (dist (foldl (relax node d other) (S, m) l).1) other
       (foldl (relax node d other) (S, m) l).2.
Proof.
  revert S m. induction l as [|nb l IH]; intros S m HS Hm Hs Hnode Hd Hall;
    [by split|].
  apply Forall_cons in Hall. destruct Hall as [Harc Hall]. cbn [foldl].
  destruct (relax_inv node d other S m nb HS Hm Hs Hnode Hd Harc)
    as (HS' & Hm' & Hv & Hd').
  destruct (relax node d other (S, m) nb) as [S' m'].
  cbn [fst snd] in HS', Hm', Hv, Hd'.
  apply (IH S' m'); try done; by rewrite Hv.
Qed.

Lemma pop_visited (S : side) (d node : Z) (h : Heap.t) :
  side_inv arc s S -> Heap.heappop (heap S) = Some ((d, node), h) ->
  node ∈ visited S ->
  side_inv arc s (mkSide (dist S) (prev S) h (visited S)).
Proof.
  intros [Hstart Hchain Hvis Hq Hheap Hbegun] Hpop Hnode.
  destruct (heappop_spec _ _ _ Hpop) as (Hin & Hmin & Hsub & Hrest).
  split; simpl; try done.
  - intros n dn Hn Hdn. destruct (Hrest _ (Hq n dn Hn Hdn)) as [[= -> ->]|H]; done.
  - intros dn n Hn. by apply Hheap, Hsub.
Qed.

Lemma pop_unvisited (S : side) (d node : Z) (h : Heap.t) :
  side_inv arc s S -> Heap.heappop (heap S) = Some ((d, node), h) ->
  node ∉ visited S ->
  dist S !! node = Some d
  /\ s ∈ {[node]} ∪ visited S
  /\ side_inv arc s (mkSide (dist S) (prev S) h ({[node]} ∪ visited S)).
Proof.
  intros [Hstart Hchain Hvis Hq Hheap Hbegun] Hpop Hnode.
  destruct (heappop_spec _ _ _ Hpop) as (Hin & Hmin & Hsub & Hrest).
  assert (Hd : dist S !! node = Some d).
  { destruct (Hheap d node Hin) as (d' & Hd' & Hle).
    specialize (Hmin _ (Hq node d' Hnode Hd')).
    apply tuple_ltb_false in Hmin. simpl in Hmin.
    rewrite Hd'. f_equal. lia. }
  assert (Hs : s ∈ {[node]} ∪ visited S).
  { apply elem_of_union. destruct Hbegun as [H|H]; [by right|].
    rewrite H in Hd. apply lookup_singleton_Some in Hd. destruct Hd as [Hd _].
    left. by apply elem_of_singleton. }
  split; [exact Hd|]. split; [exact Hs|].
  split; simpl; try done.
  - intros n dn Hn. destruct (Hchain n dn Hn) as (l & Hc & Hnd & Htl).
    exists l. split; [exact Hc|]. split; [exact Hnd|].
    intros x Hx. apply elem_of_union. right. by apply Htl.
  - intros n Hn. apply elem_of_union in Hn. destruct Hn as [Hn|Hn]; [|by apply Hvis].
    apply elem_of_singleton in Hn. subst n. by eexists.
  - intros n dn Hn Hdn. apply not_elem_of_union in Hn. destruct Hn as [Hn1 Hn2].
    destruct (Hrest _ (Hq n dn Hn2 Hdn)) as [[= -> ->]|H]; [|done].
    exfalso. apply Hn1. by apply elem_of_singleton.
  - intros dn n Hn. by apply Hheap, Hsub.
  - by left.
Qed.

Variable g : Graph.t.
Variable neighbors : Graph.t -> Z -> list (Z * Z).
Hypothesis neighbors_arc : forall p nb, nb ∈ neighbors g p -> arc p nb.1 nb.2.

Lemma search_step_inv (S : side) (other : gmap Z Z) (m : meeting) :
  side_inv arc s S -> meet_inv (dist S) other m ->
  match search_step g neighbors S other m with
  | Skipped S' => side_inv arc s S' /\ dist S' = dist S
  | Expanded S' m' => side_inv arc s S' /\ meet_inv (dist S') other m'
  | Idle | KeyError => True
  end.
Proof.
  intros HS Hm. unfold search_step.
  destruct (Heap.heappop (heap S)) as [[[d node] h]|] eqn:Hpop; [|done].
  case_bool_decide as Hnode.
  { split; [by eapply pop_visited | reflexivity]. }
  destruct (Graph.has_node g node); [|done].
  destruct (pop_unvisited S d node h HS Hpop Hnode) as (Hd & Hs & HS1).
  set (s1 := mkSide (dist S) (prev S) h ({[node]} ∪ visited S)) in *.
  assert (Hm1 : check_meeting other node d m = m)
    by (by apply (check_meeting_stale (dist S) other m node d d)).
  rewrite Hm1.
  pose proof (relax_fold_inv node d other (neighbors g node) s1 m HS1 Hm Hs) as Hfold.
  destruct (foldl (relax node d other) (s1, m) (neighbors g node)) as [s2 m2].
  simpl in Hfold. apply Hfold.
  - subst s1. simpl. apply elem_of_union. left. by apply elem_of_singleton.
  - exact Hd.
  - apply Forall_forall. intros nb Hnb. by apply neighbors_arc.
Qed.
End Side.

(** *** The loop *)

Lemma walk_length_cons (g : Graph.t) (u v : Z) (r : list Z) :
  ReferenceDijkstra.walk_length g (u :: v :: r)
  = w ← edge_weight g u v; l ← ReferenceDijkstra.walk_length g (v :: r); Some (w + l).
Proof. reflexivity. Qed.

Lemma walk_length_join (g : Graph.t) (q r : list Z) (n a b : Z) :
  ReferenceDijkstra.walk_length g (q ++ [n]) = Some a ->
  ReferenceDijkstra.walk_length g (n :: r) = Some b ->
  ReferenceDijkstra.walk_length g (q ++ n :: r) = Some (a + b).
Proof.
  revert a. induction q as [|u q IH]; intros a Ha Hb.
  - simpl in Ha. injection Ha as <-. simpl app. rewrite Hb. apply f_equal. lia.
  - destruct q as [|v q].
    + simpl app in *. rewrite walk_length_cons in Ha |- *. rewrite Hb.
      destruct (edge_weight g u n) as [w|]; [|discriminate]. simpl in Ha |- *.
      injection Ha as <-. apply f_equal. lia.
    + simpl app in *. rewrite walk_length_cons in Ha |- *.
      destruct (ReferenceDijkstra.walk_length g (v :: q ++ [n])) as [x|] eqn:E.
      2:{ destruct (edge_weight g u v); discriminate. }
      rewrite (IH x eq_refl Hb).
      destruct (edge_weight g u v) as [w|]; [|discriminate]. simpl in Ha |- *.
      injection Ha as <-. apply f_equal. lia.
Qed.

(** The forward chain of a node, reversed, is a walk from the source. *)
Lemma forward_chain_walk (g : Graph.t) prev (s n : Z) (l : list Z) (d : Z) :
  chain (forward_arc g) prev s n l d ->
  exists q, rev l = q ++ [n]
            /\ ReferenceDijkstra.walk_length g (rev l) = Some d
            /\ head (rev l) = Some s.
Proof.
  induction 1 as [Hs|n p l d w Hn Hc IH Harc].
  - exists []. by repeat split.
  - destruct IH as (q & Hq & Hw & Hh). exists (rev l). simpl.
    split; [reflexivity|]. split.
    + rewrite Hq, <- app_assoc. simpl.
      replace (d + w) with (d + (w + 0)) by lia.
      apply walk_length_join; [by rewrite <- Hq|].
      rewrite walk_length_cons. unfold forward_arc in Harc. by rewrite Harc.
    + rewrite Hq in Hh |- *. by destruct q.
Qed.

(** The backward chain of a node is a walk to the target. *)
Lemma backward_chain_walk (g : Graph.t) prev (t n : Z) (l : list Z) (d : Z) :
  chain (backward_arc g) prev t n l d ->
  ReferenceDijkstra.walk_length g l = Some d.
Proof.
  induction 1 as [Hs|n p l d w Hn Hc IH Harc]; [reflexivity|].
  destruct (chain_head _ _ _ _ _ _ Hc) as [tl ->].
  rewrite walk_length_cons, IH. unfold backward_arc in Harc. rewrite Harc. simpl.
  apply f_equal. lia.
Qed.

Lemma reconstruct_sound (g : Graph.t) (s t : Z) (st : state) (mp total : Z) :
  state_inv g s t st ->
  meeting_point (meet st) = Some mp -> min_total_dist (meet st) = Some total ->
  path_ok g s t (Path (reconstruct (fwd st) (bwd st) mp) total).
Proof.
  intros [Hf Hb Hm] Hmp Hmt.
  destruct (mi_total _ _ _ Hm mp total Hmp Hmt) as (a & b & Ha & Hb' & ->).
  destruct (si_chain _ _ _ Hf mp a Ha) as (lf & Hcf & Hndf & _).
  destruct (si_chain _ _ _ Hb mp b Hb') as (lb & Hcb & Hndb & _).
  pose proof (chain_length _ _ _ _ _ _ Hcf Hndf) as Hlf.
  pose proof (chain_length _ _ _ _ _ _ Hcb Hndb) as Hlb.
  unfold reconstruct.
  rewrite (walk_chain _ _ _ _ _ _ (S (size (prev (fwd st)))) Hcf) by lia.
  assert (Hback : walk (prev (bwd st)) (S (size (prev (bwd st))))
                    (mjoin (prev (bwd st) !! mp)) = tail lb).
  { inversion Hcb as [Hs|n p l d w Hn Hc Harc]; subst.
    - rewrite Hs. reflexivity.
    - rewrite Hn. simpl mjoin. simpl tail.
      apply (walk_chain _ _ _ _ _ _ _ Hc). simpl in Hlb. lia. }
  rewrite Hback.
  destruct (forward_chain_walk g _ _ _ _ _ Hcf) as (q & Hq & Hwf & Hhead).
  pose proof (backward_chain_walk g _ _ _ _ _ Hcb) as Hwb.
  pose proof (chain_last _ _ _ _ _ _ Hcb) as Hlast.
  destruct (chain_head _ _ _ _ _ _ Hcb) as [tl ->]. simpl tail.
  rewrite Hq in Hwf, Hhead |- *. rewrite <- app_assoc. simpl.
  split; [by apply walk_length_join|]. split.
  - destruct q; exact Hhead.
  - rewrite last_app. simpl in Hlast |- *. by rewrite Hlast.
Qed.

Lemma early_termination_sound (g : Graph.t) (s t : Z) (st : state) (r : result) :
  state_inv g s t st -> early_termination st = Some r -> path_ok g s t r.
Proof.
  intros Hst. unfold early_termination.
  destruct (meeting_point (meet st)) as [mp|] eqn:Hmp; [|discriminate].
  destruct (min_total_dist (meet st)) as [total|] eqn:Hmt; [|discriminate].
  destruct (mp =? 0); [discriminate|]. intros [= <-].
  by apply reconstruct_sound.
Qed.

Lemma successors_arc (g : Graph.t) (p : Z) (nb : Z * Z) :
  nb ∈ successors g p -> forward_arc g p nb.1 nb.2.
Proof. destruct nb as [v w]. apply successor_weight. Qed.

Lemma predecessors_arc (g : Graph.t) (p : Z) (nb : Z * Z) :
  nb ∈ predecessors g p -> backward_arc g p nb.1 nb.2.
Proof. destruct nb as [v w]. apply predecessor_weight. Qed.

Lemma iteration_inv (g : Graph.t) (s t : Z) (st : state) :
  state_inv g s t st ->
  match iteration g st with
  | inl st' => state_inv g s t st'
  | inr r => path_ok g s t r
  end.
Proof.
  intros Hst. pose proof Hst as [Hf Hb Hm]. unfold iteration.
  pose proof (search_step_inv (forward_arc g) s g successors (successors_arc g)
                (fwd st) (dist (bwd st)) (meet st) Hf Hm) as Hfs.
  destruct (search_step g successors (fwd st) (dist (bwd st)) (meet st))
    as [|f|f m|]; [| |simpl|done].
  - (* the forward heap was empty *)
    pose proof (search_step_inv (backward_arc g) t g predecessors (predecessors_arc g)
                  (bwd st) (dist (fwd st)) (meet st) Hb (meet_inv_sym _ _ _ Hm)) as Hbs.
    destruct (search_step g predecessors (bwd st) (dist (fwd st)) (meet st))
      as [|b|b m|]; [| | |done].
    + destruct (early_termination st) as [r|] eqn:E; [|exact Hst].
      by eapply early_termination_sound.
    + destruct Hbs as [Hb' Hd]. split; simpl; [exact Hf | exact Hb' | by rewrite Hd].
    + destruct Hbs as [Hb' Hm'].
      assert (Hst' : state_inv g s t (mkState (fwd st) b m))
        by (split; simpl; [exact Hf | exact Hb' | by apply meet_inv_sym]).
      destruct (early_termination _) as [r|] eqn:E; [|exact Hst'].
      by eapply early_termination_sound.
  - destruct Hfs as [Hf' Hd]. split; simpl; [exact Hf' | exact Hb | by rewrite Hd].
  - destruct Hfs as [Hf' Hm'].
    pose proof (search_step_inv (backward_arc g) t g predecessors (predecessors_arc g)
                  (bwd st) (dist f) m Hb (meet_inv_sym _ _ _ Hm')) as Hbs.
    destruct (search_step g predecessors (bwd st) (dist f) m) as [|b|b m2|]; [| | |done].
    + assert (Hst' : state_inv g s t (mkState f (bwd st) m)) by (by split).
      destruct (early_termination _) as [r|] eqn:E; [|exact Hst'].
      by eapply early_termination_sound.
    + destruct Hbs as [Hb' Hd]. split; simpl; [exact Hf' | exact Hb' | by rewrite Hd].
    + destruct Hbs as [Hb' Hm2].
      assert (Hst' : state_inv g s t (mkState f b m2))
        by (split; simpl; [exact Hf' | exact Hb' | by apply meet_inv_sym]).
      destruct (early_termination _) as [r|] eqn:E; [|exact Hst'].
      by eapply early_termination_sound.
Qed.

Lemma while_loop_sound (g : Graph.t) (s t : Z) (fuel : nat) (st : state) :
  state_inv g s t st -> path_ok g s t (while_loop fuel g st).
Proof.
  revert st. induction fuel as [|k IH]; intros st Hst; [exact I|]. simpl.
  pose proof (iteration_inv g s t st Hst) as Hit.
  destruct (heap (fwd st)), (heap (bwd st)); try exact I;
    destruct (iteration g st) as [st'|r]; try exact Hit; by apply IH.
Qed.

Lemma initial_side_inv (arc : Z -> Z -> Z -> Prop) (s : Z) : side_inv arc s (initial s).
Proof.
  split; simpl.
  - by rewrite !lookup_singleton_eq.
  - intros n d Hn. apply lookup_singleton_Some in Hn. destruct Hn as [<- <-].
    exists [s]. split; [apply chain_start; by rewrite lookup_singleton_eq|].
    split; [apply NoDup_singleton|]. intros x Hx. by apply not_elem_of_nil in Hx.
  - intros n Hn. by apply not_elem_of_empty in Hn.
  - intros n d _ Hn. apply lookup_singleton_Some in Hn. destruct Hn as [<- <-].
    apply list_elem_of_here.
  - intros d n Hn. apply list_elem_of_singleton in Hn. injection Hn as -> ->.
    exists 0. by rewrite lookup_singleton_eq.
  - by right.
Qed.

Lemma find_shortest_path_ok (g : Graph.t) (s t : Z) :
  path_ok g s t (find_shortest_path g s t).
Proof.
  unfold find_shortest_path. destruct (Z.eqb_spec s t) as [->|Hne].
  - by repeat split.
  - apply while_loop_sound.
    split; simpl; [apply initial_side_inv..|].
    split; simpl; [discriminate|done|].
    intros x a b Ha Hb. apply lookup_singleton_Some in Ha, Hb.
    destruct Ha as [<- _], Hb as [Hb _]. congruence.
Qed.

(** X10. Whenever [find_shortest_path] returns a path, the path starts at
    the source, ends at the target, every two consecutive nodes are joined
    by a road of the graph, and the returned distance is the sum of the road
    lengths along it. In particular it never returns a path when the
    target cannot be reached. (The path need not be a shortest one.) *)
Theorem returned_path_is_a_walk (g : Graph.t) (s t : Z) (p : list Z) (d : Z) :
  find_shortest_path g s t = Path p d ->
  ReferenceDijkstra.walk_length g p = Some d /\ head p = Some s /\ last p = Some t.
Proof.
  intros Hp. pose proof (find_shortest_path_ok g s t) as Hok.
  rewrite Hp in Hok. exact Hok.
Qed.

Lemma returned_path_is_a_walk_witness :
  ReferenceDijkstra.walk_length RouteSpec.detour_graph [1; 4] = Some 10.
Proof.
  refine (proj1 (returned_path_is_a_walk RouteSpec.detour_graph 1 4 [1; 4] 10 _)).
  vm_compute. reflexivity.
Defined.

(** *** Termination *)

Lemma remove_first_length (m : Z * Z) (h : Heap.t) :
  m ∈ h -> S (length (Heap.remove_first m h)) = length h.
Proof.
  induction h as [|y h IH]; intros Hin; [by apply not_elem_of_nil in Hin|]. simpl.
  destruct ((y.1 =? m.1) && (y.2 =? m.2)) eqn:E; [reflexivity|].
  apply elem_of_cons in Hin. destruct Hin as [->|Hin].
  - rewrite !Z.eqb_refl in E. discriminate.
  - simpl. by rewrite IH.
Qed.

Lemma heappop_length (h h' : Heap.t) (m : Z * Z) :
  Heap.heappop h = Some (m, h') -> S (length h') = length h.
Proof.
  intros Hpop. destruct (heappop_spec _ _ _ Hpop) as (Hin & _).
  unfold Heap.heappop in Hpop. destruct h as [|x r]; [discriminate|].
  injection Hpop as <- <-. exact (remove_first_length _ (x :: r) Hin).
Qed.

Lemma relax_count (node d : Z) (other : gmap Z Z) (sd : side) (m : meeting) (nb : Z * Z) :
  visited (relax node d other (sd, m) nb).1 = visited sd
  /\ (length (heap (relax node d other (sd, m) nb).1) <= S (length (heap sd)))%nat.
Proof.
  destruct nb as [n w]. unfold relax. case_bool_decide; [simpl; split; [done|lia]|].
  destruct (dist sd !! n) as [old|]; [destruct (d + w <? old)|]; simpl; split; try done; lia.
Qed.

Lemma relax_fold_count (node d : Z) (other : gmap Z Z) (l : list (Z * Z))
    (sd : side) (m : meeting) :
  visited (foldl (relax node d other) (sd, m) l).1 = visited sd
  /\ (length (heap (foldl (relax node d other) (sd, m) l).1)
      <= length (heap sd) + length l)%nat.
Proof.
  revert sd m. induction l as [|nb l IH]; intros sd m; [simpl; split; [done|lia]|].
  cbn [foldl]. destruct (relax_count node d other sd m nb) as [Hv Hl].
  destruct (relax node d other (sd, m) nb) as [S' m']. cbn [fst] in Hv, Hl.
  destruct (IH S' m') as [Hv' Hl']. split; [congruence|]. simpl. lia.
Qed.

Lemma first_per_neighbor_length (seen : list Z) (l : list (Z * Z)) :
  (length (first_per_neighbor seen l) <= length l)%nat.
Proof.
  revert seen. induction l as [|[v w] l IH]; intros seen; simpl; [lia|].
  destruct (existsb (Z.eqb v) seen); simpl.
  - specialize (IH seen). lia.
  - specialize (IH (v :: seen)). lia.
Qed.

Lemma unsettled_split (key : edge -> Z) (es : list edge) (node : Z) (V : gset Z) :
  node ∉ V ->
  (length (List.filter (fun e => negb (bool_decide (key e ∈ {[node]} ∪ V))) es)
   + length (List.filter (fun e => (key e =? node)%Z) es)
   = length (List.filter (fun e => negb (bool_decide (key e ∈ V))) es))%nat.
Proof.
  intros Hnode. induction es as [|e es IH]; [reflexivity|]. simpl.
  destruct (Z.eqb_spec (key e) node) as [E|E].
  - rewrite (bool_decide_eq_true_2 (key e ∈ {[node]} ∪ V))
      by (apply elem_of_union; left; by apply elem_of_singleton).
    rewrite (bool_decide_eq_false_2 (key e ∈ V)) by (by rewrite E).
    simpl. lia.
  - destruct (decide (key e ∈ V)) as [Hin|Hout].
    + rewrite (bool_decide_eq_true_2 (key e ∈ {[node]} ∪ V))
        by (apply elem_of_union; by right).
      rewrite (bool_decide_eq_true_2 (key e ∈ V)) by done. simpl. exact IH.
    + rewrite (bool_decide_eq_false_2 (key e ∈ {[node]} ∪ V)).
      2:{ intros Hin. apply elem_of_union in Hin. destruct Hin as [Hin|Hin]; [|done].
          by apply elem_of_singleton in Hin. }
      rewrite (bool_decide_eq_false_2 (key e ∈ V)) by done. simpl. lia.
Qed.

Section Progress.
Variable key : edge -> Z.
Variable g : Graph.t.
Variable neighbors : Graph.t -> Z -> list (Z * Z).
Hypothesis neighbors_count :
  forall p, (length (neighbors g p)
             <= length (List.filter (fun e => (key e =? p)%Z) (edges g)))%nat.

Lemma search_step_progress (sd : side) (other : gmap Z Z) (m : meeting) :
  match search_step g neighbors sd other m with
  | Idle => heap sd = []
  | Skipped S' | Expanded S' _ => (side_budget key g S' < side_budget key g sd)%nat
  | KeyError => True
  end.
Proof.
  unfold search_step.
  destruct (Heap.heappop (heap sd)) as [[[d node] h]|] eqn:Hpop.
  2:{ unfold Heap.heappop in Hpop. by destruct (heap sd). }
  pose proof (heappop_length _ _ _ Hpop) as Hlen.
  case_bool_decide as Hnode.
  { unfold side_budget. simpl. lia. }
  destruct (has_node g node); [|done].
  set (s1 := mkSide (dist sd) (prev sd) h ({[node]} ∪ visited sd)).
  destruct (relax_fold_count node d other (neighbors g node) s1
              (check_meeting other node d m)) as [Hv Hl].
  destruct (foldl (relax node d other) (s1, check_meeting other node d m)
              (neighbors g node)) as [s2 m2].
  cbn [fst] in Hv, Hl. unfold side_budget. rewrite Hv. subst s1. simpl in *.
  pose proof (unsettled_split key (edges g) node (visited sd) Hnode).
  pose proof (neighbors_count node). lia.
Qed.
End Progress.

Lemma successors_count (g : Graph.t) (p : Z) :
  (length (successors g p) <= length (List.filter (fun e => (src e =? p)%Z) (edges g)))%nat.
Proof.
  unfold successors. etransitivity; [apply first_per_neighbor_length|].
  by rewrite length_map.
Qed.

Lemma predecessors_count (g : Graph.t) (p : Z) :
  (length (predecessors g p) <= length (List.filter (fun e => (dst e =? p)%Z) (edges g)))%nat.
Proof.
  unfold predecessors. etransitivity; [apply first_per_neighbor_length|].
  by rewrite length_map.
Qed.

Lemma iteration_progress (g : Graph.t) (st : state) :
  heap (fwd st) <> [] \/ heap (bwd st) <> [] ->
  match iteration g st with
  | inl st' => (budget g st' < budget g st)%nat
  | inr _ => True
  end.
Proof.
  intros Hnonempty. unfold iteration, budget.
  pose proof (search_step_progress src g successors (successors_count g)
                (fwd st) (dist (bwd st)) (meet st)) as Hf.
  destruct (search_step g successors (fwd st) (dist (bwd st)) (meet st))
    as [|f|f m|]; [| |simpl|done].
  - pose proof (search_step_progress dst g predecessors (predecessors_count g)
                  (bwd st) (dist (fwd st)) (meet st)) as Hb.
    destruct (search_step g predecessors (bwd st) (dist (fwd st)) (meet st))
      as [|b|b m|]; [| | |done].
    + destruct Hnonempty; congruence.
    + simpl. lia.
    + destruct (early_termination _); [done|]. simpl. lia.
  - simpl. lia.
  - pose proof (search_step_progress dst g predecessors (predecessors_count g)
                  (bwd st) (dist f) m) as Hb.
    destruct (search_step g predecessors (bwd st) (dist f) m) as [|b|b m2|]; [| | |done].
    + destruct (early_termination _); [done|]. simpl. lia.
    + simpl. lia.
    + destruct (early_termination _); [done|]. simpl. lia.
Qed.

Lemma iteration_result (g : Graph.t) (st : state) (r : result) :
  iteration g st = inr r -> r <> OutOfFuel.
Proof.
  assert (Hearly : forall st' r', early_termination st' = Some r' -> r' <> OutOfFuel).
  { intros st' r'. unfold early_termination.
    destruct (meeting_point (meet st')) as [mp|]; [|discriminate].
    destruct (min_total_dist (meet st')) as [total|]; [|discriminate].
    destruct (mp =? 0); [discriminate|]. by intros [= <-]. }
  unfold iteration.
  destruct (search_step g successors (fwd st) (dist (bwd st)) (meet st))
    as [|f|f m|]; [| discriminate | |by intros [= <-]].
  - destruct (search_step g predecessors (bwd st) (dist (fwd st)) (meet st))
      as [|b|b m|]; [| discriminate | |by intros [= <-]].
    + destruct (early_termination st) as [r'|] eqn:E; [|discriminate].
      intros [= <-]. by apply (Hearly st).
    + destruct (early_termination _) as [r'|] eqn:E; [|discriminate].
      intros [= <-]. by apply (Hearly _ _ E).
  - cbn [fwd bwd meet].
    destruct (search_step g predecessors (bwd st) (dist f) m)
      as [|b|b m2|]; [| discriminate | |by intros [= <-]].
    + destruct (early_termination _) as [r'|] eqn:E; [|discriminate].
      intros [= <-]. by apply (Hearly _ _ E).
    + destruct (early_termination _) as [r'|] eqn:E; [|discriminate].
      intros [= <-]. by apply (Hearly _ _ E).
Qed.

Lemma while_loop_enough (g : Graph.t) (fuel : nat) (st : state) :
  (budget g st < fuel)%nat -> while_loop fuel g st <> OutOfFuel.
Proof.
  revert st. induction fuel as [|k IH]; intros st Hb; [lia|]. simpl.
  destruct (heap (fwd st)) as [|x hf] eqn:Ef; [destruct (heap (bwd st)) as [|y hb] eqn:Eb|].
  - discriminate.
  - pose proof (iteration_progress g st) as Hit.
    destruct (iteration g st) as [st'|r] eqn:E.
    + apply IH. assert (budget g st' < budget g st)%nat; [|lia].
      apply Hit. right. by rewrite Eb.
    + by apply (iteration_result g st).
  - pose proof (iteration_progress g st) as Hit.
    destruct (iteration g st) as [st'|r] eqn:E.
    + apply IH. assert (budget g st' < budget g st)%nat; [|lia].
      apply Hit. left. by rewrite Ef.
    + by apply (iteration_result g st).
Qed.

Lemma initial_budget (g : Graph.t) (s t : Z) :
  (budget g (mkState (initial s) (initial t) (mkMeeting None None)) < enough_fuel g)%nat.
Proof.
  unfold budget, side_budget, enough_fuel. simpl.
  set (a := length (List.filter _ (edges g))).
  assert (Ha : (a <= length (edges g))%nat) by apply List.filter_length_le.
  clearbody a. lia.
Qed.

(** X11. The search always comes to an end: each pass of the [while] loop
    pops a queue entry, and a direction queues at most one entry per road
    besides its start, so [find_shortest_path] returns a path, reports that
    there is none, or raises, within [enough_fuel] passes. *)
Theorem find_shortest_path_terminates (g : Graph.t) (s t : Z) :
  find_shortest_path g s t <> OutOfFuel.
Proof.
  unfold find_shortest_path. destruct (s =? t); [discriminate|].
  apply while_loop_enough, initial_budget.
Qed.

(** *** When the lookup of a node fails *)

Lemma first_per_neighbor_subset (nb : Z * Z) (l : list (Z * Z)) (seen : list Z) :
  nb ∈ first_per_neighbor seen l -> nb ∈ l.
Proof.
  revert seen. induction l as [|[u x] l IH]; intros seen; simpl; [done|].
  destruct (existsb (Z.eqb u) seen).
  - intros H. apply elem_of_cons. right. by apply (IH seen).
  - intros H. apply elem_of_cons in H. apply elem_of_cons.
    destruct H as [H|H]; [by left|right; by apply (IH (u :: seen))].
Qed.

Lemma edge_ends_known (g : Graph.t) (e : edge) :
  e ∈ edges g -> has_node g (src e) = true /\ has_node g (dst e) = true.
Proof.
  intros He. apply list_elem_of_In in He. unfold has_node.
  split; apply orb_true_iff; right; apply existsb_exists; exists e;
    (split; [done|]); rewrite Z.eqb_refl; [done|apply orb_true_r].
Qed.

Lemma successors_known (g : Graph.t) (p : Z) (nb : Z * Z) :
  nb ∈ successors g p -> has_node g nb.1 = true.
Proof.
  intros H. apply first_per_neighbor_subset in H.
  apply list_elem_of_fmap in H. destruct H as (e & -> & He).
  apply list_elem_of_In, List.filter_In in He. destruct He as [He _].
  apply list_elem_of_In in He. by apply edge_ends_known.
Qed.

Lemma predecessors_known (g : Graph.t) (p : Z) (nb : Z * Z) :
  nb ∈ predecessors g p -> has_node g nb.1 = true.
Proof.
  intros H. apply first_per_neighbor_subset in H.
  apply list_elem_of_fmap in H. destruct H as (e & -> & He).
  apply list_elem_of_In, List.filter_In in He. destruct He as [He _].
  apply list_elem_of_In in He. by apply edge_ends_known.
Qed.

Lemma relax_known (g : Graph.t) (node d : Z) (other : gmap Z Z) (sd : side)
    (m : meeting) (nb : Z * Z) :
  heap_known g sd -> has_node g nb.1 = true ->
  heap_known g (relax node d other (sd, m) nb).1.
Proof.
  intros Hk Hnb. destruct nb as [n w]. unfold relax. case_bool_decide; [done|].
  assert (Hpush : heap_known g
            (mkSide (<[n := d + w]> (dist sd)) (<[n := Some node]> (prev sd))
               (Heap.heappush (heap sd) (d + w, n)) (visited sd))).
  { intros x Hx. apply elem_of_cons in Hx. destruct Hx as [->|Hx]; [done|by apply Hk]. }
  destruct (dist sd !! n) as [old|]; [destruct (d + w <? old)|]; done.
Qed.

Lemma relax_fold_known (g : Graph.t) (node d : Z) (other : gmap Z Z)
    (l : list (Z * Z)) (sd : side) (m : meeting) :
  heap_known g sd -> (forall nb, nb ∈ l -> has_node g nb.1 = true) ->
  heap_known g (foldl (relax node d other) (sd, m) l).1.
Proof.
  revert sd m. induction l as [|nb l IH]; intros sd m Hk Hl; [done|].
  cbn [foldl]. pose proof (relax_known g node d other sd m nb Hk) as Hstep.
  destruct (relax node d other (sd, m) nb) as [sd' m']. cbn [fst] in Hstep.
  apply (IH sd' m').
  - apply Hstep, Hl, elem_of_cons. by left.
  - intros x Hx. apply Hl, elem_of_cons. by right.
Qed.

Lemma search_step_known (g : Graph.t) (neighbors : Graph.t -> Z -> list (Z * Z))
    (sd : side) (other : gmap Z Z) (m : meeting) :
  (forall p nb, nb ∈ neighbors g p -> has_node g nb.1 = true) ->
  heap_known g sd ->
  match search_step g neighbors sd other m with
  | Idle => True
  | Skipped sd' | Expanded sd' _ => heap_known g sd'
  | KeyError => False
  end.
Proof.
  intros Hn Hk. unfold search_step.
  destruct (Heap.heappop (heap sd)) as [[[d node] h]|] eqn:Hpop; [|done].
  destruct (heappop_spec _ _ _ Hpop) as (Hin & _ & Hsub & _).
  assert (Hh : forall x, x ∈ h -> has_node g x.2 = true)
    by (intros x Hx; by apply Hk, Hsub).
  case_bool_decide; [exact Hh|].
  pose proof (Hk _ Hin) as Hnode. cbn [snd] in Hnode. rewrite Hnode.
  pose proof (relax_fold_known g node d other (neighbors g node)
                (mkSide (dist sd) (prev sd) h ({[node]} ∪ visited sd))
                (check_meeting other node d m) Hh (Hn node)) as Hfold.
  by destruct (foldl _ _ _) as [s2 m2].
Qed.

Lemma iteration_known (g : Graph.t) (st : state) :
  heap_known g (fwd st) -> heap_known g (bwd st) ->
  match iteration g st with
  | inl st' => heap_known g (fwd st') /\ heap_known g (bwd st')
  | inr r => r <> Raised
  end.
Proof.
  assert (Hearly : forall st' r', early_termination st' = Some r' -> r' <> Raised).
  { intros st' r'. unfold early_termination.
    destruct (meeting_point (meet st')) as [mp|]; [|discriminate].
    destruct (min_total_dist (meet st')) as [total|]; [|discriminate].
    destruct (mp =? 0); [discriminate|]. by intros [= <-]. }
  intros Hf Hb. unfold iteration.
  pose proof (search_step_known g successors (fwd st) (dist (bwd st)) (meet st)
                (successors_known g) Hf) as Hsf.
  destruct (search_step g successors (fwd st) (dist (bwd st)) (meet st))
    as [|f|f m|]; [|done| |done].
  - pose proof (search_step_known g predecessors (bwd st) (dist (fwd st)) (meet st)
                  (predecessors_known g) Hb) as Hsb.
    destruct (search_step g predecessors (bwd st) (dist (fwd st)) (meet st))
      as [|b|b m|]; [|done| |done].
    + destruct (early_termination st) as [r'|] eqn:E; [by apply (Hearly st)|done].
    + destruct (early_termination _) as [r'|] eqn:E; [by apply (Hearly _ _ E)|done].
  - cbn [fwd bwd meet].
    pose proof (search_step_known g predecessors (bwd st) (dist f) m
                  (predecessors_known g) Hb) as Hsb.
    destruct (search_step g predecessors (bwd st) (dist f) m)
      as [|b|b m2|]; [|done| |done].
    + destruct (early_termination _) as [r'|] eqn:E; [by apply (Hearly _ _ E)|done].
    + destruct (early_termination _) as [r'|] eqn:E; [by apply (Hearly _ _ E)|done].
Qed.

Lemma while_loop_known (g : Graph.t) (fuel : nat) (st : state) :
  heap_known g (fwd st) -> heap_known g (bwd st) -> while_loop fuel g st <> Raised.
Proof.
  revert st. induction fuel as [|k IH]; intros st Hf Hb; [discriminate|]. simpl.
  pose proof (iteration_known g st Hf Hb) as Hit.
  destruct (heap (fwd st)); [destruct (heap (bwd st)); [discriminate|]|];
    (destruct (iteration g st) as [st'|r]; [apply IH; apply Hit|done]).
Qed.

Lemma pop_start (n : Z) : Heap.heappop (heap (initial n)) = Some ((0, n), []).
Proof. unfold Heap.heappop. simpl. by rewrite Z.eqb_refl. Qed.

Lemma unknown_start (g : Graph.t) (neighbors : Graph.t -> Z -> list (Z * Z))
    (n : Z) (other : gmap Z Z) (m : meeting) :
  has_node g n = false -> search_step g neighbors (initial n) other m = KeyError.
Proof.
  intros Hn. unfold search_step. rewrite pop_start.
  rewrite bool_decide_eq_false_2 by (simpl; apply not_elem_of_empty).
  by rewrite Hn.
Qed.

Lemma known_start (g : Graph.t) (neighbors : Graph.t -> Z -> list (Z * Z))
    (n : Z) (other : gmap Z Z) (m : meeting) :
  has_node g n = true ->
  exists sd m', search_step g neighbors (initial n) other m = Expanded sd m'.
Proof.
  intros Hn. unfold search_step. rewrite pop_start.
  rewrite bool_decide_eq_false_2 by (simpl; apply not_elem_of_empty).
  rewrite Hn. destruct (foldl _ _ _) as [s2 m2]. by exists s2, m2.
Qed.

(** X12. [find_shortest_path] raises exactly when source and target differ
    and one of them is not a node of the graph: every other node the search
    looks up is the end of a road, so it is in the graph. *)
Theorem find_shortest_path_raises_iff (g : Graph.t) (s t : Z) :
  find_shortest_path g s t = Raised
  <-> s <> t /\ (has_node g s = false \/ has_node g t = false).
Proof.
  unfold find_shortest_path. destruct (Z.eqb_spec s t) as [->|Hst].
  { split; [discriminate|]. by intros [? _]. }
  split.
  - intros Hraised. split; [done|].
    destruct (has_node g s) eqn:Hs; [|by left].
    destruct (has_node g t) eqn:Ht; [|by right].
    exfalso. revert Hraised. apply while_loop_known; simpl.
    + intros x Hx. apply list_elem_of_singleton in Hx. by subst x.
    + intros x Hx. apply list_elem_of_singleton in Hx. by subst x.
  - intros [_ Hunknown]. unfold enough_fuel. cbn [while_loop initial heap fwd bwd].
    unfold iteration. cbn [fwd bwd meet].
    destruct (has_node g s) eqn:Hs.
    + destruct Hunknown as [|Ht]; [discriminate|].
      destruct (known_start g successors s (dist (initial t)) (mkMeeting None None) Hs)
        as (sd & m' & ->).
      cbn [fwd bwd meet]. by rewrite (unknown_start g predecessors t _ _ Ht).
    + change (mkSide {[s := 0]} {[s := None]} [(0, s)] ∅) with (initial s).
      by rewrite (unknown_start g successors s _ _ Hs).
Qed.

End PathSoundness.

(** ** Routes over the road network *)

Module Routes.
Import Graph BidirectionalDijkstra EmergencyRouteFinder RouteSpec PathSpec RoutingSpec.

Lemma walk_length_nonneg (g : Graph.t) (p : list Z) (d : Z) :
  nonneg_lengths g -> ReferenceDijkstra.walk_length g p = Some d -> 0 <= d.
Proof.
  intros Hg. revert d. induction p as [|u p IH]; intros d.
  { simpl. intros [= <-]. lia. }
  destruct p as [|v r].
  - simpl. intros [= <-]. lia.
  - rewrite PathSoundness.walk_length_cons, PathSoundness.edge_weight_first_edge.
    destruct (List.find _ (edges g)) as [e|] eqn:Hfind; [|discriminate].
    destruct (ReferenceDijkstra.walk_length g (v :: r)) as [l|]; [|discriminate].
    cbn [fmap option_fmap option_map mbind option_bind].
    intros [= <-]. specialize (IH l eq_refl).
    apply List.find_some in Hfind. destruct Hfind as [He _].
    unfold nonneg_lengths in Hg. rewrite List.Forall_forall in Hg.
    specialize (Hg e He). lia.
Qed.

Lemma end_of_first_road_known (g : Graph.t) (lon lat : Q) (n : Z) :
  end_of_first_road g lon lat = Some n -> has_node g n = true.
Proof.
  unfold end_of_first_road. destruct (edges g) as [|e l] eqn:He; [discriminate|].
  assert (Hin : e ∈ edges g) by (rewrite He; apply list_elem_of_here).
  destruct (PathSoundness.edge_ends_known g e Hin) as [Hs Hd].
  destruct (Qle_bool lat 1); by intros [= <-].
Qed.

Lemma coordinates_known (g : Graph.t) (n : Z) :
  has_node g n = true -> is_Some (coordinates g n).
Proof.
  intros Hn. unfold coordinates. destruct (List.find _ _); [by eexists|].
  rewrite Hn. by eexists.
Qed.

Lemma walk_nodes_known (g : Graph.t) (p : list Z) (d : Z) :
  ReferenceDijkstra.walk_length g p = Some d ->
  (forall n, head p = Some n -> has_node g n = true) ->
  Forall (fun n => has_node g n = true) p.
Proof.
  revert d. induction p as [|u p IH]; intros d Hlen Hhead; [constructor|].
  constructor; [by apply Hhead|].
  destruct p as [|v r]; [constructor|].
  rewrite PathSoundness.walk_length_cons, PathSoundness.edge_weight_first_edge in Hlen.
  destruct (List.find _ (edges g)) as [e|] eqn:Hfind; [|discriminate].
  destruct (ReferenceDijkstra.walk_length g (v :: r)) as [l|] eqn:Hrest; [|discriminate].
  apply (IH l eq_refl). intros n [= <-].
  apply List.find_some in Hfind. destruct Hfind as [He Hends].
  apply andb_true_iff in Hends. destruct Hends as [_ Hv]. apply Z.eqb_eq in Hv.
  rewrite <- Hv. by apply PathSoundness.edge_ends_known, list_elem_of_In.
Qed.

Lemma path_finder_returns (G : Graph.t) (hn an : Z) :
  has_node G hn = true -> has_node G an = true ->
  (exists p d cs,
     find_shortest_path G hn an = Path p d /\ mapM (coordinates G) p = Some cs)
  \/ find_shortest_path G hn an = NoPath.
Proof.
  intros Hht Hat.
  pose proof (PathSoundness.find_shortest_path_ok G hn an) as Hok.
  assert (Hfuel : find_shortest_path G hn an <> OutOfFuel).
  { unfold find_shortest_path. destruct (hn =? an); [discriminate|].
    apply PathSoundness.while_loop_enough, PathSoundness.initial_budget. }
  assert (Hraise : find_shortest_path G hn an <> Raised).
  { unfold find_shortest_path. destruct (hn =? an); [discriminate|].
    apply PathSoundness.while_loop_known; simpl; intros x Hx;
      apply list_elem_of_singleton in Hx; by subst x. }
  destruct (find_shortest_path G hn an) as [p d| | |]; [|by right|done..].
  left. destruct Hok as (Hlen & Hhead & _).
  assert (Hnodes : Forall (fun n => has_node G n = true) p).
  { apply (walk_nodes_known G p d Hlen). intros n Hn. congruence. }
  destruct (mapM_is_Some_2 (coordinates G) p) as [cs Hcs].
  { eapply Forall_impl; [exact Hnodes|]. intros n Hn. by apply coordinates_known. }
  by exists p, d, cs.
Qed.

Section WithCollaborators.
Variable haversine_distance : Q -> Q -> Q -> Q -> Q.
Variable nearest_nodes : Graph.t -> Q -> Q -> option Z.
Variable cache_key : Q -> Q -> Z -> string.

#[local] Abbreviation get_road_network := (get_road_network cache_key).
#[local] Abbreviation find_optimal_hospital_route :=
  (find_optimal_hospital_route haversine_distance nearest_nodes cache_key).
#[local] Abbreviation route_each :=
  (route_each haversine_distance nearest_nodes cache_key).
#[local] Abbreviation straight_line_route := (straight_line_route haversine_distance).

Lemma get_road_network_cached (graph_from_point : provider)
    (graph_cache cache' : gmap string Graph.t) (center_lat center_lon : Q)
    (radius_m : Z) (G : Graph.t) :
  get_road_network graph_from_point graph_cache center_lat center_lon radius_m
  = (Some G, cache') ->
  cache' !! cache_key center_lat center_lon radius_m = Some G.
Proof.
  unfold EmergencyRouteFinder.get_road_network.
  destruct (graph_cache !! _) as [G'|] eqn:Hhit.
  - by intros [= <- <-].
  - destruct (graph_from_point _ _ _); [|discriminate].
    intros [= <- <-]. apply lookup_insert_eq.
Qed.

(** X13. What a call of [get_road_network] leaves behind.  When it
    answers with a graph, that graph is cached under the key of the
    request, no other key is touched, and any later request for the same
    key is answered from the cache without asking the provider; when it
    answers [None], the key was not cached, the provider failed and the
    cache is as before. *)
Theorem cached_network_reused (graph_from_point : provider)
    (graph_cache : gmap string Graph.t) (center_lat center_lon : Q) (radius_m : Z) :
  let key := cache_key center_lat center_lon radius_m in
  match get_road_network graph_from_point graph_cache center_lat center_lon radius_m with
  | (Some G, cache') =>
    cache' !! key = Some G
    /\ (forall k, k <> key -> cache' !! k = graph_cache !! k)
    /\ forall later : provider,
         get_road_network later cache' center_lat center_lon radius_m = (Some G, cache')
  | (None, cache') =>
    cache' = graph_cache /\ graph_cache !! key = None
    /\ graph_from_point center_lat center_lon radius_m = None
  end.
Proof.
  intros key. unfold EmergencyRouteFinder.get_road_network. fold key.
  destruct (graph_cache !! key) as [G|] eqn:Hhit.
  - split; [exact Hhit|]. split; [done|]. intros later. by rewrite Hhit.
  - destruct (graph_from_point center_lat center_lon radius_m) as [G|]; [|done].
    split; [apply lookup_insert_eq|]. split.
    + intros k Hk. by apply lookup_insert_ne.
    + intros later. by rewrite lookup_insert_eq.
Qed.

Lemma get_road_network_grows (graph_from_point : provider)
    (graph_cache : gmap string Graph.t) (center_lat center_lon : Q) (radius_m : Z) :
  graph_cache ⊆
    (get_road_network graph_from_point graph_cache center_lat center_lon radius_m).2.
Proof.
  unfold EmergencyRouteFinder.get_road_network.
  destruct (graph_cache !! _) as [G|] eqn:Hhit; [done|].
  destruct (graph_from_point _ _ _); [|done]. simpl. by apply insert_subseteq.
Qed.

Lemma find_optimal_hospital_route_grows (graph_from_point : provider)
    (graph_cache : gmap string Graph.t) (alat alon hlat hlon : Q) (radius_m : Z)
    (fast_mode : bool) :
  graph_cache ⊆
    (find_optimal_hospital_route graph_from_point graph_cache alat alon hlat hlon
       radius_m fast_mode).2.
Proof.
  unfold EmergencyRouteFinder.find_optimal_hospital_route.
  destruct fast_mode; [done|].
  pose proof (get_road_network_grows graph_from_point graph_cache
                ((alat + hlat) / 2) ((alon + hlon) / 2) radius_m) as Hsub.
  destruct (get_road_network _ _ _ _ _) as [[G|] cache']; simpl in Hsub; [|done].
  destruct (nearest_nodes G alon alat); [|done].
  destruct (nearest_nodes G hlon hlat); [|done].
  destruct (find_shortest_path G _ _) as [p d| | |]; try done.
  by destruct (mapM _ p).
Qed.

(** X14. The cache of road networks only grows: whatever the mode and the
    outcome of each route, every graph cached before
    [find_nearest_hospitals_with_routes] ran is still cached, under the
    same key, afterwards. *)
Theorem cache_only_grows (graph_from_point : provider)
    (graph_cache : gmap string Graph.t) (accident_lat accident_lon : Q)
    (fast_mode : bool) (rows : list dataset_row) :
  graph_cache ⊆
    (route_each graph_from_point graph_cache accident_lat accident_lon fast_mode rows).2.
Proof.
  revert graph_cache. induction rows as [|row rows IH]; intros graph_cache; [done|].
  simpl.
  pose proof (find_optimal_hospital_route_grows graph_from_point graph_cache
                accident_lat accident_lon (Latitude row) (Longitude row) 5000 fast_mode)
    as Hstep.
  destruct (find_optimal_hospital_route _ _ _ _ _ _ _ _) as [[r|] cache1]; [|done].
  specialize (IH cache1).
  destruct (route_each _ cache1 _ _ _ _) as [es cache2]. simpl in *.
  by transitivity cache1.
Qed.

(** X15. A route found over the road network follows roads: the graph it
    was computed on is the one cached for the midpoint of accident and
    hospital, the path runs from the node nearest the hospital to the
    node nearest the accident, its length in metres is the sum of the
    road lengths along it (hence not negative when no road has a negative
    length), the length in kilometres is a thousandth of that, and the
    coordinates are those of the nodes of the path, one pair per node. *)
Theorem graph_route_follows_roads (graph_from_point : provider)
    (graph_cache cache' : gmap string Graph.t)
    (accident_lat accident_lon hospital_lat hospital_lon : Q) (radius_m : Z)
    (path : list Z) (coords : list (Q * Q)) (km m : Q) :
  find_optimal_hospital_route graph_from_point graph_cache accident_lat accident_lon
    hospital_lat hospital_lon radius_m false
  = (Some (RouteFound path coords km m false), cache') ->
  exists G hospital_node accident_node d,
    cache' !! cache_key ((accident_lat + hospital_lat) / 2)
                        ((accident_lon + hospital_lon) / 2) radius_m = Some G
    /\ nearest_nodes G hospital_lon hospital_lat = Some hospital_node
    /\ nearest_nodes G accident_lon accident_lat = Some accident_node
    /\ head path = Some hospital_node /\ last path = Some accident_node
    /\ ReferenceDijkstra.walk_length G path = Some d
    /\ m = inject_Z d /\ km = (inject_Z d / 1000)%Q
    /\ mapM (coordinates G) path = Some coords
    /\ length coords = length path
    /\ (nonneg_lengths G -> (0 <= km)%Q).
Proof.
  unfold EmergencyRouteFinder.find_optimal_hospital_route.
  destruct (get_road_network _ _ _ _ _) as [[G|] cache1] eqn:Hnet; [|discriminate].
  pose proof (get_road_network_cached _ _ _ _ _ _ _ Hnet) as Hcached.
  destruct (nearest_nodes G accident_lon accident_lat) as [an|] eqn:Han; [|discriminate].
  destruct (nearest_nodes G hospital_lon hospital_lat) as [hn|] eqn:Hhn; [|discriminate].
  pose proof (PathSoundness.find_shortest_path_ok G hn an) as Hok.
  destruct (find_shortest_path G hn an) as [p d| | |]; try discriminate.
  destruct (mapM (coordinates G) p) as [cs|] eqn:Hcoords; [|discriminate].
  intros [= <- <- <- <- <-]. destruct Hok as (Hlen & Hhead & Hlast).
  exists G, hn, an, d. repeat (split; [done|]).
  split; [symmetry; by apply (length_mapM (coordinates G))|].
  intros Hg. pose proof (walk_length_nonneg G p d Hg Hlen) as Hd.
  unfold Qdiv. apply Qmult_le_0_compat; [|done].
  unfold Qle. simpl. lia.
Qed.

(** X16. When [nearest_nodes] answers with nodes of the graph, as the
    library does, no exception leaves [find_optimal_hospital_route]:
    neither the path finder nor the lookup of the coordinates raises,
    and the answer is a successful route, or one of the two error
    dictionaries the function builds itself. *)
Theorem routing_never_raises (graph_from_point : provider)
    (graph_cache : gmap string Graph.t)
    (accident_lat accident_lon hospital_lat hospital_lon : Q) (radius_m : Z)
    (fast_mode : bool) :
  (forall G lon lat n, nearest_nodes G lon lat = Some n -> has_node G n = true) ->
  exists r,
    (find_optimal_hospital_route graph_from_point graph_cache accident_lat
       accident_lon hospital_lat hospital_lon radius_m fast_mode).1 = Some r
    /\ returned r.
Proof.
  intros Hknown. unfold EmergencyRouteFinder.find_optimal_hospital_route.
  destruct fast_mode; [eexists; split; [reflexivity | by left]|].
  destruct (get_road_network _ _ _ _ _) as [[G|] cache1];
    [|eexists; split; [reflexivity | by left]].
  destruct (nearest_nodes G accident_lon accident_lat) as [an|] eqn:Han;
    [|eexists; split; [reflexivity | right; by left]].
  destruct (nearest_nodes G hospital_lon hospital_lat) as [hn|] eqn:Hhn;
    [|eexists; split; [reflexivity | right; by left]].
  destruct (path_finder_returns G hn an (Hknown _ _ _ _ Hhn) (Hknown _ _ _ _ Han))
    as [(p & d & cs & -> & ->) | ->].
  - eexists. split; [reflexivity | by left].
  - eexists. split; [reflexivity | right; by right].
Qed.

Lemma route_is_returned (graph_from_point : provider)
    (graph_cache : gmap string Graph.t)
    (accident_lat accident_lon hospital_lat hospital_lon : Q) (radius_m : Z)
    (fast_mode : bool) :
  (forall G lon lat n, nearest_nodes G lon lat = Some n -> has_node G n = true) ->
  is_Some (find_optimal_hospital_route graph_from_point graph_cache accident_lat
             accident_lon hospital_lat hospital_lon radius_m fast_mode).1.
Proof.
  intros Hknown. unfold EmergencyRouteFinder.find_optimal_hospital_route.
  destruct fast_mode; [by eexists|].
  destruct (get_road_network _ _ _ _ _) as [[G|] cache1]; [|by eexists].
  destruct (nearest_nodes G accident_lon accident_lat) as [an|] eqn:Han; [|by eexists].
  destruct (nearest_nodes G hospital_lon hospital_lat) as [hn|] eqn:Hhn; [|by eexists].
  destruct (path_finder_returns G hn an (Hknown _ _ _ _ Hhn) (Hknown _ _ _ _ Han))
    as [(p & d & cs & -> & ->) | ->]; by eexists.
Qed.

Lemma route_each_names (graph_from_point : provider)
    (graph_cache : gmap string Graph.t) (accident_lat accident_lon : Q)
    (fast_mode : bool) (rows : list dataset_row) (es : list entry) :
  (route_each graph_from_point graph_cache accident_lat accident_lon fast_mode rows).1
  = Some es ->
  map entry_name es = map Name rows.
Proof.
  revert graph_cache es. induction rows as [|row rows IH]; intros graph_cache es.
  { simpl. by intros [= <-]. }
  simpl. destruct (find_optimal_hospital_route _ _ _ _ _ _ _ _) as [[r|] cache1];
    [|discriminate].
  specialize (IH cache1).
  destruct (route_each _ cache1 _ _ _ _) as [[es'|] cache2]; [|discriminate].
  simpl. intros [= <-]. simpl. rewrite (IH es' eq_refl). by destruct r.
Qed.

(** X17. When [nearest_nodes] answers with nodes of the graph,
    [find_nearest_hospitals_with_routes] does return its list, and the
    list reports every hospital row it was given, once and in the order
    of the rows, whether its route was found or not.  (Otherwise an
    exception of the path finder may end the loop and no list is
    returned.) *)
Theorem one_entry_per_row (graph_from_point : provider)
    (graph_cache : gmap string Graph.t) (accident_lat accident_lon : Q)
    (fast_mode : bool) (rows : list dataset_row) :
  (forall G lon lat n, nearest_nodes G lon lat = Some n -> has_node G n = true) ->
  exists es,
    (route_each graph_from_point graph_cache accident_lat accident_lon fast_mode rows).1
    = Some es
    /\ map entry_name es = map Name rows.
Proof.
  intros Hknown.
  assert (Hsome : exists es,
            (route_each graph_from_point graph_cache accident_lat accident_lon
               fast_mode rows).1 = Some es).
  { revert graph_cache. induction rows as [|row rows IH]; intros graph_cache.
    { by exists []. }
    simpl.
    destruct (route_is_returned graph_from_point graph_cache accident_lat accident_lon
                (Latitude row) (Longitude row) 5000 fast_mode Hknown) as (r & Hr).
    destruct (find_optimal_hospital_route _ _ _ _ _ _ _ _) as [r' cache1].
    simpl in Hr. subst r'. destruct (IH cache1) as (es & Hes).
    destruct (route_each _ cache1 _ _ _ _) as [es' cache2]. simpl in Hes. subst es'.
    by eexists. }
  destruct Hsome as (es & Hes). exists es. split; [exact Hes|].
  by apply (route_each_names graph_from_point graph_cache accident_lat accident_lon
              fast_mode rows).
Qed.

(** X18. In fast mode no road network is fetched or cached and every row
    gets a successful route: the straight line from the hospital to the
    accident, with the great-circle distance as route distance. *)
Theorem fast_mode_routes_every_row (graph_from_point : provider)
    (graph_cache : gmap string Graph.t) (accident_lat accident_lon : Q)
    (rows : list dataset_row) :
  route_each graph_from_point graph_cache accident_lat accident_lon true rows
  = (Some (map (fun row =>
                  let km := haversine_distance accident_lat accident_lon
                              (Latitude row) (Longitude row) in
                  RouteSuccess
                    (mkRouted (Name row) (Address row) (Phone row) (Latitude row)
                       (Longitude row) (Distance_km row) km (km * 1000)%Q
                       [(Latitude row, Longitude row); (accident_lat, accident_lon)]))
               rows),
     graph_cache).
Proof.
  induction rows as [|row rows IH]; [done|]. simpl. by rewrite IH.
Qed.

(** X19. Without a reachable provider and with no network cached for the
    rows, routed mode gives exactly the list of fast mode: every hospital
    falls back to its straight-line route. *)
Theorem offline_routing_is_fast_mode (graph_from_point : provider)
    (graph_cache : gmap string Graph.t) (accident_lat accident_lon : Q)
    (rows : list dataset_row) :
  (forall lat lon r, graph_from_point lat lon r = None) ->
  (forall row, row ∈ rows ->
     graph_cache !! cache_key ((accident_lat + Latitude row) / 2)
                              ((accident_lon + Longitude row) / 2) 5000 = None) ->
  route_each graph_from_point graph_cache accident_lat accident_lon false rows
  = route_each graph_from_point graph_cache accident_lat accident_lon true rows.
Proof.
  intros Hdown. induction rows as [|row rows IH]; intros Hmiss; [done|].
  cbn [EmergencyRouteFinder.route_each].
  unfold EmergencyRouteFinder.find_optimal_hospital_route,
    EmergencyRouteFinder.get_road_network.
  rewrite (Hmiss row) by apply list_elem_of_here. rewrite Hdown.
  rewrite IH; [done|]. intros r Hr. apply Hmiss, elem_of_cons. by right.
Qed.

End WithCollaborators.

Lemma graph_route_follows_roads_witness :
  exists G, ReferenceDijkstra.walk_length G [1; 4] = Some 10.
Proof.
  destruct (graph_route_follows_roads flat_distance end_of_first_road one_key
              provider_up ∅ (<[one_key 0 0 0 := detour_graph]> ∅) 1 1 2 2 5000
              [1; 4] [(0, 0); (0, 0)]%Q (10 / 1000)%Q 10%Q)
    as (G & hn & an & d & _ & _ & _ & _ & _ & Hlen & Hm & _).
  - vm_compute. reflexivity.
  - exists G. assert (d = 10) as <-; [|exact Hlen].
    unfold inject_Z in Hm. by injection Hm.
Defined.

Lemma routing_never_raises_witness :
  exists r,
    (EmergencyRouteFinder.find_optimal_hospital_route flat_distance
       end_of_first_road one_key provider_up ∅ 1 1 2 2 5000 false).1 = Some r
    /\ returned r.
Proof.
  apply (routing_never_raises flat_distance end_of_first_road one_key provider_up ∅
           1 1 2 2 5000 false).
  intros G lon lat n. apply end_of_first_road_known.
Defined.

Lemma one_entry_per_row_witness :
  exists es,
    (EmergencyRouteFinder.route_each flat_distance end_of_first_road one_key provider_up ∅
       1 1 false [mkRow "A" "" "" 2 2 2; mkRow "B" "" "" 3 3 4]).1 = Some es
    /\ map entry_name es = ["A"; "B"].
Proof.
  apply (one_entry_per_row flat_distance end_of_first_road one_key provider_up ∅
           1 1 false [mkRow "A" "" "" 2 2 2; mkRow "B" "" "" 3 3 4]).
  intros G lon lat n. apply end_of_first_road_known.
Defined.

Lemma offline_routing_is_fast_mode_witness :
  (EmergencyRouteFinder.route_each flat_distance no_nearest_node one_key provider_down ∅
     1 1 false [mkRow "A" "" "" 2 2 2]).2 = ∅.
Proof.
  rewrite (offline_routing_is_fast_mode flat_distance no_nearest_node one_key
             provider_down ∅ 1 1 [mkRow "A" "" "" 2 2 2]).
  - reflexivity.
  - reflexivity.
  - intros row _. apply lookup_empty.
Defined.

End Routes.

(** ** What [handle_accident] does to the store and whom it selects *)

Module Dispatch.
Import EmergencyRouteFinder EmergencyResponseSystem ResponseSpec DispatchSpec.
Import HospitalRatingSystem RatingSpec.


Lemma routed_candidates (hospitals : list entry) (h : routed) :
  h ∈ hospitals_with_routes hospitals <-> RouteSuccess h ∈ hospitals.
Proof.
  unfold hospitals_with_routes. rewrite (stable_sort_perm _ _).
  rewrite list_elem_of_omap. split.
  - intros (e & He & Hs). destruct e; [|discriminate]. by injection Hs as ->.
  - intros He. by exists (RouteSuccess h).
Qed.

Lemma no_candidates (hospitals : list entry) :
  hospitals_with_routes hospitals = [] <-> forall h, RouteSuccess h ∉ hospitals.
Proof.
  split.
  - intros Hnil h Hh. apply routed_candidates in Hh. rewrite Hnil in Hh.
    by apply not_elem_of_nil in Hh.
  - intros Hnone. destruct (hospitals_with_routes hospitals) as [|h l] eqn:E; [done|].
    exfalso. apply (Hnone h), routed_candidates. rewrite E. apply list_elem_of_here.
Qed.





Lemma grown_well_formed (names : list string) (d d' : db) :
  grown names d d' -> hospitals_seq d <= hospitals_seq d' ->
  Forall (fun h => 0 < id h <= hospitals_seq d') (hospitals d') ->
  NoDup (map id (hospitals d')) -> NoDup (map name (hospitals d')) ->
  well_formed d -> well_formed d'.
Proof.
  intros [Hc Hh (new & Hr & Hf)] Hseq Hids Hidu Hnames [[Hs _ _ _] Hcnt Hrat Hcases].
  split; [split; [lia|done..]|..].
  - rewrite Hr. apply Forall_app. split; [done|].
    eapply Forall_impl; [exact Hf|]. intros r (_ & _ & -> & ->). lia.
  - rewrite Hr. apply Forall_app. split; [done|].
    eapply Forall_impl; [exact Hf|]. intros r (_ & -> & _). apply RatingLedger.half_star_default.
  - by rewrite Hc.
Qed.

Section WithDataset.
Variable use_t_nagar_24x7 : bool.
Variable dataset_flags : string -> option (string * string).

#[local] Abbreviation extra_of := (extra_of use_t_nagar_24x7 dataset_flags).
#[local] Abbreviation consider := (consider use_t_nagar_24x7 dataset_flags).
#[local] Abbreviation score := (score use_t_nagar_24x7 dataset_flags).
#[local] Abbreviation handle_accident := (handle_accident use_t_nagar_24x7 dataset_flags).

Lemma consider_ratings (s : selection) (h : routed) :
  ratings (consider s h) = (rating_info_for (ratings s) h).2.
Proof.
  unfold EmergencyResponseSystem.consider.
  destruct (rating_info_for (ratings s) h) as [ri d]. simpl.
  by destruct (negb _).
Qed.


(** X20. [handle_accident] answers "No hospitals with valid routes
    found" exactly when no hospital of the list has a route, and then it
    leaves the rating store as it was. *)
Theorem no_route_no_selection (d : db) (hospitals : list entry) :
  (forall h, RouteSuccess h ∉ hospitals) <-> handle_accident d hospitals = (None, d).
Proof.
  rewrite <- no_candidates. unfold EmergencyResponseSystem.handle_accident.
  destruct (hospitals_with_routes hospitals) as [|first rest]; [done|].
  destruct (default _ _) as [best ri]. split; discriminate.
Qed.


Lemma stored_nonneg (d : db) (n : string) : nonneg_ratings d -> (0 <= stored d n)%Q.
Proof.
  intros Hd. unfold stored.
  destruct (List.find (has_name n) (hospitals d)) as [row|] eqn:Hfind; [|done].
  apply List.find_some in Hfind. destruct Hfind as [Hin _].
  unfold nonneg_ratings in Hd. rewrite List.Forall_forall in Hd. by apply Hd.
Qed.

Lemma extra_of_nonneg (n : string) : (0 <= extra_of n)%Q.
Proof.
  unfold EmergencyResponseSystem.extra_of. destruct use_t_nagar_24x7; [|done].
  destruct (dataset_flags n) as [[icu readiness]|]; [|done].
  by destruct (String.eqb icu "Y"), (String.eqb readiness "high").
Qed.

Lemma score_positive (d : db) (h : routed) :
  nonneg_ratings d -> (0 <= route_distance_km h)%Q -> (0 < score d h)%Q.
Proof.
  intros Hd Hh. rewrite (Selection.score_stored use_t_nagar_24x7 dataset_flags).
  pose proof (stored_nonneg d (hospital_name h) Hd) as Hs.
  pose proof (extra_of_nonneg (hospital_name h)) as He.
  assert (Hinv : (0 < / (route_distance_km h + 0.1))%Q)
    by (apply Qinv_lt_0_compat; lra).
  unfold Qdiv. change (/ 5)%Q with (1 # 5)%Q.
  set (t := (/ (route_distance_km h + 0.1))%Q) in *. clearbody t.
  set (r := stored d (hospital_name h)) in *. clearbody r.
  set (e := extra_of (hospital_name h)) in *. clearbody e. lra.
Qed.

Lemma scan_rating (d0 : db) (l : list routed) (s : selection) :
  (forall n, stored (ratings s) n = stored d0 n) ->
  (forall h ri, best_hospital s = Some (h, ri) ->
     exists i, ri = Some i /\ ri_current_rating i = stored d0 (hospital_name h)) ->
  forall h ri, best_hospital (foldl consider s l) = Some (h, ri) ->
    exists i, ri = Some i /\ ri_current_rating i = stored d0 (hospital_name h).
Proof.
  revert s. induction l as [|a l IH]; intros s Hstable Hbest; [exact Hbest|].
  cbn [foldl]. apply IH.
  - intros n. rewrite consider_ratings, Selection.stored_after_lookup. apply Hstable.
  - intros h ri. unfold EmergencyResponseSystem.consider.
    destruct (Selection.rating_info_for_current (ratings s) a) as (i & Hi & Hcur).
    destruct (rating_info_for (ratings s) a) as [ri' d'] eqn:E. simpl in Hi. subst ri'.
    destruct (negb _); simpl.
    + intros [= <- <-]. exists i. split; [done|]. by rewrite Hcur, Hstable.
    + apply Hbest.
Qed.

(** X22. With routed distances and stored ratings that are not negative,
    [handle_accident] selects, among the five nearest routed hospitals, one
    whose combined score is maximal, and reports for it the star rating
    the store held before the call (2.5 for a hospital it had to
    register). *)
Theorem selected_has_best_score (d : db) (hospitals : list entry) :
  routable hospitals -> nonneg_distances (scanned hospitals) -> nonneg_ratings d ->
  exists resp,
    (handle_accident d hospitals).1 = Some resp
    /\ selected_hospital resp ∈ scanned hospitals
    /\ Forall (fun x => score d x <= score d (selected_hospital resp))%Q
         (scanned hospitals)
    /\ star_rating resp = stored d (hospital_name (selected_hospital resp)).
Proof.
  intros [h0 Hh0] Hdist Hd. unfold EmergencyResponseSystem.handle_accident, scanned in *.
  destruct (hospitals_with_routes hospitals) as [|first rest] eqn:Hsorted.
  { exfalso. apply routed_candidates in Hh0. rewrite Hsorted in Hh0.
    by apply not_elem_of_nil in Hh0. }
  set (cands := first :: rest) in *.
  pose proof (scan_rating d (take 5 cands) (mkSelection d None (-1)%Q)
                (fun n => eq_refl)) as Hrating.
  destruct (Selection.select_fold use_t_nagar_24x7 dataset_flags d (take 5 cands)
              (mkSelection d None (-1)%Q))
    as [(_ & _ & Hall)|(l1 & h & ri & l2 & Htake & Hb & _ & H1 & H2)]; [done| |].
  - exfalso. simpl in Hall. apply Forall_cons in Hall. destruct Hall as [Hle _].
    simpl in Hdist. apply Forall_cons in Hdist. destruct Hdist as [Hfirst _].
    pose proof (score_positive d first Hd Hfirst) as Hpos.
    apply (Qlt_irrefl 0). apply Qlt_le_trans with (score d first); [done|].
    apply Qle_trans with (-1)%Q; [done|]. by vm_compute.
  - fold (select_best use_t_nagar_24x7 dataset_flags d cands) in Hb |- *.
    unfold select_best in Hb |- *.
    assert (Hnone : forall x rx,
              best_hospital (mkSelection d None (-1)%Q) = Some (x, rx) ->
              exists i, rx = Some i /\ ri_current_rating i = stored d (hospital_name x))
      by (intros x rx [=]).
    destruct (Hrating Hnone h ri Hb) as (i & -> & Hcur).
    rewrite Hb. simpl. eexists. split; [reflexivity|]. simpl.
    split; [|split; [|exact Hcur]].
    + change (h ∈ take 5 cands). rewrite Htake. apply elem_of_app. right.
      apply list_elem_of_here.
    + change (Forall (fun x => score d x <= score d h)%Q (take 5 cands)).
      rewrite Htake. apply Forall_app. split.
      * eapply Forall_impl; [exact H1|]. intros x. apply Qlt_le_weak.
      * constructor; [apply Qle_refl | exact H2].
Qed.

Lemma inverse_antitone (a b : Q) : (0 < a)%Q -> (a <= b)%Q -> (/ b <= / a)%Q.
Proof.
  intros Ha Hab. destruct (Qle_lt_or_eq _ _ Hab) as [Hlt|Heq].
  - apply Qlt_le_weak.
    by apply (proj1 (Qinv_lt_contravar a b Ha (Qlt_trans _ _ _ Ha Hlt))).
  - rewrite Heq. apply Qle_refl.
Qed.

Lemma nearer_scores_higher (d : db) (a b : routed) :
  (0 <= route_distance_km a)%Q -> (route_distance_km a <= route_distance_km b)%Q ->
  (stored d (hospital_name a) == stored d (hospital_name b))%Q ->
  (extra_of (hospital_name a) == extra_of (hospital_name b))%Q ->
  (score d b <= score d a)%Q.
Proof.
  intros Ha Hab Hs He.
  rewrite !(Selection.score_stored use_t_nagar_24x7 dataset_flags).
  assert (Hinv : (/ (route_distance_km b + 0.1) <= / (route_distance_km a + 0.1))%Q)
    by (apply inverse_antitone; lra).
  unfold Qdiv. change (/ 5)%Q with (1 # 5)%Q.
  set (ta := (/ (route_distance_km a + 0.1))%Q) in *. clearbody ta.
  set (tb := (/ (route_distance_km b + 0.1))%Q) in *. clearbody tb.
  set (ra := stored d (hospital_name a)) in *. clearbody ra.
  set (rb := stored d (hospital_name b)) in *. clearbody rb.
  set (ea := extra_of (hospital_name a)) in *. clearbody ea.
  set (eb := extra_of (hospital_name b)) in *. clearbody eb. lra.
Qed.

Lemma candidates_by_distance (hospitals : list entry) :
  StronglySorted (fun a b => route_distance_km a <= route_distance_km b)%Q
    (hospitals_with_routes hospitals).
Proof.
  apply Sorted_StronglySorted.
  { intros a b c. apply Qle_trans. }
  eapply Sorted_weaken.
  2:{ apply (stable_sort_sorted _ Selection.distance_order_total). }
  intros x y. simpl. apply Qle_bool_iff.
Qed.

(** X23. When the scanned candidates all have the same stored rating and
    the same readiness bonus, and no routed distance is negative, the
    hospital selected is the nearest one: the first of the candidates in
    order of route distance. *)
Theorem nearest_selected_on_equal_ratings (d : db) (hospitals : list entry) :
  routable hospitals -> nonneg_distances (scanned hospitals) ->
  (forall a b, a ∈ scanned hospitals -> b ∈ scanned hospitals ->
     (stored d (hospital_name a) == stored d (hospital_name b))%Q
     /\ (extra_of (hospital_name a) == extra_of (hospital_name b))%Q) ->
  exists resp rest,
    (handle_accident d hospitals).1 = Some resp
    /\ hospitals_with_routes hospitals = selected_hospital resp :: rest
    /\ Forall (fun x => route_distance_km (selected_hospital resp)
                        <= route_distance_km x)%Q rest.
Proof.
  intros [h0 Hh0] Hdist Hequal.
  pose proof (candidates_by_distance hospitals) as Hsorted.
  unfold EmergencyResponseSystem.handle_accident, scanned in *.
  destruct (hospitals_with_routes hospitals) as [|first rest] eqn:Hcands.
  { exfalso. apply routed_candidates in Hh0. rewrite Hcands in Hh0.
    by apply not_elem_of_nil in Hh0. }
  apply StronglySorted_inv in Hsorted. destruct Hsorted as [_ Hmin].
  set (cands := first :: rest) in *.
  assert (Hfirst : first ∈ take 5 cands) by apply list_elem_of_here.
  assert (Hnearest : forall x, x ∈ take 5 cands ->
            (route_distance_km first <= route_distance_km x)%Q).
  { intros x Hx. simpl in Hx. apply elem_of_cons in Hx.
    destruct Hx as [->|Hx]; [apply Qle_refl|].
    apply elem_of_take in Hx. destruct Hx as (i & Hx & _).
    apply list_elem_of_lookup_2 in Hx.
    rewrite List.Forall_forall in Hmin. by apply Hmin, list_elem_of_In. }
  destruct (Selection.select_fold use_t_nagar_24x7 dataset_flags d (take 5 cands)
              (mkSelection d None (-1)%Q))
    as [(Hb & _ & _)|(l1 & h & ri & l2 & Htake & Hb & _ & H1 & _)]; [done| |].
  - fold (select_best use_t_nagar_24x7 dataset_flags d cands) in Hb |- *.
    unfold select_best in Hb |- *. rewrite Hb. simpl.
    eexists. exists rest. by split.
  - fold (select_best use_t_nagar_24x7 dataset_flags d cands) in Hb |- *.
    unfold select_best in Hb |- *. rewrite Hb. simpl.
    eexists. exists rest. split; [reflexivity|]. simpl.
    destruct l1 as [|x l1].
    + simpl in Htake. injection Htake as <- _. by split.
    + exfalso. simpl in Htake. injection Htake as <- Hrest.
      apply Forall_cons in H1. destruct H1 as [Hlt _].
      assert (Hh : h ∈ take 5 cands).
      { simpl. rewrite Hrest. apply elem_of_cons. right.
        apply elem_of_app. right. apply list_elem_of_here. }
      destruct (Hequal first h Hfirst Hh) as [Hs He].
      apply (Qlt_irrefl (score d first)). apply Qlt_le_trans with (score d h); [done|].
      apply nearer_scores_higher; [|by apply Hnearest|done..].
      unfold nonneg_distances in Hdist. rewrite Forall_forall in Hdist.
      by apply Hdist.
Qed.

End WithDataset.

Lemma selected_has_best_score_witness :
  exists resp,
    (handle_accident false no_flags init_database three_candidates).1 = Some resp
    /\ selected_hospital resp ∈ scanned three_candidates.
Proof.
  destruct (selected_has_best_score false no_flags init_database three_candidates)
    as (resp & Hresp & Hin & _).
  - exists (candidate "A" 1.0). apply list_elem_of_here.
  - unfold nonneg_distances. vm_compute. repeat constructor; discriminate.
  - constructor.
  - by exists resp.
Defined.

Lemma nearest_selected_on_equal_ratings_witness :
  exists resp rest,
    (handle_accident false no_flags init_database three_candidates).1 = Some resp
    /\ hospitals_with_routes three_candidates = selected_hospital resp :: rest.
Proof.
  destruct (nearest_selected_on_equal_ratings false no_flags init_database three_candidates)
    as (resp & rest & Hresp & Hcands & _).
  - exists (candidate "A" 1.0). apply list_elem_of_here.
  - unfold nonneg_distances. vm_compute. repeat constructor; discriminate.
  - intros a b _ _. split; reflexivity.
  - by exists resp, rest.
Defined.

End Dispatch.

(** ** The best hospital of the neighbourhood and the call list *)

Module EmergencyCalls.
Import TNagarEmergencyService EmergencyContacts CallSpec.

Section MaxBy.
Context {A : Type} (key : A -> Q).

Lemma py_max_by_fold (l : list A) (best : A) (p q : list A) :
  Forall (fun x => key x < key best)%Q p ->
  Forall (fun x => key x <= key best)%Q q ->
  exists l1 l2,
    p ++ best :: q ++ l = l1 ++ py_max_by key best l :: l2
    /\ Forall (fun x => key x < key (py_max_by key best l))%Q l1
    /\ Forall (fun x => key x <= key (py_max_by key best l))%Q l2.
Proof.
  revert best p q. induction l as [|x l IH]; intros best p q Hp Hq.
  { exists p, q. by rewrite app_nil_r. }
  assert (Hstep : py_max_by key best (x :: l)
                  = py_max_by key (if Qle_bool (key x) (key best) then best else x) l)
    by reflexivity.
  rewrite Hstep. clear Hstep.
  destruct (Qle_bool (key x) (key best)) eqn:Hle.
  - apply Qle_bool_iff in Hle.
    destruct (IH best p (q ++ [x])) as (l1 & l2 & Heq & H1 & H2); [done| |].
    { apply Forall_app. split; [done|]. by constructor. }
    exists l1, l2. split; [|done]. rewrite <- Heq. by rewrite <- app_assoc.
  - assert (Hlt : (key best < key x)%Q).
    { apply Qnot_le_lt. intros Hn. apply Qle_bool_iff in Hn. congruence. }
    destruct (IH x (p ++ best :: q) []) as (l1 & l2 & Heq & H1 & H2); [|done|].
    { apply Forall_app. split; [|constructor; [done|]].
      - eapply Forall_impl; [exact Hp|]. intros y Hy. by apply Qlt_trans with (key best).
      - eapply Forall_impl; [exact Hq|]. intros y Hy.
        by apply Qle_lt_trans with (key best). }
    exists l1, l2. split; [|done]. rewrite <- Heq. simpl. by rewrite <- app_assoc.
Qed.
End MaxBy.

(** X24. [assign_best_hospital] answers [None] only for an empty list of
    hospitals; otherwise it answers with a hospital of the list whose score
    no other hospital exceeds, and of several with that score the first in
    the order of the list (the nearest). *)
Theorem assign_best_hospital_first_maximal
    (rating_system : option HospitalRatingSystem.db) (lookup_raises : string -> bool)
    (hospitals : list place) :
  match assign_best_hospital rating_system lookup_raises hospitals with
  | None => hospitals = []
  | Some best =>
    exists before after,
      hospitals = before ++ best :: after
      /\ Forall (fun h => score rating_system lookup_raises h
                          < score rating_system lookup_raises best)%Q before
      /\ Forall (fun h => score rating_system lookup_raises h
                          <= score rating_system lookup_raises best)%Q after
  end.
Proof.
  unfold assign_best_hospital. destruct hospitals as [|first rest]; [done|].
  destruct (py_max_by_fold (score rating_system lookup_raises) rest first [] [])
    as (l1 & l2 & Heq & H1 & H2); [done..|].
  exists l1, l2. by rewrite <- Heq.
Qed.

Lemma py_max_bounds (x : Q) : (x <= 40 -> 0 <= py_max 0 x <= 40)%Q.
Proof.
  intros Hx. unfold py_max. destruct (Qle_bool x 0) eqn:E; [lra|].
  split; [|done]. apply Qlt_le_weak, Qnot_le_lt. intros Hn.
  apply Qle_bool_iff in Hn. congruence.
Qed.

Lemma readiness_score_bounds (r : string) : (5 <= readiness_score r <= 15)%Q.
Proof.
  unfold readiness_score.
  destruct (String.eqb r "high"); [lra|].
  destruct (String.eqb r "medium"); [lra|].
  destruct (String.eqb r "low"); lra.
Qed.

Lemma past_rating_bounds (rating_system : option HospitalRatingSystem.db)
    (lookup_raises : string -> bool) (n : string) :
  rated_on_scale rating_system ->
  (0 <= past_rating rating_system lookup_raises n <= 5)%Q.
Proof.
  intros Hscale. unfold past_rating.
  destruct rating_system as [d|]; [|lra].
  destruct (lookup_raises n); [lra|].
  unfold HospitalRatingSystem.get_hospital_rating.
  destruct (List.find _ _) as [row|] eqn:Hfind; simpl; [|lra].
  apply List.find_some in Hfind. destruct Hfind as [Hin _].
  specialize (Hscale d eq_refl). rewrite List.Forall_forall in Hscale.
  by apply Hscale.
Qed.

(** X25. For a hospital at a distance that is not negative, and ratings on
    the scale 0 to 5, the score of [assign_best_hospital] lies between 5
    and 100, and from 10 km on the distance no longer counts. *)
Theorem score_range (rating_system : option HospitalRatingSystem.db)
    (lookup_raises : string -> bool) (h : place) :
  (0 <= distance_km h)%Q -> rated_on_scale rating_system ->
  (5 <= score rating_system lookup_raises h <= 100)%Q
  /\ ((10 <= distance_km h)%Q ->
      score rating_system lookup_raises h
      = (0 + (if icu_availability h then 20 else 0)
         + readiness_score (response_readiness h)
         + past_rating rating_system lookup_raises (name h) / 5 * 25)%Q).
Proof.
  intros Hdist Hscale. unfold score.
  pose proof (py_max_bounds (40 - distance_km h * 4)) as Hprox.
  pose proof (readiness_score_bounds (response_readiness h)) as Hready.
  pose proof (past_rating_bounds rating_system lookup_raises (name h) Hscale) as Hrating.
  split.
  - assert (Hp : (0 <= py_max 0 (40 - distance_km h * 4) <= 40)%Q) by (apply Hprox; lra).
    unfold Qdiv. change (/ 5)%Q with (1 # 5)%Q.
    set (a := py_max 0 (40 - distance_km h * 4)) in *. clearbody a.
    set (b := readiness_score (response_readiness h)) in *. clearbody b.
    set (c := past_rating rating_system lookup_raises (name h)) in *. clearbody c.
    destruct (icu_availability h); lra.
  - intros Hfar. unfold py_max.
    assert (Hle : Qle_bool (40 - distance_km h * 4) 0 = true)
      by (apply Qle_bool_iff; lra).
    by rewrite Hle.
Qed.

#[local] Ltac empty_front := simpl; split; [lia | split; constructor].

Lemma py_slice_to_length {A} (n : Z) (l : list A) :
  0 <= n -> (length (py_slice_to n l) <= Z.to_nat n)%nat.
Proof.
  intros Hn. unfold py_slice_to. destruct (Z.leb_spec 0 n); [|lia].
  rewrite length_take. lia.
Qed.

(** X26. The emergency call list holds at most one hospital, the best one,
    in front, followed by police stations in the order of the dataset;
    every contact has a telephone number; with a limit that is not
    negative there are at most [max_police] police stations; and the flag
    [include_nearest_police] makes no difference. *)
Theorem call_list_shape (include_best_hospital include_nearest_police : bool)
    (max_police : Z) (rating_system : option HospitalRatingSystem.db)
    (lookup_raises : string -> bool) (hospitals police : list place) :
  let out :=
    get_emergency_call_list include_best_hospital include_nearest_police max_police
      rating_system lookup_raises hospitals police in
  Forall (fun c => contact_phone c <> "") out
  /\ (exists front stations,
        out = front ++ stations
        /\ (length front <= 1)%nat
        /\ Forall (fun c =>
              is_hospital c
              /\ exists best,
                   assign_best_hospital rating_system lookup_raises hospitals = Some best
                   /\ contact_name c = name best /\ contact_phone c = phone best) front
        /\ Forall is_police stations
        /\ map contact_name stations
           = map name (List.filter (fun p => truthy (phone p))
                         (py_slice_to max_police police))
        /\ (0 <= max_police -> (length stations <= Z.to_nat max_police)%nat))
  /\ out = get_emergency_call_list include_best_hospital (negb include_nearest_police)
             max_police rating_system lookup_raises hospitals police.
Proof.
  intros out. subst out. unfold get_emergency_call_list.
  set (stations := map _ (List.filter _ (py_slice_to max_police police))).
  set (front := if include_best_hospital && _ then _ else []).
  assert (Hphones : Forall (fun c => contact_phone c <> "") stations).
  { subst stations. apply Forall_fmap, Forall_forall. intros p Hp. simpl.
    apply list_elem_of_In, List.filter_In in Hp. destruct Hp as [_ Hp].
    unfold truthy in Hp. intros E. rewrite E in Hp. discriminate. }
  assert (Hfront : (length front <= 1)%nat
                   /\ Forall (fun c => contact_phone c <> "") front
                   /\ Forall (fun c =>
                         is_hospital c
                         /\ exists best,
                              assign_best_hospital rating_system lookup_raises hospitals
                              = Some best
                              /\ contact_name c = name best
                              /\ contact_phone c = phone best) front).
  { subst front. destruct (include_best_hospital && _); [|empty_front].
    destruct (assign_best_hospital _ _ _) as [best|]; [|empty_front].
    destruct (truthy (phone best)) eqn:Hp; [|empty_front].
    simpl. split; [lia|]. split.
    - constructor; [|done]. simpl. unfold truthy in Hp. intros E. rewrite E in Hp.
      discriminate.
    - constructor; [|done]. split; [done|]. by exists best. }
  destruct Hfront as (Hlen & Hfp & Hbest).
  split; [by apply Forall_app|]. split; [|done].
  exists front, stations. split; [done|]. split; [done|]. split; [done|].
  split; [|split].
  - subst stations. by apply Forall_fmap, Forall_forall.
  - subst stations. by rewrite map_map.
  - intros Hn. subst stations. rewrite length_map.
    etransitivity; [apply List.filter_length_le|]. by apply py_slice_to_length.
Qed.

(** X27. [get_emergency_call_contacts] is empty unless the neighbourhood
    dataset is in use and can be read, and never holds more than three
    contacts: the best hospital and two police stations. *)
Theorem call_contacts_at_most_three (use_t_nagar_24x7 : bool)
    (rating_system : HospitalRatingSystem.db) (lookup_raises : string -> bool)
    (dataset : option (list place * list place)) :
  let out := get_emergency_call_contacts use_t_nagar_24x7 rating_system lookup_raises
               dataset in
  (length out <= 3)%nat
  /\ (use_t_nagar_24x7 = false \/ dataset = None -> out = []).
Proof.
  intros out. subst out. unfold get_emergency_call_contacts. split.
  - destruct use_t_nagar_24x7; [|simpl; lia].
    destruct dataset as [[hospitals police]|]; [|simpl; lia].
    unfold get_emergency_call_list. rewrite length_app, length_map.
    pose proof (List.filter_length_le (fun p => truthy (phone p))
                  (py_slice_to 2 police)) as Hf.
    pose proof (py_slice_to_length 2 police ltac:(lia)) as Hs.
    assert (Hfront : forall l : list contact,
              l = (if true && match hospitals with [] => false | _ => true end
                   then match assign_best_hospital (Some rating_system) lookup_raises
                                hospitals with
                        | Some best =>
                          if truthy (phone best)
                          then [mkContact (name best) (phone best) "Hospital"] else []
                        | None => []
                        end
                   else []) -> (length l <= 1)%nat).
    { intros l ->. destruct (true && _); [|simpl; lia].
      destruct (assign_best_hospital _ _ _) as [best|]; [|simpl; lia].
      destruct (truthy (phone best)); simpl; lia. }
    specialize (Hfront _ eq_refl). change (Z.to_nat 2) with 2%nat in Hs. lia.
  - intros [-> | ->]; [done|]. by destruct use_t_nagar_24x7.
Qed.

Lemma score_range_witness :
  (5 <= score None never_raises far_hospital <= 100)%Q.
Proof.
  apply (score_range None never_raises far_hospital).
  - vm_compute. discriminate.
  - intros d. discriminate.
Defined.

End EmergencyCalls.

(** ** The rating printed after a patient is stabilised *)

Module Stabilization.
Import HospitalRatingSystem RatingSpec PostStabilizationRating.

(** X28. [record_outcome_and_update_rating] never fails on a missing
    report: it stores what [record_case_outcome] stores, returns false and
    prints nothing when the outcome could not be recorded, and otherwise
    returns true and prints the star rating just recomputed for the
    hospital. *)
Theorem printed_rating_is_recomputed (f : faults) (d : db)
    (accident_id hospital_name patient_outcome : string)
    (quality_score response_time_minutes : Q) (treatment_notes : string) :
  schema_ok d ->
  let r := record_outcome_and_update_rating f d accident_id hospital_name patient_outcome
             quality_score response_time_minutes treatment_notes in
  let recorded := record_case_outcome f d hospital_name accident_id patient_outcome
                    quality_score response_time_minutes treatment_notes in
  let d0 := (ensure_registered d hospital_name).2 in
  r.2 = recorded.2
  /\ match r.1 with
     | Returned ok (Some p) =>
       ok = true /\ recorded.1 = true
       /\ exists h0,
            List.find (has_name hospital_name) (hospitals d0) = Some h0
            /\ star_rating p
               = recomputed_rating d0 h0
                   (mkCase (id h0) accident_id patient_outcome quality_score
                      response_time_minutes treatment_notes)
     | Returned ok None => ok = false /\ recorded.1 = false /\ r.2 = d0
     | AttributeError => False
     end.
Proof.
  intros Hok r recorded d0.
  destruct (RatingLedger.record_case_outcome_unfold f d hospital_name accident_id
              patient_outcome quality_score response_time_minutes treatment_notes Hok)
    as (h0 & Hname & Hid & _ & Hrec).
  fold d0 in Hname, Hid, Hrec. fold recorded in Hrec.
  subst r. unfold record_outcome_and_update_rating. fold recorded. rewrite Hrec.
  set (c := mkCase (id h0) accident_id patient_outcome quality_score
              response_time_minutes treatment_notes) in *.
  destruct (raises f d0 h0 c); [by repeat split|].
  unfold get_hospital_rating. rewrite RatingLedger.committed_hospitals.
  rewrite (RatingLedger.find_update (has_name hospital_name) (id h0)
             (fun h => set_rating (recomputed_rating d0 h0 c) (add_outcome c h)))
    by reflexivity.
  rewrite Hname. simpl. unfold has_id. rewrite Z.eqb_refl. simpl.
  split; [reflexivity|]. split; [reflexivity|]. split; [reflexivity|].
  exists h0. by split.
Qed.

Lemma printed_rating_is_recomputed_witness :
  (record_outcome_and_update_rating no_faults init_database "case-1" "Apollo" "successful"
     100 0 "").2
  = (record_case_outcome no_faults init_database "Apollo" "case-1" "successful" 100 0 "").2.
Proof.
  exact (proj1 (printed_rating_is_recomputed no_faults init_database "case-1" "Apollo"
                  "successful" 100 0 "" RatingLedger.schema_ok_init)).
Defined.

End Stabilization.
